(** * Barnes-Hut simulation engine: quadtree, force traversal, integrator

    A shallow embedding of the simulation core of the Go program
    (BarnesHut, GenerateQuadTree, InsertStar, Subdivide, FindQuadrant,
    ComputeCenterAndMass, IsInsideUniverse, CalculateNetForce, ComputeForce,
    Distance, IsLeaf, UpdateUniverse, UpdateAcceleration, UpdateVelocity,
    UpdatePosition, CopyUniverse, LoadJupiterMoons, GalaxyPush,
    GalaxyCenter) together with
    the properties its specification states about it and further
    properties of the code.

    The program is embedded twice.
    - The embedding at the top level covers the whole program and reads
      [float64] as a real number ([R]): rounding, infinities and NaN have
      no counterpart.  The one operation where the machine leaves the
      reals, a division whose divisor is zero, is made explicit: a
      division by a variable is [fdiv] and yields the outcome [DivByZero]
      when the divisor is zero, where the Go program goes on with an
      infinity or NaN; nothing is stated of the program on such inputs.
      Division by the literal [2.0] is [/ 2].  What is proved of this
      embedding holds of the code where only the structure of the
      computation matters, which function is called on what and in which
      order; where a statement rests on the laws of the real numbers it
      says "in real arithmetic".
    - The module [F64] embeds the functions that build and traverse the
      tree a second time, with [float64] as IEEE 754 binary64: every
      operation rounds to the nearest value, ties to even, on its own (no
      fused multiply-add, as on amd64), comparisons with NaN are false,
      and a division never aborts.  What the specification states about
      tolerances and about the termination of the subdivision is settled
      on this embedding.

    Conventions common to both.
    - [*Star] is an address together with the value stored there ([ptr]);
      [==] and [!=] on star pointers compare addresses.  Every [&Star{...}]
      takes the next free address from an allocation counter that the
      allocating functions thread through.  GalaxyPush, which writes
      through star pointers that may alias, works on a store from
      addresses to star values instead.
    - LoadJupiterMoons is embedded from the point where the file has been
      read: its argument is the sequence of lines that the scanner
      yields, and the library functions [strings.TrimSpace],
      [strconv.ParseFloat] and [strconv.Atoi] are parameters.
    - [*Node] fields that the source tests against [nil] (the entries of
      [children], the [root] of a tree) are [option Node]; a dereference of
      [nil] or an index out of range is the outcome [Panic].  Universes
      and trees passed to a function are not [nil] themselves.
    - Go's unbounded recursion in [InsertStar] is bounded by an explicit
      recursion depth [fuel]; running out of it is the outcome [OutOfFuel],
      and "does not terminate" reads "is [OutOfFuel] for every fuel".
    - The generation count of BarnesHut is a natural number; [BarnesHut_int]
      adds the counts of type [int] that are not.
    - Memory is unbounded: an allocation always succeeds. *)

From Stdlib Require Import Floats.
From Stdlib Require Import String Ascii.
From Stdlib Require Import Reals Lra Lia List Bool Arith NArith Permutation.
Import ListNotations.
Open Scope R_scope.

Set Implicit Arguments.

(** ** Outcomes of a call *)

Inductive outcome (A : Type) : Type :=
| Done (a : A)
| Panic
| DivByZero
| OutOfFuel.

Arguments Done {A} a.
Arguments Panic {A}.
Arguments DivByZero {A}.
Arguments OutOfFuel {A}.

Definition bind {A B : Type} (m : outcome A) (k : A -> outcome B) : outcome B :=
  match m with
  | Done a => k a
  | Panic => Panic
  | DivByZero => DivByZero
  | OutOfFuel => OutOfFuel
  end.

Notation "x <- m ;; k" := (bind m (fun x => k))
  (at level 61, m at next level, right associativity).
Notation "' pat <- m ;; k" := (bind m (fun x => match x with pat => k end))
  (at level 61, pat pattern, m at next level, right associativity).

(** ** Comparisons and division on float64 values *)

Definition Rltb (a b : R) : bool := if Rlt_dec a b then true else false.
Definition Rleb (a b : R) : bool := if Rle_dec a b then true else false.
Definition Rgeb (a b : R) : bool := if Rge_dec a b then true else false.
Definition Reqb (a b : R) : bool := if Req_dec_T a b then true else false.

Definition fdiv (a b : R) : outcome R :=
  if Reqb b 0 then DivByZero else Done (a / b).

(** ** Data model *)

Record ptr (A : Type) : Type := mkPtr { addr : nat; deref : A }.

Definition ptr_eqb {A : Type} (p q : ptr A) : bool := Nat.eqb (addr p) (addr q).

Record OrderedPair : Type := mkPair { px : R; py : R }.

Record Star : Type := mkStar {
  position : OrderedPair;
  velocity : OrderedPair;
  acceleration : OrderedPair;
  mass : R;
  radius : R;
  red : N;
  green : N;
  blue : N
}.

Record Universe : Type := mkUniverse { width : R; stars : list (ptr Star) }.

Record Quadrant : Type := mkQuadrant { qx : R; qy : R; qwidth : R }.

#[local] Unset Elimination Schemes.
Inductive Node : Type :=
| mkNode (sector : Quadrant) (star : option (ptr Star)) (children : list (option Node)).

#[local] Set Elimination Schemes.

Definition sector (n : Node) : Quadrant := let 'mkNode q _ _ := n in q.
Definition star (n : Node) : option (ptr Star) := let 'mkNode _ s _ := n in s.
Definition children (n : Node) : list (option Node) := let 'mkNode _ _ c := n in c.

Record QuadTree : Type := mkQuadTree { root : option Node }.

(** Modelled from the spec: the gravitational constant [G], a process-wide
    constant declared outside the source files at hand; taken as Newton's
    constant in SI units.  Only [G <> 0] is ever used. *)
Definition G : R := 6.67408e-11.

(** The zero value of [OrderedPair] ([var force OrderedPair]). *)
Definition zeroPair : OrderedPair := mkPair 0 0.

(** The zero value of [Star], as [&Star{position: p, mass: m}] fills the
    fields it does not name. *)
Definition aggregateStar (p : OrderedPair) (m : R) : Star :=
  mkStar p zeroPair zeroPair m 0 0%N 0%N 0%N.

Definition pos (s : ptr Star) : OrderedPair := position (deref s).

Definition set_acceleration (s : ptr Star) (a : OrderedPair) : ptr Star :=
  let v := deref s in
  mkPtr (addr s)
    (mkStar (position v) (velocity v) a (mass v) (radius v) (red v) (green v) (blue v)).

Definition set_velocity (s : ptr Star) (w : OrderedPair) : ptr Star :=
  let v := deref s in
  mkPtr (addr s)
    (mkStar (position v) w (acceleration v) (mass v) (radius v) (red v) (green v) (blue v)).

Definition set_position (s : ptr Star) (p : OrderedPair) : ptr Star :=
  let v := deref s in
  mkPtr (addr s)
    (mkStar p (velocity v) (acceleration v) (mass v) (radius v) (red v) (green v) (blue v)).

(** ** Vector arithmetic *)

Definition Distance (p1 p2 : OrderedPair) : R * R * R :=
  let deltaX := px p1 - px p2 in
  let deltaY := py p1 - py p2 in
  (deltaX, deltaY, sqrt (deltaX * deltaX + deltaY * deltaY)).

(** ** Quadtree construction *)

Definition IsInsideUniverse (s : ptr Star) (width : R) : bool :=
  Rgeb (px (pos s)) 0 && Rleb (px (pos s)) width
  && Rgeb (py (pos s)) 0 && Rleb (py (pos s)) width.

Definition Subdivide (node : Node) : Node :=
  let half := qwidth (sector node) / 2 in
  let x := qx (sector node) in
  let y := qy (sector node) in
  mkNode (sector node) (star node)
    [ Some (mkNode (mkQuadrant x (y + half) half) None []);
      Some (mkNode (mkQuadrant (x + half) (y + half) half) None []);
      Some (mkNode (mkQuadrant x y half) None []);
      Some (mkNode (mkQuadrant (x + half) y half) None []) ].

Definition FindQuadrant (sector : Quadrant) (s : ptr Star) : nat :=
  let midX := qx sector + qwidth sector / 2 in
  let midY := qy sector + qwidth sector / 2 in
  let sX := px (pos s) in
  let sY := py (pos s) in
  if Rltb sX midX && Rgeb sY midY then 0%nat
  else if Rgeb sX midX && Rgeb sY midY then 1%nat
  else if Rltb sX midX && Rltb sY midY then 2%nat
  else 3%nat.

(** [f(node.children[idx])] for an [f] that updates the child in place. *)
Definition onChild (f : Node -> outcome Node) (node : Node) (idx : nat)
  : outcome Node :=
  match nth_error (children node) idx with
  | None => Panic       (* index out of range *)
  | Some None => Panic  (* [f] dereferences its node *)
  | Some (Some child) =>
      child' <- f child ;;
      Done (mkNode (sector node) (star node)
              (firstn idx (children node) ++ Some child'
                 :: skipn (S idx) (children node)))
  end.

Fixpoint InsertStar (fuel : nat) (node : Node) (s : ptr Star) {struct fuel}
  : outcome Node :=
  match fuel with
  | O => OutOfFuel
  | S fuel' =>
      match star node, children node with
      | None, [] =>
          (* Case 1: no star in this node *)
          Done (mkNode (sector node) (Some s) (children node))
      | Some old_star, [] =>
          (* Case 2: the node contains a star, need to subdivide *)
          let node1 := Subdivide node in
          let node2 := mkNode (sector node1) None (children node1) in
          node3 <- onChild (fun c => InsertStar fuel' c old_star) node2
                     (FindQuadrant (sector node2) old_star) ;;
          onChild (fun c => InsertStar fuel' c s) node3
            (FindQuadrant (sector node3) s)
      | _, _ :: _ =>
          (* Case 3: the node has children *)
          let idx := FindQuadrant (sector node) s in
          onChild (fun c => InsertStar fuel' c s) node idx
      end
  end.

Section ComputeCenterAndMass_loop.
Variable rec : Node -> nat -> outcome (Node * nat).

(** The [for _, child := range node.children] loop: the children after
    the recursive calls, the three accumulators and the allocation
    counter. *)
Fixpoint ComputeCenterAndMass_children (cs : list (option Node))
    (totalMass xCm yCm : R) (next : nat) {struct cs}
  : outcome (list (option Node) * R * R * R * nat) :=
  match cs with
  | [] => Done ([], totalMass, xCm, yCm, next)
  | None :: _ => Panic  (* [child.star] on a child that is [nil] *)
  | Some child :: cs' =>
      '(child', next') <- rec child next ;;
      let '(totalMass', xCm', yCm') :=
        match star child' with
        | Some st =>
            let m := mass (deref st) in
            (totalMass + m, xCm + m * px (pos st), yCm + m * py (pos st))
        | None => (totalMass, xCm, yCm)
        end in
      '(cs'', totalMass'', xCm'', yCm'', next'') <-
        ComputeCenterAndMass_children cs' totalMass' xCm' yCm' next' ;;
      Done (Some child' :: cs'', totalMass'', xCm'', yCm'', next'')
  end.
End ComputeCenterAndMass_loop.

Fixpoint ComputeCenterAndMass (node : Node) (next : nat) {struct node}
  : outcome (Node * nat) :=
  match node with
  | mkNode sector0 star0 children0 =>
      match children0 with
      | [] => Done (node, next)
      | _ :: _ =>
          '(children1, totalMass, xCm, yCm, next1) <-
            ComputeCenterAndMass_children ComputeCenterAndMass children0 0 0 0 next ;;
          if Rltb 0 totalMass then
            cx <- fdiv xCm totalMass ;;
            cy <- fdiv yCm totalMass ;;
            Done (mkNode sector0
                    (Some (mkPtr next1 (aggregateStar (mkPair cx cy) totalMass)))
                    children1,
                  S next1)
          else Done (mkNode sector0 star0 children1, next1)
      end
  end.

(** The [for _, s := range currentUniverse.stars] loop of GenerateQuadTree. *)
Fixpoint insertAll (fuel : nat) (width : R) (ss : list (ptr Star)) (root : Node)
  : outcome Node :=
  match ss with
  | [] => Done root
  | s :: ss' =>
      if IsInsideUniverse s width then
        root' <- InsertStar fuel root s ;;
        insertAll fuel width ss' root'
      else insertAll fuel width ss' root
  end.

Definition GenerateQuadTree (fuel : nat) (currentUniverse : Universe) (next : nat)
  : outcome (QuadTree * nat) :=
  let root := mkNode (mkQuadrant 0 0 (width currentUniverse)) None [] in
  root1 <- insertAll fuel (width currentUniverse) (stars currentUniverse) root ;;
  '(root2, next') <- ComputeCenterAndMass root1 next ;;
  Done (mkQuadTree (Some root2), next').

(** ** Force approximation *)

Definition IsLeaf (node : Node) : bool :=
  forallb (fun child => match child with Some _ => false | None => true end)
    (children node).

Section CalculateNetForce_loop.
Variable rec : Node -> outcome OrderedPair.

(** The [for _, child := range node.children] loop, adding the force of
    every child that is not [nil] to the running [force]. *)
Fixpoint CalculateNetForce_children (cs : list (option Node)) (force : OrderedPair)
    {struct cs} : outcome OrderedPair :=
  match cs with
  | [] => Done force
  | None :: cs' => CalculateNetForce_children cs' force
  | Some child :: cs' =>
      f <- rec child ;;
      CalculateNetForce_children cs' (mkPair (px force + px f) (py force + py f))
  end.
End CalculateNetForce_loop.

(** [CalculateNetForce] on a node that is not [nil]. *)
Fixpoint CalculateNetForce_node (node : Node) (currStar : ptr Star) (theta : R)
    {struct node} : outcome OrderedPair :=
  match node with
  | mkNode sector0 star0 children0 =>
      let force := zeroPair in
      match star0 with
      | None => Done force
      | Some nstar =>
          if Reqb (mass (deref nstar)) 0 then Done force
          else if IsLeaf node && negb (ptr_eqb nstar currStar) then
            let '(dX, dY, d) := Distance (pos nstar) (pos currStar) in
            if negb (Reqb d 0) then
              f <- fdiv (G * mass (deref currStar) * mass (deref nstar)) (d * d) ;;
              uX <- fdiv dX d ;;
              uY <- fdiv dY d ;;
              let fX := f * uX in
              let fY := f * uY in
              Done (mkPair (px force + fX) (py force + fY))
            else Done force
          else
            force1 <-
              (if negb (ptr_eqb nstar currStar) then
                 let '(_, _, d) := Distance (pos nstar) (pos currStar) in
                 if negb (Reqb d 0) then
                   let s := qwidth sector0 in
                   ratio <- fdiv s d ;;
                   if Rltb ratio theta then
                     (* far enough to be a dummy body *)
                     Done (mkPair (px force + 0) (py force + 0))
                   else Done force
                 else Done force
               else Done force) ;;
            CalculateNetForce_children
              (fun child => CalculateNetForce_node child currStar theta)
              children0 force1
      end
  end.

Definition CalculateNetForce (node : option Node) (currStar : ptr Star) (theta : R)
  : outcome OrderedPair :=
  match node with
  | None => Done zeroPair
  | Some n => CalculateNetForce_node n currStar theta
  end.

Definition ComputeForce (b b2 : ptr Star) : outcome OrderedPair :=
  let '(dX, dY, d) := Distance (pos b) (pos b2) in
  if Reqb d 0 then Done zeroPair
  else
    F <- fdiv (G * mass (deref b) * mass (deref b2)) (d * d) ;;
    fx <- fdiv (F * dX) d ;;
    fy <- fdiv (F * dY) d ;;
    Done (mkPair fx fy).

(** ** Integration *)

Definition UpdateAcceleration (s : ptr Star) (tree : QuadTree) (theta : R)
  : outcome OrderedPair :=
  force <- CalculateNetForce (root tree) s theta ;;
  ax <- fdiv (px force) (mass (deref s)) ;;
  ay <- fdiv (py force) (mass (deref s)) ;;
  Done (mkPair ax ay).

Definition UpdateVelocity (s : ptr Star) (oldAcceleration : OrderedPair) (time : R)
  : OrderedPair :=
  mkPair
    (px (velocity (deref s))
     + 0.5 * (px (acceleration (deref s)) + px oldAcceleration) * time)
    (py (velocity (deref s))
     + 0.5 * (py (acceleration (deref s)) + py oldAcceleration) * time).

Definition UpdatePosition (s : ptr Star) (oldAcceleration oldVelocity : OrderedPair)
    (time : R) : OrderedPair :=
  mkPair
    (px (pos s) + px oldVelocity * time + 0.5 * px oldAcceleration * time * time)
    (py (pos s) + py oldVelocity * time + 0.5 * py oldAcceleration * time * time).

(** The [&Star{...}] of CopyUniverse: a fresh star at address [a] holding
    the fields of [s]. *)
Definition copyStar (a : nat) (s : ptr Star) : ptr Star :=
  mkPtr a
    (mkStar (mkPair (px (pos s)) (py (pos s)))
       (mkPair (px (velocity (deref s))) (py (velocity (deref s))))
       (mkPair (px (acceleration (deref s))) (py (acceleration (deref s))))
       (mass (deref s)) (radius (deref s))
       (red (deref s)) (green (deref s)) (blue (deref s))).

Fixpoint copyStars (ss : list (ptr Star)) (next : nat) : list (ptr Star) * nat :=
  match ss with
  | [] => ([], next)
  | s :: ss' =>
      let copy_s := copyStar next s in
      let '(rest, next') := copyStars ss' (S next) in
      (copy_s :: rest, next')
  end.

Definition CopyUniverse (u : Universe) (next : nat) : Universe * nat :=
  let '(copies, next') := copyStars (stars u) next in
  (mkUniverse (width u) copies, next').

(** The body of the loop of UpdateUniverse, on the star [b] of the new
    universe: the three assignments in the order of the source. *)
Definition updateStar (b : ptr Star) (time : R) (tree : QuadTree) (theta : R)
  : outcome (ptr Star) :=
  let oldAcceleration := acceleration (deref b) in
  let oldVelocity := velocity (deref b) in
  a <- UpdateAcceleration b tree theta ;;
  let b1 := set_acceleration b a in
  let b2 := set_velocity b1 (UpdateVelocity b1 oldAcceleration time) in
  let b3 := set_position b2 (UpdatePosition b2 oldAcceleration oldVelocity time) in
  Done b3.

Fixpoint updateStars (bs : list (ptr Star)) (time : R) (tree : QuadTree) (theta : R)
  : outcome (list (ptr Star)) :=
  match bs with
  | [] => Done []
  | b :: bs' =>
      b' <- updateStar b time tree theta ;;
      rest <- updateStars bs' time tree theta ;;
      Done (b' :: rest)
  end.

Definition UpdateUniverse (currentUniverse : Universe) (time : R) (tree : QuadTree)
    (theta : R) (next : nat) : outcome (Universe * nat) :=
  let '(newUniverse, next') := CopyUniverse currentUniverse next in
  stars' <- updateStars (stars newUniverse) time tree theta ;;
  Done (mkUniverse (width newUniverse) stars', next').

(** ** Simulation driver *)

(** The [for i := 1; i < numGens + 1; i++] loop: [gens] iterations are
    left and [currentUniverse] is [timePoints[i-1]]; the result is
    [timePoints[i:]]. *)
Fixpoint BarnesHut_loop (fuel : nat) (gens : nat) (currentUniverse : Universe)
    (time theta : R) (next : nat) {struct gens} : outcome (list Universe * nat) :=
  match gens with
  | O => Done ([], next)
  | S gens' =>
      '(tree, next1) <- GenerateQuadTree fuel currentUniverse next ;;
      '(newUniverse, next2) <- UpdateUniverse currentUniverse time tree theta next1 ;;
      '(rest, next3) <- BarnesHut_loop fuel gens' newUniverse time theta next2 ;;
      Done (newUniverse :: rest, next3)
  end.

Definition BarnesHut (fuel : nat) (initialUniverse : Universe) (numGens : nat)
    (time theta : R) (next : nat) : outcome (list Universe * nat) :=
  let '(first, next0) := CopyUniverse initialUniverse next in
  '(rest, next1) <- BarnesHut_loop fuel numGens first time theta next0 ;;
  Done (first :: rest, next1).

(** The value of an integer expression as Go's 64-bit [int]: two's
    complement wrap-around. *)
Definition int (z : Z) : Z := ((z + 2 ^ 63) mod 2 ^ 64 - 2 ^ 63)%Z.

(** BarnesHut on a generation count of type [int].  [make] panics on a
    negative length, and the assignment to [timePoints[0]] panics on the
    empty slice; a slice of positive length, taken to be allocated, has
    room for the first snapshot and for one more per turn of the loop. *)
Definition BarnesHut_int (fuel : nat) (initialUniverse : Universe) (numGens : Z)
    (time theta : R) (next : nat) : outcome (list Universe * nat) :=
  if (int (numGens + 1) <=? 0)%Z then Panic
  else BarnesHut fuel initialUniverse (Z.to_nat numGens) time theta next.

(** ** Loading a universe from a file *)

(** The conversion [uint8(r)] of an [int]: the low eight bits. *)
Definition uint8 (r : Z) : N := Z.to_N (Z.modulo r 256).

(** [strings.Count(line, ",")]: lines are byte strings, and the separator
    is one byte. *)
Fixpoint Count (line : string) : nat :=
  match line with
  | EmptyString => 0%nat
  | String c rest => ((if Ascii.eqb c ","%char then 1 else 0) + Count rest)%nat
  end.

(** [strings.Contains(line, ",")]. *)
Definition Contains (line : string) : bool := (0 <? Count line)%nat.

(** [strings.Split(line, ",")]. *)
Fixpoint Split (line : string) : list string :=
  match line with
  | EmptyString => [EmptyString]
  | String c rest =>
      if Ascii.eqb c ","%char then EmptyString :: Split rest
      else
        match Split rest with
        | [] => [String c EmptyString]
        | field :: fields => String c field :: fields
        end
  end.

(** [strings.HasPrefix(line, ">")]. *)
Definition HasPrefix (line : string) : bool := prefix ">"%string line.

(** [fields[i]]. *)
Definition field (fields : list string) (i : nat) : outcome string :=
  match nth_error fields i with
  | Some f => Done f
  | None => Panic
  end.

Definition set_colour (s : ptr Star) (r g b : N) : ptr Star :=
  let v := deref s in
  mkPtr (addr s)
    (mkStar (position v) (velocity v) (acceleration v) (mass v) (radius v) r g b).

Definition set_mass (s : ptr Star) (m : R) : ptr Star :=
  let v := deref s in
  mkPtr (addr s)
    (mkStar (position v) (velocity v) (acceleration v) m (radius v)
       (red v) (green v) (blue v)).

Definition set_radius (s : ptr Star) (r : R) : ptr Star :=
  let v := deref s in
  mkPtr (addr s)
    (mkStar (position v) (velocity v) (acceleration v) (mass v) r
       (red v) (green v) (blue v)).

(** [u.stars = append(u.stars, currStar)] when [currStar != nil]. *)
Definition appendCurrent (stars0 : list (ptr Star)) (currStar : option (ptr Star))
  : list (ptr Star) :=
  match currStar with
  | Some s => stars0 ++ [s]
  | None => stars0
  end.

Section LoadJupiterMoons_library.
(** [strings.TrimSpace]; [strconv.ParseFloat(_, 64)] and [strconv.Atoi]
    with the value they return and whether [err != nil]. *)
Variable TrimSpace : string -> string.
Variable ParseFloat : string -> R * bool.
Variable Atoi : string -> Z * bool.

(** The body of the loop over the lines from the third on: the star
    being read, the stars read so far and the allocation counter. *)
Definition loadLine (line : string) (currStar : option (ptr Star))
    (stars0 : list (ptr Star)) (next : nat)
  : outcome (option (ptr Star) * list (ptr Star) * nat) :=
  if HasPrefix line then
    (* add the previous moon, start the current one with [&Star{}] *)
    Done (Some (mkPtr next (mkStar zeroPair zeroPair zeroPair 0 0 0%N 0%N 0%N)),
          appendCurrent stars0 currStar, S next)
  else
    match currStar with
    | None => Done (None, stars0, next)
    | Some s =>
        if Nat.eqb (Count line) 2 then
          let fields := Split line in
          f0 <- field fields 0 ;;
          f1 <- field fields 1 ;;
          f2 <- field fields 2 ;;
          let r := fst (Atoi (TrimSpace f0)) in
          let g := fst (Atoi (TrimSpace f1)) in
          let b := fst (Atoi (TrimSpace f2)) in
          Done (Some (set_colour s (uint8 r) (uint8 g) (uint8 b)), stars0, next)
        else if Contains line && Nat.eqb (Count line) 1 then
          let fields := Split line in
          f0 <- field fields 0 ;;
          f1 <- field fields 1 ;;
          let x := fst (ParseFloat (TrimSpace f0)) in
          let y := fst (ParseFloat (TrimSpace f1)) in
          if Reqb (px (pos s)) 0 && Reqb (py (pos s)) 0 then
            Done (Some (set_position s (mkPair x y)), stars0, next)
          else Done (Some (set_velocity s (mkPair x y)), stars0, next)
        else
          let val := fst (ParseFloat line) in
          if Reqb (mass (deref s)) 0 then Done (Some (set_mass s val), stars0, next)
          else Done (Some (set_radius s val), stars0, next)
    end.

Fixpoint loadLines (lines : list string) (currStar : option (ptr Star))
    (stars0 : list (ptr Star)) (next : nat)
  : outcome (option (ptr Star) * list (ptr Star) * nat) :=
  match lines with
  | [] => Done (currStar, stars0, next)
  | line :: rest =>
      '(currStar', stars1, next') <- loadLine line currStar stars0 next ;;
      loadLines rest currStar' stars1 next'
  end.

(** The lines kept by the scanning loop: trimmed and not empty. *)
Definition scanned (text : list string) : list string :=
  filter (fun line => negb (String.eqb line EmptyString)) (map TrimSpace text).

(** [file] is what the scanner yields, [None] when [os.Open] fails. *)
Definition LoadJupiterMoons (file : option (list string)) (next : nat)
  : outcome (Universe * nat) :=
  match file with
  | None => Panic  (* [Check(err)] *)
  | Some text =>
      let lines := scanned text in
      match lines with
      | [] => Panic  (* [lines[0]] *)
      | first :: _ =>
          let '(width0, err) := ParseFloat first in
          if err then Panic  (* [Check(err)] *)
          else
            '(currStar, stars0, next') <- loadLines (skipn 2 lines) None [] next ;;
            Done (mkUniverse width0 (appendCurrent stars0 currStar), next')
      end
  end.
End LoadJupiterMoons_library.

(** ** Galaxies *)

(** GalaxyPush writes the velocities of the stars of two galaxies through
    their pointers, and nothing keeps a star from occurring twice in a
    galaxy or in both.  For these two functions the stars live in a
    store, from addresses to star values, and a galaxy is the list of the
    addresses of its stars, in the order of the slice. *)
Definition Store : Type := nat -> Star.

(** Modelled from the spec: the type [Galaxy] is declared outside the
    source files at hand; GalaxyPush and GalaxyCenter range over it as a
    slice of pointers to stars, none of them [nil]. *)
Definition Galaxy : Type := list nat.

(** The [for _, s := range g] loop of GalaxyCenter on the running sums
    [c_x] and [c_y]. *)
Fixpoint GalaxyCenter_loop (h : Store) (g : Galaxy) (c_x c_y : R) : R * R :=
  match g with
  | [] => (c_x, c_y)
  | s :: g' =>
      GalaxyCenter_loop h g' (c_x + px (position (h s))) (c_y + py (position (h s)))
  end.

Definition GalaxyCenter (h : Store) (g : Galaxy) : outcome OrderedPair :=
  let '(c_x, c_y) := GalaxyCenter_loop h g 0 0 in
  let n := INR (length g) in
  x <- fdiv c_x n ;;
  y <- fdiv c_y n ;;
  Done (mkPair x y).

(** [s.velocity.x += v * dir.x; s.velocity.y += v * dir.y] on the star at
    address [s]. *)
Definition pushStar (h : Store) (s : nat) (v : R) (dir : OrderedPair) : Store :=
  fun a =>
    if Nat.eqb a s then
      mkStar (position (h s))
        (mkPair (px (velocity (h s)) + v * px dir) (py (velocity (h s)) + v * py dir))
        (acceleration (h s)) (mass (h s)) (radius (h s))
        (red (h s)) (green (h s)) (blue (h s))
    else h a.

Fixpoint pushAll (h : Store) (g : Galaxy) (v : R) (dir : OrderedPair) : Store :=
  match g with
  | [] => h
  | s :: g' => pushAll (pushStar h s v dir) g' v dir
  end.

Definition GalaxyPush (h : Store) (g0 g1 : Galaxy) (v : R) : outcome Store :=
  center_0 <- GalaxyCenter h g0 ;;
  center_1 <- GalaxyCenter h g1 ;;
  let d_x := px center_1 - px center_0 in
  let d_y := py center_1 - py center_0 in
  let distance := sqrt (d_x * d_x + d_y * d_y) in
  let '(d_x, d_y, distance) :=
    if Reqb distance 0 then (1e-3, 0, 1e-3) else (d_x, d_y, distance) in
  x0 <- fdiv d_x distance ;;
  y0 <- fdiv d_y distance ;;
  x1 <- fdiv (- d_x) distance ;;
  y1 <- fdiv (- d_y) distance ;;
  let dir_0 := mkPair x0 y0 in
  let dir_1 := mkPair x1 y1 in
  Done (pushAll (pushAll h g0 v dir_0) g1 v dir_1).

(** ** Vocabulary of the specification *)

Definition padd (p q : OrderedPair) : OrderedPair :=
  mkPair (px p + px q) (py p + py q).

Definition pairSum (l : list OrderedPair) : OrderedPair :=
  fold_right padd zeroPair l.

(** The closed square of a quadrant. *)
Definition inside (q : Quadrant) (s : ptr Star) : Prop :=
  qx q <= px (pos s) <= qx q + qwidth q /\ qy q <= py (pos s) <= qy q + qwidth q.

(** The four quadrants NW, NE, SW, SE of a square, by index. *)
Definition quadrantOf (q : Quadrant) (i : nat) : Quadrant :=
  let half := qwidth q / 2 in
  match i with
  | 0%nat => mkQuadrant (qx q) (qy q + half) half
  | 1%nat => mkQuadrant (qx q + half) (qy q + half) half
  | 2%nat => mkQuadrant (qx q) (qy q) half
  | _ => mkQuadrant (qx q + half) (qy q) half
  end.

(** The real bodies beneath a node: the stars of the nodes without
    children, left to right. *)
Fixpoint bodies (n : Node) : list (ptr Star) :=
  match n with
  | mkNode _ st cs =>
      match cs with
      | [] => match st with Some s => [s] | None => [] end
      | _ :: _ =>
          flat_map (fun oc => match oc with Some c => bodies c | None => [] end) cs
      end
  end.

Definition massSum (l : list (ptr Star)) : R :=
  fold_right (fun s acc => mass (deref s) + acc) 0 l.

Definition momentX (l : list (ptr Star)) : R :=
  fold_right (fun s acc => mass (deref s) * px (pos s) + acc) 0 l.

Definition momentY (l : list (ptr Star)) : R :=
  fold_right (fun s acc => mass (deref s) * py (pos s) + acc) 0 l.

(** [m] is [n] or a node beneath it. *)
Inductive subnode (m : Node) : Node -> Prop :=
| subnode_refl : subnode m m
| subnode_child n c : In (Some c) (children n) -> subnode m c -> subnode m n.

(** The trees that a sequence of InsertStar calls builds from an empty
    root: a node is empty, or holds one body of its closed square, or has
    the four quadrants of Subdivide as children, no star of its own and
    at least one body beneath it. *)
Inductive built : Node -> Prop :=
| built_empty q : built (mkNode q None [])
| built_leaf q s : inside q s -> built (mkNode q (Some s) [])
| built_internal q cs :
    length cs = 4%nat ->
    (forall i c, nth_error cs i = Some c -> sector c = quadrantOf q i) ->
    (forall i c, nth_error cs i = Some c -> built c) ->
    flat_map bodies cs <> [] ->
    built (mkNode q None (map Some cs)).

(** The trees after ComputeCenterAndMass: every node with children holds
    an aggregate star whose mass is the sum of the masses of the bodies
    beneath it and whose position is their centre of mass. *)
Inductive aggregated : Node -> Prop :=
| aggregated_leaf q st : aggregated (mkNode q st [])
| aggregated_internal q a cs :
    cs <> [] ->
    (forall c, In c cs -> aggregated c) ->
    mass (deref a) = massSum (flat_map bodies cs) ->
    0 < mass (deref a) ->
    px (pos a) = momentX (flat_map bodies cs) / massSum (flat_map bodies cs) ->
    py (pos a) = momentY (flat_map bodies cs) / massSum (flat_map bodies cs) ->
    aggregated (mkNode q (Some a) (map Some cs)).

(** Newton's attraction exerted by [b] on [target], as a real vector:
    magnitude [G * m1 * m2 / d^2] along the unit vector from [target] to
    [b], and zero when the two positions coincide. *)
Definition newton (b target : ptr Star) : OrderedPair :=
  let dX := px (pos b) - px (pos target) in
  let dY := py (pos b) - py (pos target) in
  let d := sqrt (dX * dX + dY * dY) in
  if Reqb d 0 then zeroPair
  else
    let F := G * mass (deref b) * mass (deref target) / (d * d) in
    mkPair (F * (dX / d)) (F * (dY / d)).

(** The exact pairwise sum of the specification: the forces of ComputeForce
    exerted on [target] by every other body, added up directly. *)
Fixpoint DirectNetForce (others : list (ptr Star)) (target : ptr Star)
  : outcome OrderedPair :=
  match others with
  | [] => Done zeroPair
  | b :: rest =>
      f <- (if ptr_eqb b target then Done zeroPair else ComputeForce b target) ;;
      r <- DirectNetForce rest target ;;
      Done (padd f r)
  end.

(** What the specification's opening-angle rule asks of an internal node:
    when [width / d < theta] the force of the aggregate body alone. *)
Definition aggregateForce (node : Node) (target : ptr Star) : outcome OrderedPair :=
  match star node with
  | Some a => ComputeForce a target
  | None => Done zeroPair
  end.

(** The two blocks of CalculateNetForce that do arithmetic, named for the
    proofs: the direct force of a leaf star [nstar] on [currStar], and the
    opening-angle test of a node of width [s]. *)
Definition leafForce (nstar currStar : ptr Star) : outcome OrderedPair :=
  let force := zeroPair in
  let '(dX, dY, d) := Distance (pos nstar) (pos currStar) in
  if negb (Reqb d 0) then
    f <- fdiv (G * mass (deref currStar) * mass (deref nstar)) (d * d) ;;
    uX <- fdiv dX d ;;
    uY <- fdiv dY d ;;
    let fX := f * uX in
    let fY := f * uY in
    Done (mkPair (px force + fX) (py force + fY))
  else Done force.

Definition openingTest (nstar currStar : ptr Star) (s theta : R)
  : outcome OrderedPair :=
  let force := zeroPair in
  if negb (ptr_eqb nstar currStar) then
    let '(_, _, d) := Distance (pos nstar) (pos currStar) in
    if negb (Reqb d 0) then
      ratio <- fdiv s d ;;
      if Rltb ratio theta then Done (mkPair (px force + 0) (py force + 0))
      else Done force
    else Done force
  else Done force.

(** [children[idx] = c] on a list of children. *)
Definition setNth (idx : nat) (c : Node) (cs : list Node) : list Node :=
  firstn idx cs ++ c :: skipn (S idx) cs.

(** The four empty children that Subdivide creates. *)
Definition emptyQuads (q : Quadrant) : list Node :=
  [ mkNode (quadrantOf q 0) None []; mkNode (quadrantOf q 1) None [];
    mkNode (quadrantOf q 2) None []; mkNode (quadrantOf q 3) None [] ].

(** What a child hands to the accumulators of ComputeCenterAndMass. *)
Definition nodeMass (c : Node) : R :=
  match star c with Some st => mass (deref st) | None => 0 end.

Definition nodeMomentX (c : Node) : R :=
  match star c with Some st => mass (deref st) * px (pos st) | None => 0 end.

Definition nodeMomentY (c : Node) : R :=
  match star c with Some st => mass (deref st) * py (pos st) | None => 0 end.

Definition sumOver (f : Node -> R) (cs : list Node) : R :=
  fold_right (fun c acc => f c + acc) 0 cs.

(** The force that body [b] exerts on [target]: none on itself. *)
Definition pairForce (target b : ptr Star) : OrderedPair :=
  if ptr_eqb b target then zeroPair else newton b target.

(** The larger of the two coordinate distances between two stars. *)
Definition sep (a b : ptr Star) : R :=
  Rmax (Rabs (px (pos a) - px (pos b))) (Rabs (py (pos a) - py (pos b))).

(** The bodies of a universe that GenerateQuadTree inserts. *)
Definition inDomain (u : Universe) : list (ptr Star) :=
  filter (fun s => IsInsideUniverse s (width u)) (stars u).

(** [n'] is [n] with the body [s] added. *)
Definition inserted (n : Node) (s : ptr Star) (n' : Node) : Prop :=
  built n' /\ sector n' = sector n /\ Permutation (bodies n') (s :: bodies n).

(** With recursion depth [f], InsertStar into a built tree either runs out
    of depth or returns the tree with the body added. *)
Definition insertsInto (f : nat) : Prop :=
  forall n s, built n -> inside (sector n) s ->
    InsertStar f n s = OutOfFuel \/
    exists n', InsertStar f n s = Done n' /\ inserted n s n'.

(** [n'] is [n] after ComputeCenterAndMass: the same bodies in the same
    square and, when all bodies have positive mass, aggregates throughout;
    what the node hands to its parent is then the mass and the moments of
    its bodies. *)
Definition aggregates (n n' : Node) : Prop :=
  bodies n' = bodies n /\ sector n' = sector n /\
  ((forall b, In b (bodies n) -> 0 < mass (deref b)) ->
   aggregated n' /\
   nodeMass n' = massSum (bodies n) /\
   nodeMomentX n' = momentX (bodies n) /\
   nodeMomentY n' = momentY (bodies n)).

(** ** Further vocabulary *)

(** The point [p] lies in the closed square of [q]. *)
Definition covers (q : Quadrant) (p : OrderedPair) : Prop :=
  qx q <= px p <= qx q + qwidth q /\ qy q <= py p <= qy q + qwidth q.

(** The point [p] lies in the square of [q] without its upper and right
    edge. *)
Definition holds (q : Quadrant) (p : OrderedPair) : Prop :=
  qx q <= px p < qx q + qwidth q /\ qy q <= py p < qy q + qwidth q.

(** Some node of the tree has a [nil] entry among its children. *)
Fixpoint hasNilChild (n : Node) : bool :=
  match n with
  | mkNode _ _ cs =>
      existsb (fun oc => match oc with Some c => hasNilChild c | None => true end) cs
  end.

(** The shape of the trees that GenerateQuadTree returns: a node without
    children is empty or holds a body of its closed square, and a node
    with children has the four quadrants of its square, in the order of
    Subdivide. *)
Inductive shaped : Node -> Prop :=
| shaped_empty q : shaped (mkNode q None [])
| shaped_leaf q s : inside q s -> shaped (mkNode q (Some s) [])
| shaped_internal q st cs :
    length cs = 4%nat ->
    (forall i c, nth_error cs i = Some c -> sector c = quadrantOf q i) ->
    (forall i c, nth_error cs i = Some c -> shaped c) ->
    shaped (mkNode q st (map Some cs)).

(** [u'] holds the bodies of [u]: the same width and, star by star, the
    same mass, radius and colour. *)
Definition sameBodies (u u' : Universe) : Prop :=
  width u' = width u /\
  Forall2 (fun s s' =>
             mass (deref s') = mass (deref s) /\
             radius (deref s') = radius (deref s) /\
             red (deref s') = red (deref s) /\
             green (deref s') = green (deref s) /\
             blue (deref s') = blue (deref s))
    (stars u) (stars u').

(** The stars of the universes of [l] sit in consecutive blocks of [len]
    addresses each, in the order of [l], between [lo] and [hi]. *)
Fixpoint blocks (len lo : nat) (l : list Universe) (hi : nat) : Prop :=
  match l with
  | [] => (lo <= hi)%nat
  | u :: l' =>
      exists a, (lo <= a)%nat /\ map (@addr Star) (stars u) = seq a len /\
                blocks len (a + len) l' hi
  end.

Definition Rsum (l : list R) : R := fold_right Rplus 0 l.

(** Mass times acceleration of a star. *)
Definition massAcceleration (s : ptr Star) : OrderedPair :=
  mkPair (mass (deref s) * px (acceleration (deref s)))
         (mass (deref s) * py (acceleration (deref s))).

(** The stars of [l] that FindQuadrant sends to child [i] of a node over
    the square [q]. *)
Definition quadrantStars (q : Quadrant) (i : nat) (l : list (ptr Star))
  : list (ptr Star) :=
  filter (fun s => Nat.eqb (FindQuadrant q s) i) l.

(** The tree over the square [q] that a list of stars determines: empty
    for no star, a leaf for one, and for more the four trees of the stars
    that FindQuadrant sends to each quadrant. *)
Inductive treeOf : Quadrant -> list (ptr Star) -> Node -> Prop :=
| treeOf_empty q : treeOf q [] (mkNode q None [])
| treeOf_leaf q s : treeOf q [s] (mkNode q (Some s) [])
| treeOf_internal q l cs :
    (2 <= length l)%nat ->
    length cs = 4%nat ->
    (forall i c, nth_error cs i = Some c ->
                 treeOf (quadrantOf q i) (quadrantStars q i l) c) ->
    treeOf q l (mkNode q None (map Some cs)).

(** Mass times velocity of a star. *)
Definition momentumOf (s : ptr Star) : OrderedPair :=
  mkPair (mass (deref s) * px (velocity (deref s)))
         (mass (deref s) * py (velocity (deref s))).

(** The values that the six lines of a block of the file carry: the
    colour, the two coordinate pairs and the two scalars, in the order of
    the file. *)
Record Moon : Type := mkMoon {
  colour : N * N * N;
  firstPair : OrderedPair;
  secondPair : OrderedPair;
  firstScalar : R;
  secondScalar : R
}.

(** The star that LoadJupiterMoons makes of a block.  The first pair is
    the position and the second the velocity, unless the first pair is
    the origin; the first scalar is the mass and the second the radius,
    unless the first scalar is zero. *)
Definition starOf (m : Moon) : Star :=
  let atOrigin := Reqb (px (firstPair m)) 0 && Reqb (py (firstPair m)) 0 in
  let massless := Reqb (firstScalar m) 0 in
  mkStar (if atOrigin then secondPair m else firstPair m)
         (if atOrigin then zeroPair else secondPair m)
         zeroPair
         (if massless then secondScalar m else firstScalar m)
         (if massless then 0 else secondScalar m)
         (fst (fst (colour m))) (snd (fst (colour m))) (snd (colour m)).

(** The stars of a list of blocks, at consecutive addresses. *)
Fixpoint allocate (next : nat) (ms : list Moon) : list (ptr Star) :=
  match ms with
  | [] => []
  | m :: ms' => mkPtr next (starOf m) :: allocate (S next) ms'
  end.

Section LoadJupiterMoons_format.
Variable TrimSpace : string -> string.
Variable ParseFloat : string -> R * bool.
Variable Atoi : string -> Z * bool.

(** The six lines [ls] are a block in the format of the file, a header
    line starting with [>], a line of three numbers, two lines of two
    numbers and two lines of one number, and carry the values [m]. *)
Definition reads (ls : list string) (m : Moon) : Prop :=
  exists hl cl pl vl ml rl c0 c1 c2 p0 p1 v0 v1,
    ls = [hl; cl; pl; vl; ml; rl] /\
    HasPrefix hl = true /\ HasPrefix cl = false /\ HasPrefix pl = false /\
    HasPrefix vl = false /\ HasPrefix ml = false /\ HasPrefix rl = false /\
    Split cl = [c0; c1; c2] /\ Split pl = [p0; p1] /\ Split vl = [v0; v1] /\
    Count ml = 0%nat /\ Count rl = 0%nat /\
    m = mkMoon (uint8 (fst (Atoi (TrimSpace c0))), uint8 (fst (Atoi (TrimSpace c1))),
                uint8 (fst (Atoi (TrimSpace c2))))
          (mkPair (fst (ParseFloat (TrimSpace p0))) (fst (ParseFloat (TrimSpace p1))))
          (mkPair (fst (ParseFloat (TrimSpace v0))) (fst (ParseFloat (TrimSpace v1))))
          (fst (ParseFloat ml)) (fst (ParseFloat rl)).
End LoadJupiterMoons_format.


(** ** The embedding in binary64 arithmetic *)

(** The functions that build and traverse the tree, once more, with
    [float64] as IEEE 754 binary64: every operation rounds to nearest
    even on its own (no fused multiply-add), comparisons with NaN are
    false, and a division never aborts.  The structure is that of the
    definitions above, line by line. *)
Module F64.
#[local] Open Scope float_scope.

Record OrderedPair : Type := mkPair { px : float; py : float }.

Record Star : Type := mkStar {
  position : OrderedPair;
  velocity : OrderedPair;
  acceleration : OrderedPair;
  mass : float;
  radius : float;
  red : N;
  green : N;
  blue : N
}.

Record Universe : Type := mkUniverse { width : float; stars : list (ptr Star) }.

Record Quadrant : Type := mkQuadrant { qx : float; qy : float; qwidth : float }.

#[local] Unset Elimination Schemes.
Inductive Node : Type :=
| mkNode (sector : Quadrant) (star : option (ptr Star)) (children : list (option Node)).

#[local] Set Elimination Schemes.

Definition sector (n : Node) : Quadrant := let 'mkNode q _ _ := n in q.
Definition star (n : Node) : option (ptr Star) := let 'mkNode _ s _ := n in s.
Definition children (n : Node) : list (option Node) := let 'mkNode _ _ c := n in c.

Record QuadTree : Type := mkQuadTree { root : option Node }.

(** Modelled from the spec: the gravitational constant [G], declared
    outside the source files at hand; the binary64 number nearest to
    Newton's constant in SI units, 6.67408e-11. *)
Definition G : float := 0x1.258775e37fa03p-34.

Definition zeroPair : OrderedPair := mkPair 0 0.

Definition aggregateStar (p : OrderedPair) (m : float) : Star :=
  mkStar p zeroPair zeroPair m 0 0%N 0%N 0%N.

Definition pos (s : ptr Star) : OrderedPair := position (deref s).

Definition Distance (p1 p2 : OrderedPair) : float * float * float :=
  let deltaX := px p1 - px p2 in
  let deltaY := py p1 - py p2 in
  (deltaX, deltaY, PrimFloat.sqrt (deltaX * deltaX + deltaY * deltaY)).

Definition IsInsideUniverse (s : ptr Star) (width : float) : bool :=
  (0 <=? px (pos s)) && (px (pos s) <=? width)
  && (0 <=? py (pos s)) && (py (pos s) <=? width).

Definition Subdivide (node : Node) : Node :=
  let half := qwidth (sector node) / 2 in
  let x := qx (sector node) in
  let y := qy (sector node) in
  mkNode (sector node) (star node)
    [ Some (mkNode (mkQuadrant x (y + half) half) None []);
      Some (mkNode (mkQuadrant (x + half) (y + half) half) None []);
      Some (mkNode (mkQuadrant x y half) None []);
      Some (mkNode (mkQuadrant (x + half) y half) None []) ].

Definition FindQuadrant (sector : Quadrant) (s : ptr Star) : nat :=
  let midX := qx sector + qwidth sector / 2 in
  let midY := qy sector + qwidth sector / 2 in
  let sX := px (pos s) in
  let sY := py (pos s) in
  if (sX <? midX) && (midY <=? sY) then 0%nat
  else if (midX <=? sX) && (midY <=? sY) then 1%nat
  else if (sX <? midX) && (sY <? midY) then 2%nat
  else 3%nat.

Definition onChild (f : Node -> outcome Node) (node : Node) (idx : nat)
  : outcome Node :=
  match nth_error (children node) idx with
  | None => Panic
  | Some None => Panic
  | Some (Some child) =>
      child' <- f child ;;
      Done (mkNode (sector node) (star node)
              (firstn idx (children node) ++ Some child'
                 :: skipn (S idx) (children node)))
  end.

Fixpoint InsertStar (fuel : nat) (node : Node) (s : ptr Star) {struct fuel}
  : outcome Node :=
  match fuel with
  | O => OutOfFuel
  | S fuel' =>
      match star node, children node with
      | None, [] =>
          Done (mkNode (sector node) (Some s) (children node))
      | Some old_star, [] =>
          let node1 := Subdivide node in
          let node2 := mkNode (sector node1) None (children node1) in
          node3 <- onChild (fun c => InsertStar fuel' c old_star) node2
                     (FindQuadrant (sector node2) old_star) ;;
          onChild (fun c => InsertStar fuel' c s) node3
            (FindQuadrant (sector node3) s)
      | _, _ :: _ =>
          let idx := FindQuadrant (sector node) s in
          onChild (fun c => InsertStar fuel' c s) node idx
      end
  end.

Section ComputeCenterAndMass_loop.
Variable rec : Node -> nat -> outcome (Node * nat).

Fixpoint ComputeCenterAndMass_children (cs : list (option Node))
    (totalMass xCm yCm : float) (next : nat) {struct cs}
  : outcome (list (option Node) * float * float * float * nat) :=
  match cs with
  | [] => Done ([], totalMass, xCm, yCm, next)
  | None :: _ => Panic
  | Some child :: cs' =>
      '(child', next') <- rec child next ;;
      let '(totalMass', xCm', yCm') :=
        match star child' with
        | Some st =>
            let m := mass (deref st) in
            (totalMass + m, xCm + m * px (pos st), yCm + m * py (pos st))
        | None => (totalMass, xCm, yCm)
        end in
      '(cs'', totalMass'', xCm'', yCm'', next'') <-
        ComputeCenterAndMass_children cs' totalMass' xCm' yCm' next' ;;
      Done (Some child' :: cs'', totalMass'', xCm'', yCm'', next'')
  end.
End ComputeCenterAndMass_loop.

Fixpoint ComputeCenterAndMass (node : Node) (next : nat) {struct node}
  : outcome (Node * nat) :=
  match node with
  | mkNode sector0 star0 children0 =>
      match children0 with
      | [] => Done (node, next)
      | _ :: _ =>
          '(children1, totalMass, xCm, yCm, next1) <-
            ComputeCenterAndMass_children ComputeCenterAndMass children0 0 0 0 next ;;
          if 0 <? totalMass then
            Done (mkNode sector0
                    (Some (mkPtr next1
                             (aggregateStar (mkPair (xCm / totalMass) (yCm / totalMass))
                                totalMass)))
                    children1,
                  S next1)
          else Done (mkNode sector0 star0 children1, next1)
      end
  end.

Fixpoint insertAll (fuel : nat) (width : float) (ss : list (ptr Star)) (root : Node)
  : outcome Node :=
  match ss with
  | [] => Done root
  | s :: ss' =>
      if IsInsideUniverse s width then
        root' <- InsertStar fuel root s ;;
        insertAll fuel width ss' root'
      else insertAll fuel width ss' root
  end.

Definition GenerateQuadTree (fuel : nat) (currentUniverse : Universe) (next : nat)
  : outcome (QuadTree * nat) :=
  let root := mkNode (mkQuadrant 0 0 (width currentUniverse)) None [] in
  root1 <- insertAll fuel (width currentUniverse) (stars currentUniverse) root ;;
  '(root2, next') <- ComputeCenterAndMass root1 next ;;
  Done (mkQuadTree (Some root2), next').

Definition IsLeaf (node : Node) : bool :=
  forallb (fun child => match child with Some _ => false | None => true end)
    (children node).

Section CalculateNetForce_loop.
Variable rec : Node -> OrderedPair.

Fixpoint CalculateNetForce_children (cs : list (option Node)) (force : OrderedPair)
    {struct cs} : OrderedPair :=
  match cs with
  | [] => force
  | None :: cs' => CalculateNetForce_children cs' force
  | Some child :: cs' =>
      let f := rec child in
      CalculateNetForce_children cs' (mkPair (px force + px f) (py force + py f))
  end.
End CalculateNetForce_loop.

Fixpoint CalculateNetForce_node (node : Node) (currStar : ptr Star) (theta : float)
    {struct node} : OrderedPair :=
  match node with
  | mkNode sector0 star0 children0 =>
      let force := zeroPair in
      match star0 with
      | None => force
      | Some nstar =>
          if mass (deref nstar) =? 0 then force
          else if IsLeaf node && negb (ptr_eqb nstar currStar) then
            let '(dX, dY, d) := Distance (pos nstar) (pos currStar) in
            if negb (d =? 0) then
              let f := G * mass (deref currStar) * mass (deref nstar) / (d * d) in
              let fX := f * (dX / d) in
              let fY := f * (dY / d) in
              mkPair (px force + fX) (py force + fY)
            else force
          else
            let force1 :=
              if negb (ptr_eqb nstar currStar) then
                let '(_, _, d) := Distance (pos nstar) (pos currStar) in
                if negb (d =? 0) then
                  let s := qwidth sector0 in
                  if s / d <? theta then mkPair (px force + 0) (py force + 0)
                  else force
                else force
              else force in
            CalculateNetForce_children
              (fun child => CalculateNetForce_node child currStar theta)
              children0 force1
      end
  end.

Definition CalculateNetForce (node : option Node) (currStar : ptr Star) (theta : float)
  : OrderedPair :=
  match node with
  | None => zeroPair
  | Some n => CalculateNetForce_node n currStar theta
  end.

Definition ComputeForce (b b2 : ptr Star) : OrderedPair :=
  let '(dX, dY, d) := Distance (pos b) (pos b2) in
  if d =? 0 then zeroPair
  else
    let F := (G * mass (deref b) * mass (deref b2)) / (d * d) in
    mkPair (F * dX / d) (F * dY / d).

(** Modelled from the spec: the direct computation of the specification,
    which no function of the source files performs: the forces of
    ComputeForce exerted on [target] by every other body, added to the
    running [force] in the order of the list. *)
Fixpoint DirectNetForce (others : list (ptr Star)) (target : ptr Star)
    (force : OrderedPair) {struct others} : OrderedPair :=
  match others with
  | [] => force
  | b :: rest =>
      if ptr_eqb b target then DirectNetForce rest target force
      else
        let f := ComputeForce b target in
        DirectNetForce rest target (mkPair (px force + px f) (py force + py f))
  end.

(** ** Vocabulary for the binary64 embedding *)

(** The four quadrants of Subdivide, by index, with the rounding of the
    code: [x + half] and [y + half] are binary64 sums. *)
Definition quadrantOf (q : Quadrant) (i : nat) : Quadrant :=
  let half := (qwidth q / 2)%float in
  match i with
  | 0%nat => mkQuadrant (qx q) (qy q + half)%float half
  | 1%nat => mkQuadrant (qx q + half)%float (qy q + half)%float half
  | 2%nat => mkQuadrant (qx q) (qy q) half
  | _ => mkQuadrant (qx q + half)%float (qy q) half
  end.

(** The square that the star [s] reaches after [k] subdivisions of [q],
    each time in the child that FindQuadrant gives it. *)
Fixpoint sectorAt (q : Quadrant) (s : ptr Star) (k : nat) : Quadrant :=
  match k with
  | O => q
  | S k' => sectorAt (quadrantOf q (FindQuadrant q s)) s k'
  end.

(** FindQuadrant sends [a] and [b] to the same child on each of the first
    [k] levels beneath [q]. *)
Fixpoint sameQuadrants (k : nat) (q : Quadrant) (a b : ptr Star) : bool :=
  match k with
  | O => true
  | S k' =>
      Nat.eqb (FindQuadrant q a) (FindQuadrant q b)
      && sameQuadrants k' (quadrantOf q (FindQuadrant q a)) a b
  end.

Definition setNth (idx : nat) (c : Node) (cs : list Node) : list Node :=
  firstn idx cs ++ c :: skipn (S idx) cs.

Definition emptyQuads (q : Quadrant) : list Node :=
  [ mkNode (quadrantOf q 0) None []; mkNode (quadrantOf q 1) None [];
    mkNode (quadrantOf q 2) None []; mkNode (quadrantOf q 3) None [] ].

(** The stars of [l] that FindQuadrant sends to child [i] of a node over
    the square [q]. *)
Definition quadrantStars (q : Quadrant) (i : nat) (l : list (ptr Star))
  : list (ptr Star) :=
  filter (fun s => Nat.eqb (FindQuadrant q s) i) l.

(** The tree over the square [q] that a list of stars determines. *)
Inductive treeOf : Quadrant -> list (ptr Star) -> Node -> Prop :=
| treeOf_empty q : treeOf q [] (mkNode q None [])
| treeOf_leaf q s : treeOf q [s] (mkNode q (Some s) [])
| treeOf_internal q l cs :
    (2 <= length l)%nat ->
    length cs = 4%nat ->
    (forall i c, nth_error cs i = Some c ->
                 treeOf (quadrantOf q i) (quadrantStars q i l) c) ->
    treeOf q l (mkNode q None (map Some cs)).

(** Some level of the subdivision of [q] separates [a] and [b]:
    FindQuadrant sends them to different children. *)
Definition separated (q : Quadrant) (a b : ptr Star) : Prop :=
  exists k, FindQuadrant (sectorAt q a k) a <> FindQuadrant (sectorAt q a k) b.

Definition body (a : nat) (x y m : float) : ptr Star :=
  mkPtr a (mkStar (mkPair x y) zeroPair zeroPair m 0 0%N 0%N 0%N).

(** The real number that a binary64 value denotes: [m * 2^e] for a finite
    value with mantissa [m] and exponent [e], as the quotient of two
    integers; 0 for an infinity or NaN. *)
Definition numerator (f : float) : Z :=
  match Prim2SF f with
  | S754_finite s m e =>
      ((if s then Z.neg m else Z.pos m) * (if 0 <=? e then 2 ^ e else 1))%Z
  | _ => 0%Z
  end.

Definition denominator (f : float) : Z :=
  match Prim2SF f with
  | S754_finite _ _ e => (if 0 <=? e then 1 else 2 ^ (- e))%Z
  | _ => 1%Z
  end.

Definition toR (f : float) : R := IZR (numerator f) / IZR (denominator f).

Fixpoint bodies (n : Node) : list (ptr Star) :=
  match n with
  | mkNode _ st cs =>
      match cs with
      | [] => match st with Some s => [s] | None => [] end
      | _ :: _ =>
          flat_map (fun oc => match oc with Some c => bodies c | None => [] end) cs
      end
  end.

Inductive subnode (m : Node) : Node -> Prop :=
| subnode_refl : subnode m m
| subnode_child n c : In (Some c) (children n) -> subnode m c -> subnode m n.

(** One turn of the loop of ComputeCenterAndMass on the accumulators
    [totalMass], [xCm], [yCm], for a child after its own call. *)
Definition accumulate (acc : float * float * float) (child : option Node)
  : float * float * float :=
  let '(totalMass, xCm, yCm) := acc in
  match child with
  | Some c =>
      match star c with
      | Some st =>
          let m := mass (deref st) in
          (totalMass + m, xCm + m * px (pos st), yCm + m * py (pos st))%float
      | None => acc
      end
  | None => acc
  end.

(** The accumulators after the loop over the children [cs]. *)
Definition childSums (cs : list (option Node)) : float * float * float :=
  fold_left accumulate cs (0, 0, 0)%float.

End F64.

(** A binary64 pair and a binary64 star read over the reals, value by
    value. *)
Definition realPair (p : F64.OrderedPair) : OrderedPair :=
  mkPair (F64.toR (F64.px p)) (F64.toR (F64.py p)).

Definition realStar (s : ptr F64.Star) : ptr Star :=
  let v := deref s in
  mkPtr (addr s)
    (mkStar (realPair (F64.position v)) (realPair (F64.velocity v))
       (realPair (F64.acceleration v)) (F64.toR (F64.mass v)) (F64.toR (F64.radius v))
       (F64.red v) (F64.green v) (F64.blue v)).

(** The vector [f] lies within the relative error [tol] of [d]: their
    distance is at most [tol] times the length of [d].  Both sides are
    squared, which spares the roots; the componentwise reading implies
    this one. *)
Definition relativeWithin (tol : R) (f d : OrderedPair) : Prop :=
  (px f - px d) * (px f - px d) + (py f - py d) * (py f - py d)
  <= tol * tol * (px d * px d + py d * py d).

(** The two readings of the direct sum of C6 for a binary64 universe: the
    exact sum over the reals of Newton's forces of all other bodies, and
    the binary64 sum of the forces of ComputeForce. *)
Definition newtonSum (u : F64.Universe) (target : ptr F64.Star) : OrderedPair :=
  pairSum (map (pairForce (realStar target)) (map realStar (F64.stars u))).

Definition directSum (u : F64.Universe) (target : ptr F64.Star) : OrderedPair :=
  realPair (F64.DirectNetForce (F64.stars u) target F64.zeroPair).

(** ** The claims that the code does not meet, as they are stated *)


(** C4 as stated: from rest, one step gives the velocity [0.5 * a * time]
    and moves the star by [0.5 * a * time^2], [a] being the newly computed
    acceleration. *)
Definition fromRestClaim (b : ptr Star) (time : R) (tree : QuadTree) (theta : R)
  : Prop :=
  velocity (deref b) = zeroPair ->
  acceleration (deref b) = zeroPair ->
  forall a b',
    UpdateAcceleration b tree theta = Done a ->
    a <> zeroPair ->
    updateStar b time tree theta = Done b' ->
    velocity (deref b') = mkPair (0.5 * px a * time) (0.5 * py a * time) /\
    pos b' = mkPair (px (pos b) + 0.5 * px a * time * time)
                    (py (pos b) + 0.5 * py a * time * time).

(** C7 as stated, in the part that fails: a body outside the domain
    receives no force in the step, its new acceleration is zero. *)
Definition outsideReceivesNoForce (u : Universe) : Prop :=
  forall fuel next tree next1 time theta u' next2 i s s',
    GenerateQuadTree fuel u next = Done (tree, next1) ->
    UpdateUniverse u time tree theta next1 = Done (u', next2) ->
    nth_error (stars u) i = Some s ->
    IsInsideUniverse s (width u) = false ->
    nth_error (stars u') i = Some s' ->
    acceleration (deref s') = zeroPair.

(** C5 as stated, of the binary64 program: in the tree that
    GenerateQuadTree returns every node with children holds a star whose
    mass is the sum of the masses of the bodies beneath it and whose
    position is their mass-weighted centre, each within the absolute
    tolerance [tol] of the exact value. *)
Definition aggregatesWithin (tol : R) (u : F64.Universe) : Prop :=
  forall fuel next tree next' n m,
    F64.GenerateQuadTree fuel u next = Done (tree, next') ->
    F64.root tree = Some n ->
    F64.subnode m n -> F64.children m <> [] ->
    exists a,
      F64.star m = Some a /\
      Rabs (mass (deref (realStar a)) - massSum (map realStar (F64.bodies m))) <= tol /\
      Rabs (px (pos (realStar a))
            - momentX (map realStar (F64.bodies m))
              / massSum (map realStar (F64.bodies m))) <= tol /\
      Rabs (py (pos (realStar a))
            - momentY (map realStar (F64.bodies m))
              / massSum (map realStar (F64.bodies m))) <= tol.

(** C6 as stated, of the binary64 program: on the tree that
    GenerateQuadTree returns, the net force of CalculateNetForce with
    threshold 0 lies within the relative error [tol] of the direct sum
    [reference]. *)
Definition traversalWithin (tol : R) (u : F64.Universe) (target : ptr F64.Star)
    (reference : OrderedPair) : Prop :=
  forall fuel next tree next',
    F64.GenerateQuadTree fuel u next = Done (tree, next') ->
    relativeWithin tol
      (realPair (F64.CalculateNetForce (F64.root tree) target 0)) reference.

(** C9 as stated, of the binary64 program, in the part that fails: the
    insertions of bodies of the domain at pairwise distinct positions
    terminate. *)
Definition insertionsTerminate (w : float) (ss : list (ptr F64.Star)) : Prop :=
  (forall s, In s ss -> F64.IsInsideUniverse s w = true) ->
  NoDup (map F64.pos ss) ->
  exists fuel root',
    F64.insertAll fuel w ss (F64.mkNode (F64.mkQuadrant 0 0 w) None []) = Done root'.

(** ** Example inputs *)

(** A star at rest at address [a], at [(x, y)], of mass [m]. *)
Definition body (a : nat) (x y m : R) : ptr Star :=
  mkPtr a (mkStar (mkPair x y) zeroPair zeroPair m 0 0%N 0%N 0%N).

(** Two bodies close together in the south-west and a third one far to
    the east, in a domain of width 8. *)
Definition clusterUniverse : Universe :=
  mkUniverse 8 [body 0 1 1 1; body 1 3 1 1; body 2 7 1 1].

(** The node of the two close bodies, as GenerateQuadTree builds it. *)
Definition clusterNode : Node :=
  mkNode (mkQuadrant 0 0 4) (Some (mkPtr 3 (aggregateStar (mkPair 2 1) 2)))
    [ Some (mkNode (mkQuadrant 0 2 2) None []);
      Some (mkNode (mkQuadrant 2 2 2) None []);
      Some (mkNode (mkQuadrant 0 0 2) (Some (body 0 1 1 1)) []);
      Some (mkNode (mkQuadrant 2 0 2) (Some (body 1 3 1 1)) []) ].

Definition clusterTree : Node :=
  mkNode (mkQuadrant 0 0 8) (Some (mkPtr 4 (aggregateStar (mkPair (11 / 3) 1) 3)))
    [ Some (mkNode (mkQuadrant 0 4 4) None []);
      Some (mkNode (mkQuadrant 4 4 4) None []);
      Some clusterNode;
      Some (mkNode (mkQuadrant 4 0 4) (Some (body 2 7 1 1)) []) ].

(** One body in a domain of width 4 and one body outside it. *)
Definition outsideUniverse : Universe :=
  mkUniverse 4 [body 0 1 1 1; body 1 5 1 1].

Definition outsideTree : QuadTree :=
  mkQuadTree (Some (mkNode (mkQuadrant 0 0 4) (Some (body 0 1 1 1)) [])).


(** A star at rest at [(3, 1)] next to a tree that holds one body at
    [(1, 1)]. *)
Definition restStar : ptr Star := body 1 3 1 1.

Definition restTree : QuadTree :=
  mkQuadTree (Some (mkNode (mkQuadrant 0 0 4) (Some (body 0 1 1 1)) [])).

(** A file of one block, with stand-ins for the library functions that
    read a string as its length. *)
Definition sampleParseFloat (line : string) : R * bool :=
  (IZR (Z.of_nat (String.length line)), false).

Definition sampleAtoi (line : string) : Z * bool :=
  (Z.of_nat (String.length line), false).

Definition sampleFile : list string :=
  ["w"; "title"; ">Io"; "a,bb,ccc"; "xx,y"; "v,vv"; "mmm"; "rr"]%string.

Definition sampleMoon : Moon :=
  mkMoon (1%N, 2%N, 3%N) (mkPair 2 1) (mkPair 1 2) 3 2.

(** Two bodies of a domain of width 3 whose x coordinates are neighbours
    in binary64: 3 and 2.9999999999999996, that is 3 - 2^-51. *)
Definition edgeStar : ptr F64.Star := F64.body 0 3 1 1.

Definition nearStar : ptr F64.Star := F64.body 1 0x1.7ffffffffffffp+1 1 1.

Definition nearUniverse : F64.Universe := F64.mkUniverse 3 [edgeStar; nearStar].

(** Two bodies in a domain of width 4 that a level of the subdivision
    separates. *)
Definition apartUniverse : F64.Universe :=
  F64.mkUniverse 4 [F64.body 0 1 1 1; F64.body 1 3 3 1].

(** In binary64, 1e30, a mass of the order of a star's. *)
Definition heavy : float := 0x1.93e5939a08ceap+99.

(** A body of mass 1e30 and a body of mass 1 in a domain of width 4, and
    the tree that GenerateQuadTree builds for them. *)
Definition heavyUniverse : F64.Universe :=
  F64.mkUniverse 4 [F64.body 0 1 1 heavy; F64.body 1 3 3 1].

Definition heavyTree : F64.Node :=
  F64.mkNode (F64.mkQuadrant 0 0 4)
    (Some (mkPtr 2 (F64.aggregateStar (F64.mkPair 1 1) heavy)))
    [ Some (F64.mkNode (F64.mkQuadrant 0 2 2) None []);
      Some (F64.mkNode (F64.mkQuadrant 2 2 2) (Some (F64.body 1 3 3 1)) []);
      Some (F64.mkNode (F64.mkQuadrant 0 0 2) (Some (F64.body 0 1 1 heavy)) []);
      Some (F64.mkNode (F64.mkQuadrant 2 0 2) None []) ].

(** A body of mass 5 between two bodies of nearly equal mass, 1 and
    1.00000000001, at the same distance 2.5 to its west and to its east:
    their two forces on it all but cancel. *)
Definition cancelTarget : ptr F64.Star := F64.body 1 3.5 1 5.

Definition cancelUniverse : F64.Universe :=
  F64.mkUniverse 8
    [F64.body 0 1 1 1; cancelTarget; F64.body 2 6 1 0x1.000000000afecp+0].

(** A body of mass 1e30 and a body of mass 1 on the upper edge of a
    domain of width 3. *)
Definition ridgeUniverse : F64.Universe :=
  F64.mkUniverse 3 [F64.body 0 1 3 heavy; F64.body 1 2 3 1].

(** A square of width 2^-52 at (1, 0): half its width is lost when it is
    added to 1. *)
Definition sliver : F64.Quadrant := F64.mkQuadrant 1 0 0x1p-52.

(** In binary64, 1e-200 and 1e200, whose squares underflow to 0 and
    overflow to infinity, and 0.1. *)
Definition tiny : float := 0x1.87e92154ef7acp-665.

Definition huge : float := 0x1.4e718d7d7625ap+664.

Definition tenth : float := 0x1.999999999999ap-4.

(** ** Induction on trees *)

Section Node_induction.
Variable P : Node -> Prop.
Hypothesis step : forall q st cs,
    (forall c, In (Some c) cs -> P c) -> P (mkNode q st cs).

Fixpoint Node_ind' (n : Node) : P n :=
  match n with
  | mkNode q st cs =>
      step q st cs
        ((fix all (l : list (option Node)) : forall c, In (Some c) l -> P c :=
            match l with
            | [] => fun c H => match H with end
            | oc :: l' =>
                fun c H =>
                  match H with
                  | or_introl e =>
                      match oc return oc = Some c -> P c with
                      | Some c0 =>
                          fun e0 => eq_ind c0 P (Node_ind' c0) c
                                      (f_equal (fun o => match o with
                                                         | Some v => v
                                                         | None => c0
                                                         end) e0)
                      | None => fun e0 =>
                          False_ind _ (eq_ind None (fun o => match o with
                                                             | None => True
                                                             | Some _ => False
                                                             end) I _ e0)
                      end e
                  | or_intror H' => all l' c H'
                  end
            end) cs)
  end.
End Node_induction.

Section F64_Node_induction.
Variable P : F64.Node -> Prop.
Hypothesis step : forall q st cs,
    (forall c, In (Some c) cs -> P c) -> P (F64.mkNode q st cs).

Fixpoint F64_Node_ind' (n : F64.Node) : P n :=
  match n with
  | F64.mkNode q st cs =>
      step q st cs
        ((fix all (l : list (option F64.Node)) : forall c, In (Some c) l -> P c :=
            match l with
            | [] => fun c H => match H with end
            | oc :: l' =>
                fun c H =>
                  match H with
                  | or_introl e =>
                      match oc return oc = Some c -> P c with
                      | Some c0 =>
                          fun e0 => eq_ind c0 P (F64_Node_ind' c0) c
                                      (f_equal (fun o => match o with
                                                         | Some v => v
                                                         | None => c0
                                                         end) e0)
                      | None => fun e0 =>
                          False_ind _ (eq_ind None (fun o => match o with
                                                             | None => True
                                                             | Some _ => False
                                                             end) I _ e0)
                      end e
                  | or_intror H' => all l' c H'
                  end
            end) cs)
  end.
End F64_Node_induction.

(** * Properties *)

(** ** Comparisons, division, outcomes *)

Lemma Rltb_true a b : a < b -> Rltb a b = true.
Proof. unfold Rltb. destruct (Rlt_dec a b); tauto. Qed.

Lemma Rltb_false a b : ~ a < b -> Rltb a b = false.
Proof. unfold Rltb. destruct (Rlt_dec a b); tauto. Qed.

Lemma Rgeb_true a b : a >= b -> Rgeb a b = true.
Proof. unfold Rgeb. destruct (Rge_dec a b); tauto. Qed.

Lemma Rgeb_false a b : ~ a >= b -> Rgeb a b = false.
Proof. unfold Rgeb. destruct (Rge_dec a b); tauto. Qed.

Lemma Rleb_true a b : a <= b -> Rleb a b = true.
Proof. unfold Rleb. destruct (Rle_dec a b); tauto. Qed.

Lemma Rleb_false a b : ~ a <= b -> Rleb a b = false.
Proof. unfold Rleb. destruct (Rle_dec a b); tauto. Qed.

Lemma Reqb_true a b : a = b -> Reqb a b = true.
Proof. unfold Reqb. destruct (Req_dec_T a b); tauto. Qed.

Lemma Reqb_false a b : a <> b -> Reqb a b = false.
Proof. unfold Reqb. destruct (Req_dec_T a b); tauto. Qed.

Lemma Rltb_lt a b : Rltb a b = true <-> a < b.
Proof. unfold Rltb. destruct (Rlt_dec a b); split; intros; congruence || tauto. Qed.

Lemma Rgeb_ge a b : Rgeb a b = true <-> a >= b.
Proof. unfold Rgeb. destruct (Rge_dec a b); split; intros; congruence || tauto. Qed.

Lemma Rleb_le a b : Rleb a b = true <-> a <= b.
Proof. unfold Rleb. destruct (Rle_dec a b); split; intros; congruence || tauto. Qed.

Lemma Reqb_eq a b : Reqb a b = true <-> a = b.
Proof. unfold Reqb. destruct (Req_dec_T a b); split; intros; congruence || tauto. Qed.

(** Decide every comparison of the goal whose outcome [lra] can settle. *)
Ltac rdec :=
  repeat match goal with
  | |- context [Rltb ?a ?b] =>
      first [rewrite (@Rltb_true a b) by lra | rewrite (@Rltb_false a b) by lra]
  | |- context [Rgeb ?a ?b] =>
      first [rewrite (@Rgeb_true a b) by lra | rewrite (@Rgeb_false a b) by lra]
  | |- context [Rleb ?a ?b] =>
      first [rewrite (@Rleb_true a b) by lra | rewrite (@Rleb_false a b) by lra]
  | |- context [Reqb ?a ?b] =>
      first [rewrite (@Reqb_true a b) by lra | rewrite (@Reqb_false a b) by lra]
  end.

Lemma fdiv_Done a b : b <> 0 -> fdiv a b = Done (a / b).
Proof. intros H. unfold fdiv. now rewrite Reqb_false. Qed.

Lemma fdiv_zero a : fdiv a 0 = DivByZero.
Proof. unfold fdiv. now rewrite Reqb_true. Qed.

Lemma bind_Done {A B} (m : outcome A) (k : A -> outcome B) b :
  bind m k = Done b -> exists a, m = Done a /\ k a = Done b.
Proof. destruct m; simpl; intros H; try discriminate. eauto. Qed.

Lemma G_pos : 0 < G.
Proof. unfold G. lra. Qed.


(** ** The force traversal *)

Lemma CalculateNetForce_node_eq q st cs currStar theta :
  CalculateNetForce_node (mkNode q st cs) currStar theta =
  match st with
  | None => Done zeroPair
  | Some nstar =>
      if Reqb (mass (deref nstar)) 0 then Done zeroPair
      else if IsLeaf (mkNode q st cs) && negb (ptr_eqb nstar currStar)
      then leafForce nstar currStar
      else
        force1 <- openingTest nstar currStar (qwidth q) theta ;;
        CalculateNetForce_children
          (fun child => CalculateNetForce_node child currStar theta) cs force1
  end.
Proof. destruct st; reflexivity. Qed.

Lemma sumsq_nonneg a b : 0 <= a * a + b * b.
Proof. nra. Qed.

Lemma Distance_zero_iff p1 p2 :
  snd (Distance p1 p2) = 0 <-> p1 = p2.
Proof.
  unfold Distance; simpl. split.
  - intros H. apply sqrt_eq_0 in H; [| apply sumsq_nonneg].
    destruct p1 as [x1 y1], p2 as [x2 y2]; simpl in *.
    destruct (Rplus_sqr_eq_0 (x1 - x2) (y1 - y2)) as [Hx Hy]; [exact H |].
    f_equal; lra.
  - intros ->. replace (_ + _) with 0 by ring. apply sqrt_0.
Qed.

Lemma openingTest_zero nstar currStar s theta :
  openingTest nstar currStar s theta = Done zeroPair.
Proof.
  unfold openingTest, Distance. destruct (negb (ptr_eqb nstar currStar)); trivial.
  destruct (Reqb _ 0) eqn:E; simpl; trivial.
  rewrite fdiv_Done.
  - simpl. destruct (Rltb _ theta); trivial.
    unfold zeroPair; simpl. now rewrite Rplus_0_r.
  - intros H. apply Reqb_eq in H. congruence.
Qed.

Lemma leafForce_newton nstar currStar :
  leafForce nstar currStar = Done (newton nstar currStar).
Proof.
  unfold leafForce, newton, Distance.
  set (dX := px (pos nstar) - px (pos currStar)).
  set (dY := py (pos nstar) - py (pos currStar)).
  set (d := sqrt (dX * dX + dY * dY)).
  destruct (Reqb d 0) eqn:E; simpl; trivial.
  assert (Hd : d <> 0) by (intros H; apply Reqb_eq in H; congruence).
  assert (Hdd : d * d <> 0) by now apply Rmult_integral_contrapositive_currified.
  rewrite (fdiv_Done _ Hdd); simpl.
  rewrite !(fdiv_Done _ Hd); simpl.
  f_equal. f_equal; field; auto.
Qed.

Lemma ComputeForce_newton b b2 :
  ComputeForce b b2 = Done (newton b b2).
Proof.
  unfold ComputeForce, newton, Distance.
  set (dX := px (pos b) - px (pos b2)).
  set (dY := py (pos b) - py (pos b2)).
  set (d := sqrt (dX * dX + dY * dY)).
  destruct (Reqb d 0) eqn:E; simpl; trivial.
  assert (Hd : d <> 0) by (intros H; apply Reqb_eq in H; congruence).
  assert (Hdd : d * d <> 0) by now apply Rmult_integral_contrapositive_currified.
  rewrite (fdiv_Done _ Hdd); simpl.
  rewrite (fdiv_Done _ Hd); simpl.
  rewrite (fdiv_Done _ Hd); simpl.
  f_equal. f_equal; field; auto.
Qed.

Lemma newton_coincident b b2 : pos b = pos b2 -> newton b b2 = zeroPair.
Proof.
  intros H. unfold newton. rewrite H.
  rewrite Reqb_true; trivial.
  replace (_ + _) with 0 by ring. apply sqrt_0.
Qed.

Lemma CalculateNetForce_children_Done rec cs :
  (forall c, In (Some c) cs -> exists f, rec c = Done f) ->
  forall force, exists f, CalculateNetForce_children rec cs force = Done f.
Proof.
  induction cs as [| [c|] cs IH]; intros H force; simpl.
  - eauto.
  - destruct (H c) as [f Hf]; [now left |]. rewrite Hf. simpl.
    apply IH. intros c' Hc'. apply H. now right.
  - apply IH. intros c' Hc'. apply H. now right.
Qed.

Lemma CalculateNetForce_children_ext rec1 rec2 cs :
  (forall c, In (Some c) cs -> rec1 c = rec2 c) ->
  forall force,
    CalculateNetForce_children rec1 cs force = CalculateNetForce_children rec2 cs force.
Proof.
  induction cs as [| [c|] cs IH]; intros H force; simpl; trivial.
  - rewrite (H c) by now left. destruct (rec2 c); simpl; trivial.
    apply IH. intros c' Hc'. apply H. now right.
  - apply IH. intros c' Hc'. apply H. now right.
Qed.

Lemma CalculateNetForce_node_Done node currStar theta :
  exists f, CalculateNetForce_node node currStar theta = Done f.
Proof.
  induction node as [q st cs IH] using Node_ind'.
  rewrite CalculateNetForce_node_eq.
  destruct st as [nstar|]; [| eauto].
  destruct (Reqb _ 0); [eauto |].
  destruct (_ && _).
  - rewrite leafForce_newton. eauto.
  - rewrite openingTest_zero. simpl.
    now apply CalculateNetForce_children_Done.
Qed.

Lemma CalculateNetForce_node_theta node currStar theta1 theta2 :
  CalculateNetForce_node node currStar theta1 =
  CalculateNetForce_node node currStar theta2.
Proof.
  induction node as [q st cs IH] using Node_ind'.
  rewrite !CalculateNetForce_node_eq.
  destruct st as [nstar|]; trivial.
  destruct (Reqb _ 0); trivial.
  destruct (_ && _); trivial.
  rewrite !openingTest_zero. simpl.
  now apply CalculateNetForce_children_ext.
Qed.

Lemma CalculateNetForce_children_nil rec cs force :
  forallb (fun child => match child with Some _ => false | None => true end) cs = true ->
  CalculateNetForce_children rec cs force = Done force.
Proof.
  induction cs as [| [c|] cs IH]; simpl; intros H; trivial; try discriminate.
  now apply IH.
Qed.

Lemma CalculateNetForce_Done node currStar theta :
  exists f, CalculateNetForce node currStar theta = Done f.
Proof.
  destruct node as [n|]; simpl; [apply CalculateNetForce_node_Done | eauto].
Qed.

Lemma CalculateNetForce_leaf_coincident node nstar currStar theta :
  IsLeaf node = true -> star node = Some nstar -> pos nstar = pos currStar ->
  CalculateNetForce (Some node) currStar theta = Done zeroPair.
Proof.
  destruct node as [q st cs]. intros Hleaf Hst Hpos.
  simpl in Hst; subst st. unfold CalculateNetForce.
  rewrite CalculateNetForce_node_eq.
  destruct (Reqb _ 0); trivial.
  rewrite Hleaf. cbn [andb].
  destruct (negb (ptr_eqb nstar currStar)).
  - rewrite leafForce_newton. now rewrite newton_coincident.
  - rewrite openingTest_zero; simpl.
    now apply CalculateNetForce_children_nil.
Qed.

(** C8. Force computation never divides by zero: ComputeForce and
    CalculateNetForce return a force for every input (every division they
    perform has a divisor different from zero), and a body whose position
    coincides with the target's contributes the zero vector. *)
Theorem force_never_divides_by_zero :
  (forall b b2, exists f, ComputeForce b b2 = Done f) /\
  (forall b b2, pos b = pos b2 -> ComputeForce b b2 = Done zeroPair) /\
  (forall node currStar theta,
      exists f, CalculateNetForce node currStar theta = Done f) /\
  (forall node nstar currStar theta,
      IsLeaf node = true -> star node = Some nstar -> pos nstar = pos currStar ->
      CalculateNetForce (Some node) currStar theta = Done zeroPair).
Proof.
  repeat split.
  - intros b b2. rewrite ComputeForce_newton. eauto.
  - intros b b2 H. rewrite ComputeForce_newton. now rewrite newton_coincident.
  - apply CalculateNetForce_Done.
  - apply CalculateNetForce_leaf_coincident.
Qed.

(** ** Independence of the opening angle *)

Lemma CalculateNetForce_theta node currStar theta1 theta2 :
  CalculateNetForce node currStar theta1 = CalculateNetForce node currStar theta2.
Proof.
  destruct node as [n|]; simpl; trivial. apply CalculateNetForce_node_theta.
Qed.

Lemma UpdateAcceleration_theta s tree theta1 theta2 :
  UpdateAcceleration s tree theta1 = UpdateAcceleration s tree theta2.
Proof.
  unfold UpdateAcceleration.
  now rewrite (CalculateNetForce_theta (root tree) s theta1 theta2).
Qed.

Lemma updateStars_theta bs time tree theta1 theta2 :
  updateStars bs time tree theta1 = updateStars bs time tree theta2.
Proof.
  induction bs as [| b bs IH]; simpl; trivial.
  unfold updateStar.
  rewrite (UpdateAcceleration_theta b tree theta1 theta2).
  now rewrite IH.
Qed.

Lemma UpdateUniverse_theta u time tree theta1 theta2 next :
  UpdateUniverse u time tree theta1 next = UpdateUniverse u time tree theta2 next.
Proof.
  unfold UpdateUniverse. destruct (CopyUniverse u next) as [u' next'].
  now rewrite (updateStars_theta (stars u') time tree theta1 theta2).
Qed.

Lemma BarnesHut_loop_theta fuel gens u time theta1 theta2 next :
  BarnesHut_loop fuel gens u time theta1 next =
  BarnesHut_loop fuel gens u time theta2 next.
Proof.
  revert u next. induction gens as [| g IH]; intros u next; simpl; trivial.
  destruct (GenerateQuadTree fuel u next) as [[tree next1] | | |]; simpl; trivial.
  rewrite (UpdateUniverse_theta u time tree theta1 theta2 next1).
  destruct (UpdateUniverse u time tree theta2 next1) as [[u' next2] | | |];
    simpl; trivial.
  now rewrite IH.
Qed.

(** C10. The net force returned by CalculateNetForce is the same for any
    two opening-angle thresholds, and so are the accelerations and every
    snapshot computed from it. *)
Theorem CalculateNetForce_ignores_theta :
  (forall node currStar theta1 theta2,
      CalculateNetForce node currStar theta1 = CalculateNetForce node currStar theta2) /\
  (forall s tree theta1 theta2,
      UpdateAcceleration s tree theta1 = UpdateAcceleration s tree theta2) /\
  (forall fuel u numGens time theta1 theta2 next,
      BarnesHut fuel u numGens time theta1 next =
      BarnesHut fuel u numGens time theta2 next).
Proof.
  repeat split.
  - apply CalculateNetForce_theta.
  - apply UpdateAcceleration_theta.
  - intros. unfold BarnesHut. destruct (CopyUniverse u next) as [first next0].
    now rewrite (BarnesHut_loop_theta fuel numGens first time theta1 theta2 next0).
Qed.

(** ** The integrator *)

Lemma copyStar_value a s : copyStar a s = mkPtr a (deref s).
Proof.
  destruct s as [a0 [[x y] [vx vy] [ax ay] m r cr cg cb]]; reflexivity.
Qed.

Lemma copyStars_next ss next :
  snd (copyStars ss next) = (next + length ss)%nat.
Proof.
  revert next. induction ss as [| s ss IH]; intros next; simpl.
  - lia.
  - specialize (IH (S next)). destruct (copyStars ss (S next)); simpl in *. lia.
Qed.

Lemma copyStars_nth ss next i :
  nth_error (fst (copyStars ss next)) i =
  option_map (fun s => mkPtr (next + i)%nat (deref s)) (nth_error ss i).
Proof.
  revert next i. induction ss as [| s ss IH]; intros next i; simpl.
  - now destruct i.
  - specialize (IH (S next)). destruct (copyStars ss (S next)) as [rest n] eqn:E.
    simpl in *. destruct i as [| i]; simpl.
    + now rewrite copyStar_value, Nat.add_0_r.
    + replace (next + S i)%nat with (S next + i)%nat by lia. apply IH.
Qed.

Lemma copyStars_length ss next :
  length (fst (copyStars ss next)) = length ss.
Proof.
  revert next. induction ss as [| s ss IH]; intros next; simpl; trivial.
  specialize (IH (S next)). destruct (copyStars ss (S next)); simpl in *. lia.
Qed.

Lemma UpdateAcceleration_Done s tree theta :
  mass (deref s) <> 0 -> exists a, UpdateAcceleration s tree theta = Done a.
Proof.
  intros Hm. unfold UpdateAcceleration.
  destruct (CalculateNetForce_Done (root tree) s theta) as [f ->]; simpl.
  rewrite !(fdiv_Done _ Hm); simpl. eauto.
Qed.

Lemma updateStar_eq b time tree theta a :
  UpdateAcceleration b tree theta = Done a ->
  updateStar b time tree theta =
  Done (mkPtr (addr b)
          (mkStar
             (mkPair
                (px (pos b) + px (velocity (deref b)) * time
                 + 0.5 * px (acceleration (deref b)) * time * time)
                (py (pos b) + py (velocity (deref b)) * time
                 + 0.5 * py (acceleration (deref b)) * time * time))
             (mkPair
                (px (velocity (deref b))
                 + 0.5 * (px a + px (acceleration (deref b))) * time)
                (py (velocity (deref b))
                 + 0.5 * (py a + py (acceleration (deref b))) * time))
             a (mass (deref b)) (radius (deref b))
             (red (deref b)) (green (deref b)) (blue (deref b)))).
Proof. intros H. unfold updateStar. rewrite H. reflexivity. Qed.

Lemma updateStars_Done bs time tree theta :
  (forall b, In b bs -> mass (deref b) <> 0) ->
  exists bs',
    updateStars bs time tree theta = Done bs' /\
    length bs' = length bs /\
    forall i b, nth_error bs i = Some b ->
      exists b', nth_error bs' i = Some b' /\ updateStar b time tree theta = Done b'.
Proof.
  induction bs as [| b bs IH]; intros Hm; simpl.
  - exists []. repeat split; trivial. intros [|i] b H; discriminate.
  - destruct (UpdateAcceleration_Done b tree theta) as [a Ha];
      [apply Hm; now left |].
    rewrite (updateStar_eq _ time _ _ Ha). simpl.
    destruct IH as (bs' & -> & Hlen & Hnth); [intros; apply Hm; now right |].
    simpl. eexists. split; [reflexivity |]. split; [simpl; now rewrite Hlen |].
    intros [| i] b0 H; simpl in *.
    + injection H as <-. eexists. split; [reflexivity |].
      now rewrite (updateStar_eq _ time _ _ Ha).
    + now apply Hnth.
Qed.

Lemma copyStars_masses ss next :
  (forall s, In s ss -> mass (deref s) <> 0) ->
  forall b, In b (fst (copyStars ss next)) -> mass (deref b) <> 0.
Proof.
  intros Hm b Hb. apply In_nth_error in Hb. destruct Hb as [i Hi].
  rewrite copyStars_nth in Hi.
  destruct (nth_error ss i) as [s|] eqn:Es; simpl in Hi; [| discriminate].
  injection Hi as <-. simpl. apply Hm. eapply nth_error_In; eauto.
Qed.

Lemma UpdateUniverse_spec u time tree theta next :
  (forall s, In s (stars u) -> mass (deref s) <> 0) ->
  exists u',
    UpdateUniverse u time tree theta next
    = Done (u', (next + length (stars u))%nat) /\
    length (stars u') = length (stars u) /\
    forall i s, nth_error (stars u) i = Some s ->
      exists a s',
        UpdateAcceleration (mkPtr (next + i)%nat (deref s)) tree theta = Done a /\
        nth_error (stars u') i = Some s' /\
        acceleration (deref s') = a /\
        mass (deref s') = mass (deref s).
Proof.
  intros Hm.
  unfold UpdateUniverse, CopyUniverse.
  pose proof (copyStars_next (stars u) next) as Hnext.
  pose proof (copyStars_nth (stars u) next) as Hnth.
  pose proof (copyStars_length (stars u) next) as Hlen.
  pose proof (copyStars_masses (stars u) next Hm) as Hcm.
  destruct (copyStars (stars u) next) as [copies next'].
  simpl in *. subst next'.
  destruct (updateStars_Done copies time tree theta Hcm) as (bs' & -> & Hl & Hb).
  simpl. eexists. split; [reflexivity |]. simpl. split; [congruence |].
  intros i s Hs.
  specialize (Hnth i). rewrite Hs in Hnth. simpl in Hnth.
  destruct (Hb _ _ Hnth) as (b' & Hb' & Hup).
  destruct (UpdateAcceleration_Done (mkPtr (next + i)%nat (deref s)) tree theta)
    as [a Ha]; [simpl; apply Hm; eapply nth_error_In; eauto |].
  rewrite (updateStar_eq _ time _ _ Ha) in Hup. injection Hup as <-.
  exists a. eexists. split; [exact Ha |]. split; [exact Hb' |].
  split; reflexivity.
Qed.



(** C4, as the code has it.  A star at rest (zero velocity and zero stored
    acceleration) whose newly computed acceleration is [a] leaves one step
    with velocity [0.5 * a * time], acceleration [a] and its position
    unchanged: the position update uses the stored acceleration, which is
    zero, not the new one. *)
Theorem updateStar_from_rest b time tree theta a :
  velocity (deref b) = zeroPair ->
  acceleration (deref b) = zeroPair ->
  UpdateAcceleration b tree theta = Done a ->
  exists b',
    updateStar b time tree theta = Done b' /\
    acceleration (deref b') = a /\
    px (velocity (deref b')) = 0.5 * px a * time /\
    py (velocity (deref b')) = 0.5 * py a * time /\
    pos b' = pos b.
Proof.
  intros Hv Ha0 Ha. rewrite (updateStar_eq _ time _ _ Ha).
  eexists. split; [reflexivity |]. unfold pos. simpl.
  rewrite Hv, Ha0. simpl.
  repeat split; try ring.
  destruct (position (deref b)) as [x y]; simpl. f_equal; ring.
Qed.

(** ** Quadrants *)

Lemma FindQuadrant_lt q s : (FindQuadrant q s < 4)%nat.
Proof.
  unfold FindQuadrant.
  repeat match goal with |- context [if ?b then _ else _] => destruct b end; lia.
Qed.

Lemma FindQuadrant_pos q a b : pos a = pos b -> FindQuadrant q a = FindQuadrant q b.
Proof. intros H. unfold FindQuadrant. now rewrite H. Qed.

Lemma FindQuadrant_inside q s :
  inside q s -> inside (quadrantOf q (FindQuadrant q s)) s.
Proof.
  unfold inside, FindQuadrant. intros [[Hx1 Hx2] [Hy1 Hy2]].
  unfold Rltb, Rgeb.
  repeat match goal with
         | |- context [Rlt_dec ?a ?b] => destruct (Rlt_dec a b)
         | |- context [Rge_dec ?a ?b] => destruct (Rge_dec a b)
         end; simpl; lra.
Qed.

Lemma Subdivide_children q st :
  children (Subdivide (mkNode q st [])) = map Some (emptyQuads q).
Proof. reflexivity. Qed.

Lemma emptyQuads_nth q i :
  (i < 4)%nat -> nth_error (emptyQuads q) i = Some (mkNode (quadrantOf q i) None []).
Proof.
  intros H. destruct i as [|[|[|[|i]]]]; try reflexivity. lia.
Qed.

(** ** Updating one child *)

Lemma setNth_length i c cs : (i < length cs)%nat -> length (setNth i c cs) = length cs.
Proof.
  intros H. unfold setNth. rewrite length_app. cbn [length].
  rewrite firstn_length_le by lia. rewrite length_skipn. lia.
Qed.

Lemma setNth_nth_same i c cs :
  (i < length cs)%nat -> nth_error (setNth i c cs) i = Some c.
Proof.
  intros H. unfold setNth. rewrite nth_error_app2; rewrite firstn_length_le by lia.
  - now rewrite Nat.sub_diag.
  - lia.
Qed.

Lemma setNth_nth_other i j c cs :
  (i < length cs)%nat -> i <> j -> nth_error (setNth i c cs) j = nth_error cs j.
Proof.
  unfold setNth. revert i j.
  induction cs as [| c0 cs IH]; intros i j Hi Hij; simpl in Hi.
  - lia.
  - destruct i as [| i], j as [| j]; simpl; try congruence.
    apply IH; [lia | congruence].
Qed.

Lemma setNth_bodies i c c' cs s :
  nth_error cs i = Some c ->
  Permutation (bodies c') (s :: bodies c) ->
  Permutation (flat_map bodies (setNth i c' cs)) (s :: flat_map bodies cs).
Proof.
  unfold setNth. revert i. induction cs as [| c0 cs IH]; intros i Hi Hp.
  - destruct i; discriminate.
  - destruct i as [| i]; simpl in *.
    + injection Hi as ->. now apply Permutation_app_tail with (tl := flat_map bodies cs) in Hp.
    + rewrite (IH i Hi Hp). apply Permutation_sym, Permutation_middle.
Qed.

Lemma onChild_map f q st cs idx c :
  nth_error cs idx = Some c ->
  onChild f (mkNode q st (map Some cs)) idx =
  (c' <- f c ;; Done (mkNode q st (map Some (setNth idx c' cs)))).
Proof.
  intros H. unfold onChild. cbn [children sector star].
  rewrite nth_error_map, H. cbn [option_map].
  destruct (f c) as [c' | | |]; cbn [bind]; trivial.
  unfold setNth. now rewrite map_app, firstn_map, skipn_map.
Qed.

Lemma flat_map_bodies_Some l :
  flat_map (fun oc => match oc with Some c => bodies c | None => [] end) (map Some l)
  = flat_map bodies l.
Proof. induction l as [| c l IH]; simpl; trivial. now rewrite IH. Qed.

Lemma bodies_internal q st cs :
  cs <> [] -> bodies (mkNode q st (map Some cs)) = flat_map bodies cs.
Proof.
  intros H. destruct cs as [| c cs]; [congruence |].
  rewrite <- flat_map_bodies_Some. reflexivity.
Qed.

Lemma setNth_facts (P : nat -> Node -> Prop) i c' cs :
  (i < length cs)%nat ->
  (forall j d, nth_error cs j = Some d -> P j d) ->
  P i c' ->
  forall j d, nth_error (setNth i c' cs) j = Some d -> P j d.
Proof.
  intros Hlt Hall Hi j d Hj. destruct (Nat.eq_dec i j) as [<- | Hij].
  - rewrite setNth_nth_same in Hj by trivial. now injection Hj as <-.
  - rewrite setNth_nth_other in Hj by trivial. now apply Hall.
Qed.

Lemma emptyQuads_facts q j d :
  nth_error (emptyQuads q) j = Some d -> sector d = quadrantOf q j /\ built d.
Proof.
  intros Hj.
  assert (Hlt : (j < 4)%nat) by (apply (nth_error_Some (emptyQuads q)); congruence).
  rewrite emptyQuads_nth in Hj by trivial. injection Hj as <-.
  split; [reflexivity | constructor].
Qed.

(** The children of a leaf after Subdivide and the reinsertion of its star. *)
Lemma leaf_quads q o :
  inside q o ->
  let cs1 := setNth (FindQuadrant q o)
               (mkNode (quadrantOf q (FindQuadrant q o)) (Some o) []) (emptyQuads q) in
  length cs1 = 4%nat /\
  (forall j d, nth_error cs1 j = Some d -> sector d = quadrantOf q j) /\
  (forall j d, nth_error cs1 j = Some d -> built d) /\
  Permutation (flat_map bodies cs1) [o].
Proof.
  intros Hin cs1. pose proof (FindQuadrant_lt q o) as Hlt.
  split; [| split; [| split]].
  - unfold cs1. now rewrite setNth_length.
  - unfold cs1. apply setNth_facts with (P := fun j d => sector d = quadrantOf q j);
      trivial.
    intros j d Hj. now apply emptyQuads_facts in Hj.
  - unfold cs1. apply setNth_facts with (P := fun _ d => built d); trivial.
    + intros j d Hj. now apply emptyQuads_facts in Hj.
    + apply built_leaf. now apply FindQuadrant_inside.
  - unfold cs1.
    rewrite (setNth_bodies (s := o) _ _ _ (emptyQuads_nth q Hlt)); reflexivity.
Qed.

(** ** InsertStar on the trees it builds *)

Lemma InsertStar_empty f q s :
  InsertStar (S f) (mkNode q None []) s = Done (mkNode q (Some s) []).
Proof. reflexivity. Qed.

Lemma InsertStar_leaf f q o s :
  InsertStar (S f) (mkNode q (Some o) []) s =
  (node3 <- onChild (fun c => InsertStar f c o)
              (mkNode q None (map Some (emptyQuads q))) (FindQuadrant q o) ;;
   onChild (fun c => InsertStar f c s) node3 (FindQuadrant (sector node3) s)).
Proof. reflexivity. Qed.

Lemma InsertStar_internal f q st c cs s :
  InsertStar (S f) (mkNode q st (c :: cs)) s =
  onChild (fun c0 => InsertStar f c0 s) (mkNode q st (c :: cs)) (FindQuadrant q s).
Proof. destruct st; reflexivity. Qed.

Lemma built_children_step q cs i c c' :
  length cs = 4%nat ->
  (forall j d, nth_error cs j = Some d -> sector d = quadrantOf q j) ->
  (forall j d, nth_error cs j = Some d -> built d) ->
  nth_error cs i = Some c ->
  built c' -> sector c' = sector c ->
  flat_map bodies (setNth i c' cs) <> [] ->
  built (mkNode q None (map Some (setNth i c' cs))).
Proof.
  intros Hlen Hsec Hb Hi Hc' Hs Hne.
  assert (Hlt : (i < length cs)%nat) by (apply nth_error_Some; congruence).
  apply built_internal; trivial.
  - now rewrite setNth_length.
  - apply setNth_facts with (P := fun j d => sector d = quadrantOf q j); trivial.
    rewrite Hs. now apply Hsec.
  - apply setNth_facts with (P := fun _ d => built d); trivial.
Qed.

Lemma insert_step f q cs s :
  insertsInto f ->
  length cs = 4%nat ->
  (forall j d, nth_error cs j = Some d -> sector d = quadrantOf q j) ->
  (forall j d, nth_error cs j = Some d -> built d) ->
  inside q s ->
  onChild (fun c => InsertStar f c s) (mkNode q None (map Some cs)) (FindQuadrant q s)
  = OutOfFuel \/
  exists n',
    onChild (fun c => InsertStar f c s) (mkNode q None (map Some cs)) (FindQuadrant q s)
    = Done n' /\
    built n' /\ sector n' = q /\ Permutation (bodies n') (s :: flat_map bodies cs).
Proof.
  intros IH Hlen Hsec Hb Hin.
  pose proof (FindQuadrant_lt q s) as Hlt.
  destruct (nth_error cs (FindQuadrant q s)) as [c|] eqn:Hc;
    [| apply nth_error_None in Hc; lia].
  rewrite (onChild_map _ _ _ _ _ Hc).
  destruct (IH c s) as [-> | (c' & -> & Hbc & Hsc & Hpc)].
  - eapply Hb; eauto.
  - rewrite (Hsec _ _ Hc). now apply FindQuadrant_inside.
  - now left.
  - right. cbn [bind]. eexists. split; [reflexivity |].
    pose proof (setNth_bodies _ _ cs Hc Hpc) as Hp.
    assert (Hne : flat_map bodies (setNth (FindQuadrant q s) c' cs) <> []).
    { intros E. rewrite E in Hp. now apply Permutation_nil in Hp. }
    split; [eapply built_children_step; eauto |].
    split; [reflexivity |].
    rewrite bodies_internal; trivial.
    intros E. rewrite E in Hne. now apply Hne.
Qed.

Lemma InsertStar_built f : insertsInto f.
Proof.
  induction f as [| f IH]; intros n s Hb Hin; [now left |].
  inversion Hb as [q | q o Ho | q cs Hlen Hsec Hbs Hne]; subst n; cbn [sector] in Hin.
  - right. rewrite InsertStar_empty. eexists. split; [reflexivity |].
    split; [now apply built_leaf |]. split; reflexivity.
  - rewrite InsertStar_leaf.
    pose proof (FindQuadrant_lt q o) as Hlt.
    rewrite (onChild_map _ _ _ _ _ (emptyQuads_nth q Hlt)).
    destruct f as [| f']; [now left |].
    rewrite InsertStar_empty. cbn [bind sector].
    destruct (leaf_quads Ho) as (Hlen & Hsec & Hbs & Hp1).
    destruct (@insert_step _ q _ s IH Hlen Hsec Hbs Hin)
      as [-> | (n' & -> & Hbn & Hsn & Hpn)]; [now left |].
    right. exists n'. split; [reflexivity |].
    split; [trivial |]. split; [trivial |].
    rewrite Hpn. cbn [bodies]. now apply perm_skip.
  - destruct cs as [| c cs]; [discriminate |].
    cbn [map]. rewrite InsertStar_internal.
    change (Some c :: map Some cs) with (map Some (c :: cs)).
    destruct (@insert_step _ q _ s IH Hlen Hsec Hbs Hin)
      as [-> | (n' & -> & Hbn & Hsn & Hpn)]; [now left |].
    right. exists n'. split; [reflexivity |].
    split; [trivial |]. split; [trivial |].
    rewrite Hpn. rewrite bodies_internal by discriminate. reflexivity.
Qed.

(** ** Recursion depth of InsertStar *)

Lemma onChild_mono (f1 f2 : Node -> outcome Node) n i n' :
  (forall c c', f1 c = Done c' -> f2 c = Done c') ->
  onChild f1 n i = Done n' -> onChild f2 n i = Done n'.
Proof.
  intros H. unfold onChild.
  destruct (nth_error (children n) i) as [[c|]|]; try discriminate.
  destruct (f1 c) as [c' | | |] eqn:E; try discriminate.
  now rewrite (H _ _ E).
Qed.

Lemma InsertStar_mono f :
  forall n s n', InsertStar f n s = Done n' ->
  forall f', (f <= f')%nat -> InsertStar f' n s = Done n'.
Proof.
  induction f as [| f IH]; intros n s n' H f' Hle; [discriminate |].
  destruct f' as [| f']; [lia |].
  assert (Hf : (f <= f')%nat) by lia.
  destruct n as [q [o|] [| c cs]].
  - rewrite InsertStar_leaf in *.
    apply bind_Done in H. destruct H as (node3 & H1 & H2).
    apply (@onChild_mono _ (fun c => InsertStar f' c o)) in H1;
      [| intros c c' Hc; now apply (IH _ _ _ Hc)].
    rewrite H1. cbn [bind]. eapply onChild_mono; [| exact H2].
    intros c c' Hc. now apply (IH _ _ _ Hc).
  - rewrite InsertStar_internal in *. eapply onChild_mono; [| exact H].
    intros c0 c' Hc. now apply (IH _ _ _ Hc).
  - exact H.
  - rewrite InsertStar_internal in *. eapply onChild_mono; [| exact H].
    intros c0 c' Hc. now apply (IH _ _ _ Hc).
Qed.

Lemma sep_le_width q a b : inside q a -> inside q b -> sep a b <= qwidth q.
Proof.
  unfold inside, sep. intros [Hax Hay] [Hbx Hby].
  apply Rmax_lub; apply Rabs_le; lra.
Qed.

Lemma sep_pos a b : pos a <> pos b -> 0 < sep a b.
Proof.
  intros H. unfold sep.
  destruct (Req_dec_T (px (pos a)) (px (pos b))) as [Ex | Nx].
  - destruct (Req_dec_T (py (pos a)) (py (pos b))) as [Ey | Ny].
    + exfalso. apply H. destruct (pos a), (pos b); simpl in *. congruence.
    + eapply Rlt_le_trans; [| apply Rmax_r]. apply Rabs_pos_lt. lra.
  - eapply Rlt_le_trans; [| apply Rmax_l]. apply Rabs_pos_lt. lra.
Qed.

Lemma quadrantOf_width q i : qwidth (quadrantOf q i) = qwidth q / 2.
Proof. destruct i as [|[|[|i]]]; reflexivity. Qed.

Lemma exists_pow w d : 0 < d -> exists k : nat, w < 2 ^ k * d.
Proof.
  intros Hd.
  destruct (Pow_x_infinity 2) with (b := w / d + 1) as [N HN].
  - rewrite Rabs_right; lra.
  - exists N. specialize (HN N (le_n N)).
    rewrite Rabs_right in HN by (apply Rle_ge, pow_le; lra).
    assert (H : w / d < 2 ^ N) by lra.
    apply (Rmult_lt_compat_r d) in H; trivial.
    unfold Rdiv in H. rewrite Rmult_assoc, Rinv_l, Rmult_1_r in H; lra.
Qed.

Lemma InsertStar_leaf_total k :
  forall q o s, inside q o -> inside q s -> qwidth q < 2 ^ k * sep o s ->
  forall f, (k + 2 <= f)%nat ->
  exists n', InsertStar f (mkNode q (Some o) []) s = Done n'.
Proof.
  induction k as [| k IH]; intros q o s Ho Hs Hw f Hf.
  - pose proof (sep_le_width Ho Hs). simpl in Hw. lra.
  - destruct f as [| [| f]]; try lia.
    rewrite InsertStar_leaf.
    pose proof (FindQuadrant_lt q o) as Hlto.
    pose proof (FindQuadrant_lt q s) as Hlts.
    rewrite (onChild_map _ _ _ _ _ (emptyQuads_nth q Hlto)).
    rewrite InsertStar_empty. cbn [bind sector].
    destruct (Nat.eq_dec (FindQuadrant q o) (FindQuadrant q s)) as [E | N].
    + assert (Hc : nth_error (setNth (FindQuadrant q o)
                                  (mkNode (quadrantOf q (FindQuadrant q o)) (Some o) [])
                                  (emptyQuads q)) (FindQuadrant q s)
                     = Some (mkNode (quadrantOf q (FindQuadrant q o)) (Some o) []))
        by (rewrite <- E; now apply setNth_nth_same).
      rewrite (onChild_map _ _ _ _ _ Hc).
      destruct (IH (quadrantOf q (FindQuadrant q o)) o s) with (f := S f)
        as [c' ->].
      * now apply FindQuadrant_inside.
      * rewrite E. now apply FindQuadrant_inside.
      * rewrite quadrantOf_width. simpl in Hw. lra.
      * lia.
      * cbn [bind]. eauto.
    + assert (Hc : nth_error (setNth (FindQuadrant q o)
                                  (mkNode (quadrantOf q (FindQuadrant q o)) (Some o) [])
                                  (emptyQuads q)) (FindQuadrant q s)
                     = Some (mkNode (quadrantOf q (FindQuadrant q s)) None []))
        by (rewrite setNth_nth_other; trivial; now apply emptyQuads_nth).
      rewrite (onChild_map _ _ _ _ _ Hc).
      rewrite InsertStar_empty. cbn [bind]. eauto.
Qed.

Lemma InsertStar_total n s :
  built n -> inside (sector n) s ->
  (forall b, In b (bodies n) -> pos b <> pos s) ->
  exists F, forall f, (F <= f)%nat -> exists n', InsertStar f n s = Done n'.
Proof.
  intros Hb. revert s.
  induction Hb as [q | q o Ho | q cs Hlen Hsec Hbs IH Hne]; intros s Hin Hd;
    cbn [sector] in Hin.
  - exists 1%nat. intros [| f] Hf; [lia |]. rewrite InsertStar_empty. eauto.
  - assert (Hsep : 0 < sep o s) by (apply sep_pos, Hd; now left).
    destruct (exists_pow (qwidth q) Hsep) as [k Hk].
    exists (k + 2)%nat. intros f Hf. eapply InsertStar_leaf_total; eauto.
  - pose proof (FindQuadrant_lt q s) as Hlt.
    destruct (nth_error cs (FindQuadrant q s)) as [c|] eqn:Hc;
      [| apply nth_error_None in Hc; lia].
    destruct (IH _ _ Hc s) as [F HF].
    + rewrite (Hsec _ _ Hc). now apply FindQuadrant_inside.
    + intros b Hbc. apply Hd. rewrite bodies_internal by (intros ->; discriminate).
      apply in_flat_map. exists c. split; trivial. eapply nth_error_In; eauto.
    + exists (S F). intros [| f] Hf; [lia |].
      destruct cs as [| c0 cs]; [discriminate |].
      cbn [map]. rewrite InsertStar_internal.
      change (Some c0 :: map Some cs) with (map Some (c0 :: cs)).
      rewrite (onChild_map _ _ _ _ _ Hc).
      destruct (HF f) as [c' ->]; [lia |]. cbn [bind]. eauto.
Qed.

Lemma InsertStar_coincident f :
  forall q a b, pos a = pos b -> InsertStar f (mkNode q (Some a) []) b = OutOfFuel.
Proof.
  induction f as [| f IH]; intros q a b Hpos; [reflexivity |].
  rewrite InsertStar_leaf.
  pose proof (FindQuadrant_lt q a) as Hlt.
  rewrite (onChild_map _ _ _ _ _ (emptyQuads_nth q Hlt)).
  destruct f as [| f]; [reflexivity |].
  rewrite InsertStar_empty. cbn [bind sector].
  assert (Hc : nth_error (setNth (FindQuadrant q a)
                            (mkNode (quadrantOf q (FindQuadrant q a)) (Some a) [])
                            (emptyQuads q)) (FindQuadrant q b)
               = Some (mkNode (quadrantOf q (FindQuadrant q a)) (Some a) []))
    by (rewrite <- (FindQuadrant_pos q a b Hpos); now apply setNth_nth_same).
  rewrite (onChild_map _ _ _ _ _ Hc).
  now rewrite IH.
Qed.

(** ** The insertion loop of GenerateQuadTree *)

Lemma IsInsideUniverse_inside s w :
  IsInsideUniverse s w = true <-> inside (mkQuadrant 0 0 w) s.
Proof.
  unfold IsInsideUniverse, inside. simpl.
  rewrite !andb_true_iff, !Rgeb_ge, !Rleb_le. split; intros; lra.
Qed.

Lemma insertAll_built fuel w ss :
  forall root, built root -> sector root = mkQuadrant 0 0 w ->
  insertAll fuel w ss root = OutOfFuel \/
  exists root',
    insertAll fuel w ss root = Done root' /\ built root' /\
    sector root' = mkQuadrant 0 0 w /\
    Permutation (bodies root')
      (filter (fun s => IsInsideUniverse s w) ss ++ bodies root).
Proof.
  induction ss as [| s ss IH]; intros root Hb Hs; simpl.
  - right. exists root. repeat split; trivial.
  - destruct (IsInsideUniverse s w) eqn:E.
    + assert (Hin : inside (sector root) s)
        by (rewrite Hs; now apply IsInsideUniverse_inside).
      destruct (InsertStar_built fuel Hb Hin) as [-> | (root1 & -> & Hb1 & Hs1 & Hp1)].
      * now left.
      * cbn [bind].
        destruct (IH root1 Hb1) as [-> | (root' & -> & Hb' & Hs' & Hp')];
          [congruence | now left |].
        right. exists root'. repeat split; trivial.
        rewrite Hp', Hp1. simpl. apply Permutation_sym, Permutation_middle.
    + now apply IH.
Qed.

Lemma insertAll_total w ss :
  forall root, built root -> sector root = mkQuadrant 0 0 w ->
  NoDup (map pos (filter (fun s => IsInsideUniverse s w) ss ++ bodies root)) ->
  exists F, forall f, (F <= f)%nat -> exists root', insertAll f w ss root = Done root'.
Proof.
  induction ss as [| s ss IH]; intros root Hb Hs Hnd; simpl in *.
  - exists 0%nat. eauto.
  - destruct (IsInsideUniverse s w) eqn:E; [| now apply IH].
    simpl in Hnd. apply NoDup_cons_iff in Hnd. destruct Hnd as [Hnotin Hnd].
    assert (Hin : inside (sector root) s)
      by (rewrite Hs; now apply IsInsideUniverse_inside).
    destruct (@InsertStar_total root s Hb Hin) as [F1 HF1].
    { intros b Hbb Epos. apply Hnotin. rewrite <- Epos.
      apply in_map, in_or_app. now right. }
    destruct (HF1 F1 (le_n _)) as [root1 H1].
    destruct (InsertStar_built F1 Hb Hin) as [H0 | (root1' & H1' & Hb1 & Hs1 & Hp1)];
      [congruence |].
    assert (root1' = root1) by congruence. subst root1'.
    destruct (IH root1) as [F2 HF2]; trivial; [congruence | |].
    { eapply Permutation_NoDup; [| exact (NoDup_cons _ Hnotin Hnd)].
      change (pos s :: map pos (filter (fun s => IsInsideUniverse s w) ss ++ bodies root))
        with (map pos (s :: filter (fun s => IsInsideUniverse s w) ss ++ bodies root)).
      apply Permutation_map with (f := pos).
      rewrite Hp1. apply Permutation_middle. }
    exists (Nat.max F1 F2). intros f Hf.
    rewrite (InsertStar_mono _ _ H1) by lia. cbn [bind].
    apply HF2. lia.
Qed.

(** ** ComputeCenterAndMass *)

Lemma massSum_app l1 l2 : massSum (l1 ++ l2) = massSum l1 + massSum l2.
Proof. induction l1 as [| s l1 IH]; simpl; [lra | rewrite IH; lra]. Qed.

Lemma momentX_app l1 l2 : momentX (l1 ++ l2) = momentX l1 + momentX l2.
Proof. induction l1 as [| s l1 IH]; simpl; [lra | rewrite IH; lra]. Qed.

Lemma momentY_app l1 l2 : momentY (l1 ++ l2) = momentY l1 + momentY l2.
Proof. induction l1 as [| s l1 IH]; simpl; [lra | rewrite IH; lra]. Qed.

Lemma massSum_pos l :
  l <> [] -> (forall b, In b l -> 0 < mass (deref b)) -> 0 < massSum l.
Proof.
  destruct l as [| s l]; [congruence |]. intros _ H. simpl.
  assert (0 < mass (deref s)) by (apply H; now left).
  assert (0 <= massSum l).
  { clear H0. induction l as [| t l IH]; simpl; [lra |].
    assert (0 < mass (deref t)) by (apply H; right; now left).
    assert (0 <= massSum l) by (apply IH; intros b [<- | Hb]; apply H;
                                [now left | right; now right]).
    lra. }
  lra.
Qed.

Lemma ComputeCenterAndMass_eq q st c cs next :
  ComputeCenterAndMass (mkNode q st (c :: cs)) next =
  ('(children1, totalMass, xCm, yCm, next1) <-
     ComputeCenterAndMass_children ComputeCenterAndMass (c :: cs) 0 0 0 next ;;
   if Rltb 0 totalMass then
     cx <- fdiv xCm totalMass ;;
     cy <- fdiv yCm totalMass ;;
     Done (mkNode q (Some (mkPtr next1 (aggregateStar (mkPair cx cy) totalMass)))
             children1,
           S next1)
   else Done (mkNode q st children1, next1)).
Proof. reflexivity. Qed.

Lemma ComputeCenterAndMass_internal q st cs next :
  cs <> [] ->
  ComputeCenterAndMass (mkNode q st (map Some cs)) next =
  ('(children1, totalMass, xCm, yCm, next1) <-
     ComputeCenterAndMass_children ComputeCenterAndMass (map Some cs) 0 0 0 next ;;
   if Rltb 0 totalMass then
     cx <- fdiv xCm totalMass ;;
     cy <- fdiv yCm totalMass ;;
     Done (mkNode q (Some (mkPtr next1 (aggregateStar (mkPair cx cy) totalMass)))
             children1,
           S next1)
   else Done (mkNode q st children1, next1)).
Proof. intros H. destruct cs; [congruence | reflexivity]. Qed.

Lemma ComputeCenterAndMass_children_spec (Q : Node -> Node -> Prop) cs :
  (forall c, In c cs -> forall next,
      exists c' next', ComputeCenterAndMass c next = Done (c', next') /\ Q c c') ->
  forall tm xc yc next,
  exists cs' tm' xc' yc' next',
    ComputeCenterAndMass_children ComputeCenterAndMass (map Some cs) tm xc yc next
    = Done (map Some cs', tm', xc', yc', next') /\
    Forall2 Q cs cs' /\
    tm' = tm + sumOver nodeMass cs' /\
    xc' = xc + sumOver nodeMomentX cs' /\
    yc' = yc + sumOver nodeMomentY cs'.
Proof.
  induction cs as [| c cs IH]; intros H tm xc yc next.
  - exists [], tm, xc, yc, next. simpl. repeat split; trivial; lra.
  - destruct (H c (or_introl eq_refl) next) as (c' & next' & Hc & HQ).
    cbn [map ComputeCenterAndMass_children]. rewrite Hc. cbn [bind].
    assert (IH' := fun tm xc yc => IH (fun d Hd => H d (or_intror Hd)) tm xc yc next').
    unfold nodeMass, nodeMomentX, nodeMomentY, sumOver in *.
    destruct (star c') as [st|] eqn:Est.
    + destruct (IH' (tm + mass (deref st)) (xc + mass (deref st) * px (pos st))
                  (yc + mass (deref st) * py (pos st)))
        as (cs' & tm' & xc' & yc' & next'' & -> & HF & Htm & Hxc & Hyc).
      cbn [bind]. exists (c' :: cs'), tm', xc', yc', next''.
      split; [reflexivity |]. split; [now constructor |].
      cbn [fold_right]. rewrite Est. repeat split; lra.
    + destruct (IH' tm xc yc)
        as (cs' & tm' & xc' & yc' & next'' & -> & HF & Htm & Hxc & Hyc).
      cbn [bind]. exists (c' :: cs'), tm', xc', yc', next''.
      split; [reflexivity |]. split; [now constructor |].
      cbn [fold_right]. rewrite Est. repeat split; lra.
Qed.

Lemma aggregates_sums cs cs' :
  Forall2 aggregates cs cs' ->
  flat_map bodies cs' = flat_map bodies cs /\
  length cs' = length cs /\
  ((forall b, In b (flat_map bodies cs) -> 0 < mass (deref b)) ->
   (forall c', In c' cs' -> aggregated c') /\
   sumOver nodeMass cs' = massSum (flat_map bodies cs) /\
   sumOver nodeMomentX cs' = momentX (flat_map bodies cs) /\
   sumOver nodeMomentY cs' = momentY (flat_map bodies cs)).
Proof.
  induction 1 as [| c c' cs cs' (Hb & Hs & Hagg) HF (IHb & IHl & IH)]; simpl.
  - repeat split; trivial. intros c' [].
  - split; [now rewrite Hb, IHb |]. split; [now rewrite IHl |].
    intros Hpos.
    destruct Hagg as (Ha & Hm & Hx & Hy);
      [intros b Hin; apply Hpos, in_or_app; now left |].
    destruct IH as (Has & Hms & Hxs & Hys);
      [intros b Hin; apply Hpos, in_or_app; now right |].
    rewrite massSum_app, momentX_app, momentY_app, Hm, Hx, Hy, Hms, Hxs, Hys.
    repeat split; trivial.
    intros d [<- | Hd]; auto.
Qed.

Lemma ComputeCenterAndMass_built n :
  built n ->
  forall next, exists n' next',
    ComputeCenterAndMass n next = Done (n', next') /\ aggregates n n'.
Proof.
  induction 1 as [q | q s Hs | q cs Hlen Hsec Hbs IH Hne]; intros next.
  - exists (mkNode q None []), next. split; [reflexivity |].
    repeat split; trivial. constructor.
  - exists (mkNode q (Some s) []), next. split; [reflexivity |].
    unfold aggregates, nodeMass, nodeMomentX, nodeMomentY. simpl.
    repeat split; trivial; try lra. constructor.
  - destruct (@ComputeCenterAndMass_children_spec aggregates cs) with
      (tm := 0) (xc := 0) (yc := 0) (next := next)
      as (cs' & tm & xc & yc & next1 & Hloop & HF & Htm & Hxc & Hyc).
    { intros c Hc. apply In_nth_error in Hc. destruct Hc as [i Hi]. eauto. }
    destruct (aggregates_sums HF) as (Hbod & Hlen' & Hsums).
    assert (Hcs' : cs' <> []) by (intros ->; simpl in Hlen'; lia).
    assert (Hcs : cs <> []) by (intros ->; simpl in Hlen; lia).
    rewrite ComputeCenterAndMass_internal by trivial.
    rewrite Hloop. cbn [bind].
    destruct (Rltb 0 tm) eqn:Etm.
    + apply Rltb_lt in Etm.
      rewrite !fdiv_Done by lra. cbn [bind].
      eexists. eexists. split; [reflexivity |].
      unfold aggregates. rewrite !bodies_internal by trivial.
      split; [trivial |]. split; [reflexivity |].
      intros Hpos. destruct (Hsums Hpos) as (Has & Hms & Hxs & Hys).
      unfold nodeMass, nodeMomentX, nodeMomentY, pos. simpl.
      assert (Em : tm = massSum (flat_map bodies cs)) by lra.
      assert (Ex : xc = momentX (flat_map bodies cs)) by lra.
      assert (Ey : yc = momentY (flat_map bodies cs)) by lra.
      split; [| rewrite <- Em, <- Ex, <- Ey; repeat split; trivial; field; lra].
      apply aggregated_internal; trivial; unfold pos; simpl;
        rewrite ?Hbod; try lra; congruence.
    + eexists. eexists. split; [reflexivity |].
      unfold aggregates. rewrite !bodies_internal by trivial.
      split; [trivial |]. split; [reflexivity |].
      intros Hpos. exfalso.
      destruct (Hsums Hpos) as (_ & Hms & _).
      pose proof (massSum_pos Hne Hpos).
      assert (0 < tm) by lra.
      apply Rltb_lt in H0. congruence.
Qed.

Lemma aggregated_subnode m n : subnode m n -> aggregated n -> aggregated m.
Proof.
  induction 1 as [| n c Hc Hsub IH]; trivial.
  intros Hn. apply IH.
  inversion Hn as [q st | q a cs Hne Hall]; subst n; simpl in Hc; [contradiction |].
  apply in_map_iff in Hc. destruct Hc as (c0 & E & Hin). injection E as ->. auto.
Qed.

Lemma aggregated_internal_inv m :
  aggregated m -> children m <> [] ->
  exists a, star m = Some a /\
            mass (deref a) = massSum (bodies m) /\
            0 < mass (deref a) /\
            px (pos a) = momentX (bodies m) / massSum (bodies m) /\
            py (pos a) = momentY (bodies m) / massSum (bodies m).
Proof.
  intros Hm Hc. inversion Hm as [q st | q a cs Hne Hall Hmass Hpos Hx Hy]; subst m.
  - now simpl in Hc.
  - exists a. rewrite bodies_internal by trivial. repeat split; trivial.
Qed.

(** ** GenerateQuadTree *)

Lemma GenerateQuadTree_of_insertAll fuel u next root1 :
  insertAll fuel (width u) (stars u) (mkNode (mkQuadrant 0 0 (width u)) None [])
  = Done root1 ->
  exists n next',
    GenerateQuadTree fuel u next = Done (mkQuadTree (Some n), next') /\
    sector n = mkQuadrant 0 0 (width u) /\
    Permutation (bodies n) (inDomain u) /\
    ((forall b, In b (inDomain u) -> 0 < mass (deref b)) -> aggregated n).
Proof.
  intros H.
  destruct (@insertAll_built fuel (width u) (stars u)
              (mkNode (mkQuadrant 0 0 (width u)) None []))
    as [H0 | (root' & H' & Hb & Hs & Hp)];
    [constructor | reflexivity | congruence |].
  assert (root' = root1) by congruence. subst root'.
  destruct (ComputeCenterAndMass_built Hb next) as (n & next' & Hc & Hbod & Hsec & Hagg).
  exists n, next'. unfold GenerateQuadTree. rewrite H. cbn [bind]. rewrite Hc.
  cbn [bind]. split; [reflexivity |].
  simpl in Hp. rewrite app_nil_r in Hp. fold (inDomain u) in Hp.
  split; [congruence |]. split; [now rewrite Hbod |].
  intros Hpos. apply Hagg. intros b Hin. apply Hpos.
  eapply Permutation_in; eauto.
Qed.

Lemma GenerateQuadTree_outcome fuel u next :
  GenerateQuadTree fuel u next = OutOfFuel \/
  exists n next',
    GenerateQuadTree fuel u next = Done (mkQuadTree (Some n), next') /\
    sector n = mkQuadrant 0 0 (width u) /\
    Permutation (bodies n) (inDomain u) /\
    ((forall b, In b (inDomain u) -> 0 < mass (deref b)) -> aggregated n).
Proof.
  destruct (@insertAll_built fuel (width u) (stars u)
              (mkNode (mkQuadrant 0 0 (width u)) None []))
    as [H0 | (root' & H' & _)]; [constructor | reflexivity | |].
  - left. unfold GenerateQuadTree. now rewrite H0.
  - right. eapply GenerateQuadTree_of_insertAll; eauto.
Qed.

Lemma GenerateQuadTree_total u next :
  NoDup (map pos (inDomain u)) ->
  exists F, forall fuel, (F <= fuel)%nat ->
    exists n next',
      GenerateQuadTree fuel u next = Done (mkQuadTree (Some n), next') /\
      sector n = mkQuadrant 0 0 (width u) /\
      Permutation (bodies n) (inDomain u) /\
      ((forall b, In b (inDomain u) -> 0 < mass (deref b)) -> aggregated n).
Proof.
  intros Hnd.
  destruct (@insertAll_total (width u) (stars u)
              (mkNode (mkQuadrant 0 0 (width u)) None [])) as [F HF];
    [constructor | reflexivity | simpl; now rewrite app_nil_r |].
  exists F. intros fuel Hf. destruct (HF fuel Hf) as [root1 H1].
  eapply GenerateQuadTree_of_insertAll; eauto.
Qed.

Lemma insertAll_filter fuel w ss :
  forall root,
    insertAll fuel w (filter (fun s => IsInsideUniverse s w) ss) root
    = insertAll fuel w ss root.
Proof.
  induction ss as [| s ss IH]; intros root; simpl; trivial.
  destruct (IsInsideUniverse s w) eqn:E; simpl; rewrite ?E; trivial.
  destruct (InsertStar fuel root s); simpl; trivial.
Qed.

(** ** The traversal adds up the forces of the bodies *)

Lemma pair_eq p q : px p = px q -> py p = py q -> p = q.
Proof. destruct p, q; simpl; intros; subst; reflexivity. Qed.

Lemma padd_zero_r p : padd p zeroPair = p.
Proof. apply pair_eq; simpl; lra. Qed.

Lemma padd_zero_l p : padd zeroPair p = p.
Proof. apply pair_eq; simpl; lra. Qed.

Lemma padd_assoc p q r : padd p (padd q r) = padd (padd p q) r.
Proof. apply pair_eq; simpl; lra. Qed.

Lemma padd_comm p q : padd p q = padd q p.
Proof. apply pair_eq; simpl; lra. Qed.

Lemma pairSum_app l1 l2 : pairSum (l1 ++ l2) = padd (pairSum l1) (pairSum l2).
Proof.
  induction l1 as [| p l1 IH]; simpl.
  - now rewrite padd_zero_l.
  - now rewrite IH, padd_assoc.
Qed.

Lemma pairSum_perm l1 l2 : Permutation l1 l2 -> pairSum l1 = pairSum l2.
Proof.
  induction 1; simpl; trivial.
  - now rewrite IHPermutation.
  - rewrite !padd_assoc. f_equal. apply padd_comm.
  - congruence.
Qed.

Lemma pairSum_flat_map (g : ptr Star -> OrderedPair) cs :
  pairSum (map g (flat_map bodies cs))
  = pairSum (map (fun c => pairSum (map g (bodies c))) cs).
Proof.
  induction cs as [| c cs IH]; simpl; trivial.
  now rewrite map_app, pairSum_app, IH.
Qed.

Lemma CalculateNetForce_children_sum rec (g : Node -> OrderedPair) cs :
  (forall c, In c cs -> rec c = Done (g c)) ->
  forall force,
    CalculateNetForce_children rec (map Some cs) force
    = Done (padd force (pairSum (map g cs))).
Proof.
  induction cs as [| c cs IH]; intros H force; simpl.
  - now rewrite padd_zero_r.
  - rewrite (H c) by now left. cbn [bind].
    rewrite IH by (intros; apply H; now right).
    f_equal. now rewrite padd_assoc.
Qed.

Lemma IsLeaf_internal q st cs : cs <> [] -> IsLeaf (mkNode q st (map Some cs)) = false.
Proof. destruct cs; [congruence | reflexivity]. Qed.

Lemma CalculateNetForce_aggregated n target theta :
  aggregated n ->
  (forall b, In b (bodies n) -> 0 < mass (deref b)) ->
  CalculateNetForce_node n target theta
  = Done (pairSum (map (pairForce target) (bodies n))).
Proof.
  induction 1 as [q st | q a cs Hne Hall IH Hmass Hpos Hx Hy]; intros Hb.
  - rewrite CalculateNetForce_node_eq. destruct st as [s|]; [| reflexivity].
    assert (0 < mass (deref s)) by (apply Hb; now left).
    rewrite Reqb_false by lra.
    cbn [bodies map pairSum fold_right]. unfold pairForce.
    change (IsLeaf (mkNode q (Some s) [])) with true. cbn [andb].
    destruct (ptr_eqb s target); cbn [negb].
    + rewrite openingTest_zero. cbn [bind CalculateNetForce_children].
      now rewrite padd_zero_r.
    + rewrite leafForce_newton. now rewrite padd_zero_r.
  - rewrite CalculateNetForce_node_eq.
    rewrite Reqb_false by lra.
    rewrite IsLeaf_internal by trivial. cbn [andb].
    rewrite openingTest_zero. cbn [bind].
    rewrite bodies_internal in * by trivial.
    rewrite (CalculateNetForce_children_sum _
               (fun c => pairSum (map (pairForce target) (bodies c)))).
    + now rewrite padd_zero_l, pairSum_flat_map.
    + intros c Hc. apply IH; trivial. intros b Hin. apply Hb.
      apply in_flat_map. eauto.
Qed.

Lemma DirectNetForce_eq others target :
  DirectNetForce others target = Done (pairSum (map (pairForce target) others)).
Proof.
  induction others as [| b rest IH]; simpl; trivial.
  rewrite IH. unfold pairForce at 2.
  destruct (ptr_eqb b target); [reflexivity |].
  now rewrite ComputeForce_newton.
Qed.

Lemma inDomain_all u :
  (forall s, In s (stars u) -> IsInsideUniverse s (width u) = true) ->
  inDomain u = stars u.
Proof.
  unfold inDomain. generalize (stars u). intros l H.
  induction l as [| s l IH]; simpl; trivial.
  rewrite (H s) by now left. f_equal. apply IH. intros; apply H; now right.
Qed.

Lemma ComputeCenterAndMass_nochildren c next :
  children c = [] -> ComputeCenterAndMass c next = Done (c, next).
Proof. destruct c as [q st cs]; simpl; intros ->; reflexivity. Qed.

Lemma ComputeCenterAndMass_children_leaves cs :
  (forall c, In c cs -> children c = []) ->
  forall tm xc yc next,
  exists tm' xc' yc',
    ComputeCenterAndMass_children ComputeCenterAndMass (map Some cs) tm xc yc next
    = Done (map Some cs, tm', xc', yc', next) /\
    tm' = tm + sumOver nodeMass cs /\
    xc' = xc + sumOver nodeMomentX cs /\
    yc' = yc + sumOver nodeMomentY cs.
Proof.
  induction cs as [| c cs IH]; intros H tm xc yc next.
  - exists tm, xc, yc. simpl. repeat split; trivial; lra.
  - cbn [map ComputeCenterAndMass_children].
    rewrite ComputeCenterAndMass_nochildren by (apply H; now left).
    cbn [bind].
    assert (IH' := fun tm xc yc => IH (fun d Hd => H d (or_intror Hd)) tm xc yc next).
    unfold nodeMass, nodeMomentX, nodeMomentY, sumOver in *.
    destruct (star c) as [st|] eqn:Est.
    + destruct (IH' (tm + mass (deref st)) (xc + mass (deref st) * px (pos st))
                  (yc + mass (deref st) * py (pos st)))
        as (tm' & xc' & yc' & -> & Htm & Hxc & Hyc).
      cbn [bind]. exists tm', xc', yc'. split; [reflexivity |].
      cbn [fold_right]. rewrite Est. repeat split; lra.
    + destruct (IH' tm xc yc) as (tm' & xc' & yc' & -> & Htm & Hxc & Hyc).
      cbn [bind]. exists tm', xc', yc'. split; [reflexivity |].
      cbn [fold_right]. rewrite Est. repeat split; lra.
Qed.

Lemma sumOver_nodeMass_nonneg cs :
  (forall c s, In c cs -> star c = Some s -> 0 < mass (deref s)) ->
  0 <= sumOver nodeMass cs.
Proof.
  induction cs as [| c cs IH]; intros H; simpl; [lra |].
  assert (0 <= sumOver nodeMass cs)
    by (apply IH; intros c' s' Hc' Es'; apply (H c' s'); [now right | trivial]).
  unfold nodeMass at 1. destruct (star c) as [s|] eqn:Es; [| lra].
  assert (0 < mass (deref s)) by (apply (H c s); [now left | trivial]). lra.
Qed.

Lemma sumOver_nodeMass_pos cs :
  (forall c s, In c cs -> star c = Some s -> 0 < mass (deref s)) ->
  (exists c s, In c cs /\ star c = Some s) ->
  0 < sumOver nodeMass cs.
Proof.
  induction cs as [| c cs IH]; intros H (c0 & s0 & Hin & Es); [contradiction |].
  simpl.
  assert (Hrest : 0 <= sumOver nodeMass cs)
    by (apply sumOver_nodeMass_nonneg; intros c' s' Hc' Es';
        apply (H c' s'); [now right | trivial]).
  destruct Hin as [<- | Hin].
  - unfold nodeMass at 1. rewrite Es.
    assert (0 < mass (deref s0)) by (apply (H c s0); [now left | trivial]). lra.
  - assert (0 < sumOver nodeMass cs)
      by (apply IH; [intros c' s' Hc' Es'; apply (H c' s'); [now right | trivial]
                    | eauto]).
    unfold nodeMass at 1. destruct (star c) as [s|] eqn:Ec; [| lra].
    assert (0 < mass (deref s)) by (apply (H c s); [now left | trivial]). lra.
Qed.

(** ** The binary64 embedding: InsertStar and ComputeCenterAndMass *)

Lemma F64_FindQuadrant_lt q s : (F64.FindQuadrant q s < 4)%nat.
Proof.
  unfold F64.FindQuadrant.
  repeat match goal with |- context [if ?b then _ else _] => destruct b end; lia.
Qed.

Lemma F64_FindQuadrant_pos q a b :
  F64.pos a = F64.pos b -> F64.FindQuadrant q a = F64.FindQuadrant q b.
Proof. intros H. unfold F64.FindQuadrant. now rewrite H. Qed.

Lemma F64_emptyQuads_nth q i :
  (i < 4)%nat ->
  nth_error (F64.emptyQuads q) i = Some (F64.mkNode (F64.quadrantOf q i) None []).
Proof.
  intros H. destruct i as [|[|[|[|i]]]]; try reflexivity. lia.
Qed.

Lemma F64_setNth_nth_same i c cs :
  (i < length cs)%nat -> nth_error (F64.setNth i c cs) i = Some c.
Proof.
  intros H. unfold F64.setNth. rewrite nth_error_app2; rewrite firstn_length_le by lia.
  - now rewrite Nat.sub_diag.
  - lia.
Qed.

Lemma F64_setNth_nth_other i j c cs :
  (i < length cs)%nat -> i <> j -> nth_error (F64.setNth i c cs) j = nth_error cs j.
Proof.
  unfold F64.setNth. revert i j.
  induction cs as [| c0 cs IH]; intros i j Hi Hij; simpl in Hi.
  - lia.
  - destruct i as [| i], j as [| j]; simpl; try congruence.
    apply IH; [lia | congruence].
Qed.

Lemma F64_onChild_map f q st cs idx c :
  nth_error cs idx = Some c ->
  F64.onChild f (F64.mkNode q st (map Some cs)) idx =
  (c' <- f c ;; Done (F64.mkNode q st (map Some (F64.setNth idx c' cs)))).
Proof.
  intros H. unfold F64.onChild. cbn [F64.children F64.sector F64.star].
  rewrite nth_error_map, H. cbn [option_map].
  destruct (f c) as [c' | | |]; cbn [bind]; trivial.
  unfold F64.setNth. now rewrite map_app, firstn_map, skipn_map.
Qed.

Lemma F64_InsertStar_empty f q s :
  F64.InsertStar (S f) (F64.mkNode q None []) s = Done (F64.mkNode q (Some s) []).
Proof. reflexivity. Qed.

Lemma F64_InsertStar_leaf f q o s :
  F64.InsertStar (S f) (F64.mkNode q (Some o) []) s =
  (node3 <- F64.onChild (fun c => F64.InsertStar f c o)
              (F64.mkNode q None (map Some (F64.emptyQuads q))) (F64.FindQuadrant q o) ;;
   F64.onChild (fun c => F64.InsertStar f c s) node3
     (F64.FindQuadrant (F64.sector node3) s)).
Proof. reflexivity. Qed.

Lemma F64_InsertStar_internal f q st c cs s :
  F64.InsertStar (S f) (F64.mkNode q st (c :: cs)) s =
  F64.onChild (fun c0 => F64.InsertStar f c0 s) (F64.mkNode q st (c :: cs))
    (F64.FindQuadrant q s).
Proof. destruct st; reflexivity. Qed.

(** One level of InsertStar on a leaf: the body of the leaf goes to its
    child, and the new body is inserted into the child that FindQuadrant
    gives it. *)
Lemma F64_InsertStar_leaf_step f q o s :
  F64.InsertStar (S (S f)) (F64.mkNode q (Some o) []) s =
  if Nat.eqb (F64.FindQuadrant q o) (F64.FindQuadrant q s) then
    c' <- F64.InsertStar (S f)
            (F64.mkNode (F64.quadrantOf q (F64.FindQuadrant q o)) (Some o) []) s ;;
    Done (F64.mkNode q None
            (map Some (F64.setNth (F64.FindQuadrant q s) c'
                         (F64.setNth (F64.FindQuadrant q o)
                            (F64.mkNode (F64.quadrantOf q (F64.FindQuadrant q o)) (Some o) [])
                            (F64.emptyQuads q)))))
  else
    Done (F64.mkNode q None
            (map Some (F64.setNth (F64.FindQuadrant q s)
                         (F64.mkNode (F64.quadrantOf q (F64.FindQuadrant q s)) (Some s) [])
                         (F64.setNth (F64.FindQuadrant q o)
                            (F64.mkNode (F64.quadrantOf q (F64.FindQuadrant q o)) (Some o) [])
                            (F64.emptyQuads q))))).
Proof.
  rewrite F64_InsertStar_leaf.
  pose proof (F64_FindQuadrant_lt q o) as Hlto.
  pose proof (F64_FindQuadrant_lt q s) as Hlts.
  rewrite (F64_onChild_map _ _ _ _ _ (F64_emptyQuads_nth q Hlto)).
  rewrite F64_InsertStar_empty. cbn [bind F64.sector].
  destruct (Nat.eqb_spec (F64.FindQuadrant q o) (F64.FindQuadrant q s)) as [E | N].
  - rewrite (@F64_onChild_map _ _ _ _ _
               (F64.mkNode (F64.quadrantOf q (F64.FindQuadrant q o)) (Some o) []));
      [reflexivity |].
    rewrite <- E. now apply F64_setNth_nth_same.
  - rewrite (@F64_onChild_map _ _ _ _ _
               (F64.mkNode (F64.quadrantOf q (F64.FindQuadrant q s)) None []));
      [now rewrite F64_InsertStar_empty |].
    rewrite F64_setNth_nth_other; trivial. now apply F64_emptyQuads_nth.
Qed.

Lemma F64_sectorAt_S q s k :
  F64.sectorAt q s (S k) =
  F64.quadrantOf (F64.sectorAt q s k) (F64.FindQuadrant (F64.sectorAt q s k) s).
Proof. revert q. induction k as [| k IH]; intros q; [reflexivity |]. apply (IH _). Qed.

(** InsertStar into a leaf never returns when no level of the subdivision
    separates the two F64.bodies. *)
Lemma F64_InsertStar_leaf_loops f :
  forall q a b,
    (forall k, F64.FindQuadrant (F64.sectorAt q a k) a = F64.FindQuadrant (F64.sectorAt q a k) b) ->
    F64.InsertStar f (F64.mkNode q (Some a) []) b = OutOfFuel.
Proof.
  induction f as [| f IH]; intros q a b H; [reflexivity |].
  destruct f as [| f].
  - rewrite F64_InsertStar_leaf.
    rewrite (F64_onChild_map _ _ _ _ _ (F64_emptyQuads_nth q (F64_FindQuadrant_lt q a))).
    reflexivity.
  - rewrite F64_InsertStar_leaf_step.
    pose proof (H 0%nat) as H0. cbn [F64.sectorAt] in H0.
    rewrite <- H0, Nat.eqb_refl.
    rewrite IH; [reflexivity |].
    intros k. exact (H (S k)).
Qed.

(** It returns, with recursion depth [k + 2], when level [k] does. *)
Lemma F64_InsertStar_leaf_returns k :
  forall q a b,
    F64.FindQuadrant (F64.sectorAt q a k) a <> F64.FindQuadrant (F64.sectorAt q a k) b ->
    forall f, (k + 2 <= f)%nat ->
    exists n', F64.InsertStar f (F64.mkNode q (Some a) []) b = Done n'.
Proof.
  induction k as [| k IH]; intros q a b H f Hf.
  - destruct f as [| [| f]]; try lia.
    rewrite F64_InsertStar_leaf_step.
    destruct (Nat.eqb_spec (F64.FindQuadrant q a) (F64.FindQuadrant q b)) as [E | N];
      [now elim H | eauto].
  - destruct f as [| [| f]]; try lia.
    rewrite F64_InsertStar_leaf_step.
    destruct (Nat.eqb_spec (F64.FindQuadrant q a) (F64.FindQuadrant q b)) as [E | N];
      [| eauto].
    destruct (IH (F64.quadrantOf q (F64.FindQuadrant q a)) a b H (S f)) as [c' ->]; [lia |].
    cbn [bind]. eauto.
Qed.

Lemma F64_InsertStar_leaf_separates f :
  forall q a b n',
    F64.InsertStar f (F64.mkNode q (Some a) []) b = Done n' ->
    exists k, (k + 2 <= f)%nat /\
      F64.FindQuadrant (F64.sectorAt q a k) a <> F64.FindQuadrant (F64.sectorAt q a k) b.
Proof.
  induction f as [| f IH]; intros q a b n' H; [discriminate |].
  destruct f as [| f].
  - rewrite F64_InsertStar_leaf in H.
    rewrite (F64_onChild_map _ _ _ _ _ (F64_emptyQuads_nth q (F64_FindQuadrant_lt q a))) in H.
    discriminate.
  - rewrite F64_InsertStar_leaf_step in H.
    destruct (Nat.eqb_spec (F64.FindQuadrant q a) (F64.FindQuadrant q b)) as [E | N].
    + destruct (F64.InsertStar (S f) _ b) as [c' | | |] eqn:Ec; try discriminate.
      destruct (IH _ _ _ _ Ec) as (k & Hk & Hsep).
      exists (S k). split; [lia | exact Hsep].
    + exists 0%nat. split; [lia | exact N].
Qed.

Lemma F64_sameQuadrants_spec k :
  forall q a b, F64.sameQuadrants k q a b = true ->
  forall j, (j < k)%nat ->
    F64.FindQuadrant (F64.sectorAt q a j) a = F64.FindQuadrant (F64.sectorAt q a j) b.
Proof.
  induction k as [| k IH]; intros q a b H j Hj; [lia |].
  cbn [F64.sameQuadrants] in H. apply andb_true_iff in H. destruct H as [H0 H1].
  destruct j as [| j].
  - now apply Nat.eqb_eq.
  - cbn [F64.sectorAt]. apply (IH _ _ _ H1 j). lia.
Qed.

Lemma F64_sectorAt_add q s j k : F64.sectorAt q s (j + k) = F64.sectorAt (F64.sectorAt q s j) s k.
Proof. revert q. induction j as [| j IH]; intros q; [reflexivity |]. apply (IH _). Qed.

Lemma F64_sectorAt_fixed q s :
  F64.quadrantOf q (F64.FindQuadrant q s) = q -> forall k, F64.sectorAt q s k = q.
Proof.
  intros H k. induction k as [| k IH]; [reflexivity |].
  cbn [F64.sectorAt]. now rewrite H.
Qed.

(** No level of the subdivision separates [a] and [b] when the first [k]
    levels do not and the square reached then is its own child. *)
Lemma F64_sameQuadrants_for_ever k q a b :
  F64.sameQuadrants (S k) q a b = true ->
  F64.quadrantOf (F64.sectorAt q a k) (F64.FindQuadrant (F64.sectorAt q a k) a) = F64.sectorAt q a k ->
  forall j, F64.FindQuadrant (F64.sectorAt q a j) a = F64.FindQuadrant (F64.sectorAt q a j) b.
Proof.
  intros H Hfix j.
  destruct (Nat.lt_ge_cases j (S k)) as [Hlt | Hge].
  - now apply (@F64_sameQuadrants_spec (S k) q a b H).
  - replace j with (k + (j - k))%nat by lia.
    rewrite F64_sectorAt_add, (@F64_sectorAt_fixed _ _ Hfix).
    apply (@F64_sameQuadrants_spec (S k) q a b H k). lia.
Qed.

Lemma F64_setNth_length i c cs :
  (i < length cs)%nat -> length (F64.setNth i c cs) = length cs.
Proof.
  intros H. unfold F64.setNth. rewrite length_app. cbn [length].
  rewrite firstn_length_le by lia. rewrite length_skipn. lia.
Qed.

Lemma F64_onChild_mono (f1 f2 : F64.Node -> outcome F64.Node) n i n' :
  (forall c c', f1 c = Done c' -> f2 c = Done c') ->
  F64.onChild f1 n i = Done n' -> F64.onChild f2 n i = Done n'.
Proof.
  intros H. unfold F64.onChild.
  destruct (nth_error (F64.children n) i) as [[c|]|]; try discriminate.
  destruct (f1 c) as [c' | | |] eqn:E; try discriminate.
  now rewrite (H _ _ E).
Qed.

Lemma F64_InsertStar_mono f :
  forall n s n', F64.InsertStar f n s = Done n' ->
  forall f', (f <= f')%nat -> F64.InsertStar f' n s = Done n'.
Proof.
  induction f as [| f IH]; intros n s n' H f' Hle; [discriminate |].
  destruct f' as [| f']; [lia |].
  assert (Hf : (f <= f')%nat) by lia.
  destruct n as [q [o|] [| c cs]].
  - rewrite F64_InsertStar_leaf in *.
    apply bind_Done in H. destruct H as (node3 & H1 & H2).
    apply (@F64_onChild_mono _ (fun c => F64.InsertStar f' c o)) in H1;
      [| intros c c' Hc; now apply (IH _ _ _ Hc)].
    rewrite H1. cbn [bind]. eapply F64_onChild_mono; [| exact H2].
    intros c c' Hc. now apply (IH _ _ _ Hc).
  - rewrite F64_InsertStar_internal in *. eapply F64_onChild_mono; [| exact H].
    intros c0 c' Hc. now apply (IH _ _ _ Hc).
  - exact H.
  - rewrite F64_InsertStar_internal in *. eapply F64_onChild_mono; [| exact H].
    intros c0 c' Hc. now apply (IH _ _ _ Hc).
Qed.

Lemma F64_quadrantStars_snoc_same q l s :
  F64.quadrantStars q (F64.FindQuadrant q s) (l ++ [s])
  = F64.quadrantStars q (F64.FindQuadrant q s) l ++ [s].
Proof.
  unfold F64.quadrantStars. rewrite filter_app. simpl. now rewrite Nat.eqb_refl.
Qed.

Lemma F64_quadrantStars_snoc_other q l s j :
  F64.FindQuadrant q s <> j -> F64.quadrantStars q j (l ++ [s]) = F64.quadrantStars q j l.
Proof.
  intros H. unfold F64.quadrantStars. rewrite filter_app. simpl.
  destruct (Nat.eqb_spec (F64.FindQuadrant q s) j); [contradiction | apply app_nil_r].
Qed.

Lemma F64_treeOf_children_leaf q o :
  let cs1 := F64.setNth (F64.FindQuadrant q o)
               (F64.mkNode (F64.quadrantOf q (F64.FindQuadrant q o)) (Some o) [])
               (F64.emptyQuads q) in
  length cs1 = 4%nat /\
  forall j d, nth_error cs1 j = Some d ->
              F64.treeOf (F64.quadrantOf q j) (F64.quadrantStars q j [o]) d.
Proof.
  intros cs1. pose proof (F64_FindQuadrant_lt q o) as Hlt.
  split; [unfold cs1; now rewrite F64_setNth_length |].
  intros j d Hj. unfold cs1 in Hj. unfold F64.quadrantStars. simpl.
  destruct (Nat.eq_dec (F64.FindQuadrant q o) j) as [<- | Hne].
  - rewrite F64_setNth_nth_same in Hj by trivial. injection Hj as <-.
    rewrite Nat.eqb_refl. constructor.
  - rewrite F64_setNth_nth_other in Hj by trivial.
    assert (Hj4 : (j < 4)%nat)
      by (apply (nth_error_Some (F64.emptyQuads q)); congruence).
    rewrite F64_emptyQuads_nth in Hj by trivial. injection Hj as <-.
    destruct (Nat.eqb_spec (F64.FindQuadrant q o) j); [contradiction | constructor].
Qed.

Lemma F64_treeOf_children_step f q st l cs s n' :
  (forall q0 l0 n0 n0', F64.treeOf q0 l0 n0 -> F64.InsertStar f n0 s = Done n0' ->
                        F64.treeOf q0 (l0 ++ [s]) n0') ->
  length cs = 4%nat ->
  (forall j d, nth_error cs j = Some d ->
               F64.treeOf (F64.quadrantOf q j) (F64.quadrantStars q j l) d) ->
  F64.onChild (fun c => F64.InsertStar f c s) (F64.mkNode q st (map Some cs))
    (F64.FindQuadrant q s) = Done n' ->
  exists cs',
    n' = F64.mkNode q st (map Some cs') /\ length cs' = 4%nat /\
    forall j d, nth_error cs' j = Some d ->
                F64.treeOf (F64.quadrantOf q j) (F64.quadrantStars q j (l ++ [s])) d.
Proof.
  intros IH Hlen Hall H.
  pose proof (F64_FindQuadrant_lt q s) as Hlt.
  destruct (nth_error cs (F64.FindQuadrant q s)) as [c |] eqn:Hc;
    [| apply nth_error_None in Hc; lia].
  rewrite (@F64_onChild_map _ q st cs _ c Hc) in H.
  apply bind_Done in H. destruct H as (c' & Ec & H). injection H as <-.
  exists (F64.setNth (F64.FindQuadrant q s) c' cs).
  split; [reflexivity |]. split; [rewrite F64_setNth_length; lia |].
  intros j d Hj. destruct (Nat.eq_dec (F64.FindQuadrant q s) j) as [<- | Hne].
  - rewrite F64_setNth_nth_same in Hj by lia. injection Hj as <-.
    rewrite F64_quadrantStars_snoc_same. eapply IH; eauto.
  - rewrite F64_setNth_nth_other in Hj by (trivial; lia).
    rewrite F64_quadrantStars_snoc_other by trivial. auto.
Qed.

Lemma F64_InsertStar_treeOf s f :
  forall q l n n', F64.treeOf q l n -> F64.InsertStar f n s = Done n' ->
                   F64.treeOf q (l ++ [s]) n'.
Proof.
  induction f as [| f IH]; intros q l n n' Ht H; [discriminate |].
  inversion Ht as [q0 | q0 o | q0 l0 cs Hlen Hcs Hall]; subst.
  - rewrite F64_InsertStar_empty in H. injection H as <-. constructor.
  - rewrite F64_InsertStar_leaf in H.
    apply bind_Done in H. destruct H as (node3 & E3 & H).
    pose proof (F64_FindQuadrant_lt q o) as Hlt.
    rewrite (@F64_onChild_map _ q None (F64.emptyQuads q) _ _ (F64_emptyQuads_nth q Hlt)) in E3.
    apply bind_Done in E3. destruct E3 as (co & Eo & E3). injection E3 as <-.
    destruct f as [| f']; [discriminate |].
    rewrite F64_InsertStar_empty in Eo. injection Eo as <-.
    cbn [F64.sector] in H.
    destruct (F64_treeOf_children_leaf q o) as (Hl1 & Hall1).
    destruct (@F64_treeOf_children_step (S f') q None [o] _ s n' IH Hl1 Hall1 H)
      as (cs' & -> & Hl' & Hall').
    apply F64.treeOf_internal; trivial; simpl; lia.
  - assert (Hne : exists c cs0, map Some cs = c :: cs0).
    { destruct cs as [| c cs]; [discriminate | simpl; eauto]. }
    destruct Hne as (c & cs0 & E). rewrite E in H.
    rewrite F64_InsertStar_internal in H. rewrite <- E in H.
    destruct (@F64_treeOf_children_step f q None l cs s n' IH Hcs Hall H)
      as (cs' & -> & Hl' & Hall').
    apply F64.treeOf_internal; trivial; rewrite length_app; simpl; lia.
Qed.

Lemma F64_separated_child q o s :
  F64.FindQuadrant q o = F64.FindQuadrant q s ->
  F64.separated q o s <-> F64.separated (F64.quadrantOf q (F64.FindQuadrant q s)) o s.
Proof.
  intros E. unfold F64.separated. split.
  - intros [[| k] Hk]; [now elim Hk |].
    cbn [F64.sectorAt] in Hk. rewrite E in Hk. eauto.
  - intros [k Hk]. exists (S k). cbn [F64.sectorAt]. now rewrite E.
Qed.

Lemma F64_quadrantStars_In q i l o :
  In o (F64.quadrantStars q i l) <-> In o l /\ F64.FindQuadrant q o = i.
Proof.
  unfold F64.quadrantStars. rewrite filter_In. now rewrite Nat.eqb_eq.
Qed.

(** InsertStar returns when the subdivision separates the new body from
    every body of the tree. *)
Lemma F64_InsertStar_returns s q l n :
  F64.treeOf q l n ->
  (forall o, In o l -> F64.separated q o s) ->
  exists F, forall f, (F <= f)%nat -> exists n', F64.InsertStar f n s = Done n'.
Proof.
  induction 1 as [q | q o | q l cs Hlen Hcs Hall IH]; intros Hsep.
  - exists 1%nat. intros [| f] Hf; [lia |]. rewrite F64_InsertStar_empty. eauto.
  - destruct (Hsep o (or_introl eq_refl)) as [k Hk].
    exists (k + 2)%nat. intros f Hf.
    now apply (@F64_InsertStar_leaf_returns k q o s Hk f).
  - pose proof (F64_FindQuadrant_lt q s) as Hlt.
    destruct (nth_error cs (F64.FindQuadrant q s)) as [c |] eqn:Hc;
      [| apply nth_error_None in Hc; lia].
    destruct (IH _ _ Hc) as [F HF].
    { intros o Ho. apply F64_quadrantStars_In in Ho. destruct Ho as [Ho E].
      apply (proj1 (@F64_separated_child q o s E)). now apply Hsep. }
    exists (S F). intros [| f] Hf; [lia |].
    destruct cs as [| c0 cs]; [discriminate |].
    cbn [map]. rewrite F64_InsertStar_internal.
    change (Some c0 :: map Some cs) with (map Some (c0 :: cs)).
    rewrite (@F64_onChild_map _ _ _ _ _ c Hc).
    destruct (HF f) as [c' ->]; [lia |]. cbn [bind]. eauto.
Qed.

(** And only then. *)
Lemma F64_InsertStar_separates s f :
  forall q l n n',
    F64.treeOf q l n -> F64.InsertStar f n s = Done n' ->
    forall o, In o l -> F64.separated q o s.
Proof.
  induction f as [| f IH]; intros q l n n' Ht H o Ho; [discriminate |].
  inversion Ht as [q0 | q0 o0 | q0 l0 cs Hlen Hcs Hall]; subst.
  - contradiction.
  - destruct Ho as [<- | []].
    destruct (F64_InsertStar_leaf_separates _ _ _ _ H) as (k & _ & Hk).
    now exists k.
  - destruct (Nat.eq_dec (F64.FindQuadrant q o) (F64.FindQuadrant q s)) as [E | N];
      [| now exists 0%nat].
    apply (proj2 (@F64_separated_child q o s E)).
    pose proof (F64_FindQuadrant_lt q s) as Hlt.
    destruct (nth_error cs (F64.FindQuadrant q s)) as [c |] eqn:Hc;
      [| apply nth_error_None in Hc; lia].
    destruct cs as [| c0 cs0] eqn:Ecs; [discriminate |].
    cbn [map] in H. rewrite F64_InsertStar_internal in H.
    change (Some c0 :: map Some cs0) with (map Some (c0 :: cs0)) in H.
    rewrite (@F64_onChild_map _ _ _ _ _ c Hc) in H.
    apply bind_Done in H. destruct H as (c' & Ec & _).
    apply (IH _ _ _ _ (Hall _ _ Hc) Ec).
    apply F64_quadrantStars_In. auto.
Qed.

Lemma ForallOrdPairs_snoc (A : Type) (R : A -> A -> Prop) l s :
  ForallOrdPairs R l -> (forall o, In o l -> R o s) -> ForallOrdPairs R (l ++ [s]).
Proof.
  induction 1 as [| a l Ha Hl IH]; intros H; simpl.
  - constructor; constructor.
  - constructor.
    + apply Forall_app. split; [exact Ha |]. constructor; [| constructor].
      apply H. now left.
    + apply IH. intros o Ho. apply H. now right.
Qed.

Lemma ForallOrdPairs_middle (A : Type) (R : A -> A -> Prop) l s rest :
  ForallOrdPairs R (l ++ s :: rest) -> forall o, In o l -> R o s.
Proof.
  induction l as [| a l IH]; intros H o Ho; [contradiction |].
  simpl in H. inversion H as [| a0 l0 Ha Hl]; subst.
  destruct Ho as [<- | Ho].
  - rewrite Forall_forall in Ha. apply Ha. apply in_or_app. right. now left.
  - now apply IH.
Qed.

Lemma F64_insertAll_returns w q ss :
  forall l root,
    F64.treeOf q l root ->
    ForallOrdPairs (F64.separated q) (l ++ filter (fun s => F64.IsInsideUniverse s w) ss) ->
    exists F, forall f, (F <= f)%nat -> exists r, F64.insertAll f w ss root = Done r.
Proof.
  induction ss as [| s ss IH]; intros l root Ht Hsep; cbn [F64.insertAll filter] in *.
  - exists 0%nat. eauto.
  - destruct (F64.IsInsideUniverse s w); [| now apply (IH l)].
    destruct (@F64_InsertStar_returns s q l root Ht) as [F1 HF1].
    { exact (@ForallOrdPairs_middle _ _ l s _ Hsep). }
    destruct (HF1 F1 (le_n _)) as [root1 H1].
    destruct (IH (l ++ [s]) root1) as [F2 HF2].
    + exact (@F64_InsertStar_treeOf s F1 q l root root1 Ht H1).
    + now rewrite <- app_assoc.
    + exists (Nat.max F1 F2). intros f Hf.
      rewrite (@F64_InsertStar_mono F1 root s root1 H1 f) by lia. cbn [bind].
      apply HF2. lia.
Qed.

Lemma F64_insertAll_separates w q fuel ss :
  forall l root r,
    F64.treeOf q l root ->
    ForallOrdPairs (F64.separated q) l ->
    F64.insertAll fuel w ss root = Done r ->
    ForallOrdPairs (F64.separated q) (l ++ filter (fun s => F64.IsInsideUniverse s w) ss).
Proof.
  induction ss as [| s ss IH]; intros l root r Ht Hl H; cbn [F64.insertAll filter] in *.
  - now rewrite app_nil_r.
  - destruct (F64.IsInsideUniverse s w); [| now apply (IH l root r)].
    apply bind_Done in H. destruct H as (root1 & H1 & H).
    change (s :: filter (fun s0 => F64.IsInsideUniverse s0 w) ss)
      with ([s] ++ filter (fun s0 => F64.IsInsideUniverse s0 w) ss).
    rewrite app_assoc. apply (IH _ root1 r); trivial.
    + exact (@F64_InsertStar_treeOf s fuel q l root root1 Ht H1).
    + apply ForallOrdPairs_snoc; trivial.
      exact (@F64_InsertStar_separates s fuel q l root root1 Ht H1).
Qed.

Lemma F64_ComputeCenterAndMass_children_spec rec cs :
  forall acc next cs' t x y next',
    F64.ComputeCenterAndMass_children rec cs (fst (fst acc)) (snd (fst acc)) (snd acc) next
    = Done (cs', t, x, y, next') ->
    (t, x, y) = fold_left F64.accumulate cs' acc /\
    forall c', In (Some c') cs' ->
      exists c k k', In (Some c) cs /\ rec c k = Done (c', k').
Proof.
  induction cs as [| oc cs IH]; intros [[t0 x0] y0] next cs' t x y next' H;
    cbn [F64.ComputeCenterAndMass_children fst snd] in H.
  - injection H as <- <- <- <- _. split; [reflexivity | intros c' []].
  - destruct oc as [c |]; [| discriminate].
    apply bind_Done in H. destruct H as ([c1 next1] & Ec & H).
    destruct (F64.star c1) as [st |] eqn:Est.
    + apply bind_Done in H. destruct H as ([[[[cs2 t2] x2] y2] next2] & E2 & H).
      injection H as <- <- <- <- _.
      destruct (IH (t0 + F64.mass (deref st), x0 + F64.mass (deref st) * F64.px (F64.pos st),
                    y0 + F64.mass (deref st) * F64.py (F64.pos st))%float
                  next1 cs2 t2 x2 y2 next2 E2) as [Hs Hc].
      split.
      * cbn [fold_left F64.accumulate]. now rewrite Est.
      * intros c' [E | Hin].
        -- injection E as <-. exists c, next, next1. split; [now left | exact Ec].
        -- destruct (Hc c' Hin) as (c0 & k & k' & Hin0 & E0).
           exists c0, k, k'. split; [now right | exact E0].
    + apply bind_Done in H. destruct H as ([[[[cs2 t2] x2] y2] next2] & E2 & H).
      injection H as <- <- <- <- _.
      destruct (IH (t0, x0, y0) next1 cs2 t2 x2 y2 next2 E2) as [Hs Hc].
      split.
      * cbn [fold_left F64.accumulate]. now rewrite Est.
      * intros c' [E | Hin].
        -- injection E as <-. exists c, next, next1. split; [now left | exact Ec].
        -- destruct (Hc c' Hin) as (c0 & k & k' & Hin0 & E0).
           exists c0, k, k'. split; [now right | exact E0].
Qed.

Lemma F64_ComputeCenterAndMass_internal q st oc cs next :
  F64.ComputeCenterAndMass (F64.mkNode q st (oc :: cs)) next =
  ('(children1, totalMass, xCm, yCm, next1) <-
     F64.ComputeCenterAndMass_children F64.ComputeCenterAndMass (oc :: cs) 0 0 0 next ;;
   if (0 <? totalMass)%float then
     Done (F64.mkNode q
             (Some (mkPtr next1
                      (F64.aggregateStar
                         (F64.mkPair (xCm / totalMass) (yCm / totalMass)) totalMass)))
             children1, S next1)
   else Done (F64.mkNode q st children1, next1)).
Proof. reflexivity. Qed.

(** After ComputeCenterAndMass every node with children whose
    accumulated mass is greater than zero holds the aggregate star that the
    accumulators of its own loop give. *)
Lemma F64_ComputeCenterAndMass_aggregates node :
  forall next node' next',
    F64.ComputeCenterAndMass node next = Done (node', next') ->
    forall m t x y,
      F64.subnode m node' -> F64.children m <> [] ->
      F64.childSums (F64.children m) = (t, x, y) ->
      (0 <? t)%float = true ->
      exists a, F64.star m = Some a /\
                deref a = F64.aggregateStar (F64.mkPair (x / t) (y / t)) t.
Proof.
  induction node as [q st cs IH] using F64_Node_ind'.
  intros next node' next' H m t x y Hsub Hch Hsum Hpos.
  destruct cs as [| oc cs0].
  - cbn [F64.ComputeCenterAndMass] in H. injection H as <- _.
    inversion Hsub as [| n c Hin _]; subst.
    + now elim Hch.
    + destruct Hin.
  - rewrite F64_ComputeCenterAndMass_internal in H.
    apply bind_Done in H.
    destruct H as ([[[[children1 totalMass] xCm] yCm] next1] & Ec & H).
    destruct (@F64_ComputeCenterAndMass_children_spec F64.ComputeCenterAndMass
                (oc :: cs0) (0, 0, 0)%float next children1 totalMass xCm yCm next1 Ec)
      as [Hs Hfrom].
    assert (Hchild : forall c', In (Some c') children1 -> F64.subnode m c' ->
              exists a, F64.star m = Some a /\
                deref a = F64.aggregateStar (F64.mkPair (x / t) (y / t)) t).
    { intros c' Hin Hsub'. destruct (Hfrom c' Hin) as (c & k & k' & Hc & E).
      exact (IH c Hc k c' k' E m t x y Hsub' Hch Hsum Hpos). }
    destruct (0 <? totalMass)%float eqn:Et; injection H as <- _.
    + inversion Hsub as [| n c Hin Hsub']; subst.
      * cbn [F64.children] in Hsum. unfold F64.childSums in Hsum.
        rewrite <- Hs in Hsum. injection Hsum as <- <- <-.
        eexists. split; reflexivity.
      * exact (Hchild c Hin Hsub').
    + inversion Hsub as [| n c Hin Hsub']; subst.
      * cbn [F64.children] in Hsum. unfold F64.childSums in Hsum.
        rewrite <- Hs in Hsum. injection Hsum as <- <- <-. congruence.
      * exact (Hchild c Hin Hsub').
Qed.

Lemma F64_IsInsideUniverse_pos a b w :
  F64.pos a = F64.pos b -> F64.IsInsideUniverse a w = F64.IsInsideUniverse b w.
Proof. intros H. unfold F64.IsInsideUniverse. now rewrite H. Qed.

Lemma F64_InsertStar_coincident f q a b :
  F64.pos a = F64.pos b -> F64.InsertStar f (F64.mkNode q (Some a) []) b = OutOfFuel.
Proof.
  intros H. apply F64_InsertStar_leaf_loops. intros k. now apply F64_FindQuadrant_pos.
Qed.

Lemma F64_insertAll_mono w ss :
  forall f root r,
    F64.insertAll f w ss root = Done r ->
    forall f', (f <= f')%nat -> F64.insertAll f' w ss root = Done r.
Proof.
  induction ss as [| s ss IH]; intros f root r H f' Hle; cbn [F64.insertAll] in *;
    [exact H |].
  destruct (F64.IsInsideUniverse s w); [| now apply (IH f)].
  apply bind_Done in H. destruct H as (root1 & H1 & H).
  rewrite (@F64_InsertStar_mono f root s root1 H1 f' Hle). cbn [bind].
  now apply (IH f).
Qed.

(** The two bodies of [nearUniverse]: after 1100 levels the square that
    holds them has width 0 and is its own child, and no level has
    separated them. *)
Lemma nearUniverse_stuck :
  forall j,
    F64.FindQuadrant (F64.sectorAt (F64.mkQuadrant 0 0 3) edgeStar j) edgeStar
    = F64.FindQuadrant (F64.sectorAt (F64.mkQuadrant 0 0 3) edgeStar j) nearStar.
Proof.
  apply (@F64_sameQuadrants_for_ever 1100); vm_compute; reflexivity.
Qed.

Lemma nearUniverse_inside :
  forall s, In s (F64.stars nearUniverse) -> F64.IsInsideUniverse s 3 = true.
Proof. intros s [<- | [<- | []]]; vm_compute; reflexivity. Qed.

Lemma nearUniverse_distinct : F64.pos edgeStar <> F64.pos nearStar.
Proof.
  intros E. apply (f_equal (fun p => PrimFloat.eqb (F64.px p) 3)) in E.
  vm_compute in E. discriminate.
Qed.

Lemma nearUniverse_never_returns fuel :
  F64.insertAll fuel 3 [edgeStar; nearStar] (F64.mkNode (F64.mkQuadrant 0 0 3) None [])
  = OutOfFuel.
Proof.
  cbn [F64.insertAll].
  rewrite !nearUniverse_inside by (simpl; tauto).
  destruct fuel as [| fuel]; [reflexivity |].
  rewrite F64_InsertStar_empty. cbn [bind].
  rewrite F64_InsertStar_leaf_loops; [reflexivity |].
  exact nearUniverse_stuck.
Qed.

Lemma F64_treeOf_subnode m n :
  F64.subnode m n -> forall q l, F64.treeOf q l n -> exists q' l', F64.treeOf q' l' m.
Proof.
  induction 1 as [| n c Hc Hsub IH]; intros q l Ht; [eauto |].
  inversion Ht as [q0 | q0 s | q0 l0 cs Hlen Hcs Hall]; subst; cbn [F64.children] in Hc;
    try contradiction.
  apply in_map_iff in Hc. destruct Hc as (c0 & E & Hin). injection E as ->.
  apply In_nth_error in Hin. destruct Hin as [i Hi].
  exact (IH _ _ (Hall i c Hi)).
Qed.

Lemma F64_insertAll_treeOf fuel w q ss :
  forall l root r,
    F64.treeOf q l root -> F64.insertAll fuel w ss root = Done r ->
    F64.treeOf q (l ++ filter (fun s => F64.IsInsideUniverse s w) ss) r.
Proof.
  induction ss as [| a ss IH]; cbn [F64.insertAll filter]; intros l root r Ht H.
  - injection H as <-. now rewrite app_nil_r.
  - destruct (F64.IsInsideUniverse a w).
    + apply bind_Done in H. destruct H as (root' & E & H).
      pose proof (@F64_InsertStar_treeOf a fuel q l root root' Ht E) as Ht'.
      specialize (IH _ _ _ Ht' H). now rewrite <- app_assoc in IH.
    + eauto.
Qed.

(** C5, as the binary64 code has it.  After ComputeCenterAndMass, and so
    in the tree that GenerateQuadTree returns, every node with children
    whose accumulated mass is greater than zero holds a star made from the
    accumulators of the loop over its children: its mass is the binary64
    sum of the masses of the children's stars, added from 0 in the order
    of the children, and its position is the binary64 quotient by that
    mass of the sums of mass times coordinate, added likewise.  The
    children's stars are their own aggregates, so the computation is
    bottom-up, and it follows all insertions: the tree that the insertions
    leave has no star in any node with children.  Every step rounds; the
    result is the sum of the masses of the bodies beneath the node and
    their centre of mass only up to that rounding. *)
Theorem ComputeCenterAndMass_aggregate :
  (forall node next node' next',
      F64.ComputeCenterAndMass node next = Done (node', next') ->
      forall m t x y,
        F64.subnode m node' -> F64.children m <> [] ->
        F64.childSums (F64.children m) = (t, x, y) ->
        (0 <? t)%float = true ->
        exists a,
          F64.star m = Some a /\
          deref a = F64.aggregateStar (F64.mkPair (x / t) (y / t)) t) /\
  (forall fuel u next tree next',
      F64.GenerateQuadTree fuel u next = Done (tree, next') ->
      exists n,
        F64.root tree = Some n /\
        forall m t x y,
          F64.subnode m n -> F64.children m <> [] ->
          F64.childSums (F64.children m) = (t, x, y) ->
          (0 <? t)%float = true ->
          exists a,
            F64.star m = Some a /\
            F64.mass (deref a) = t /\
            F64.px (F64.pos a) = (x / t)%float /\
            F64.py (F64.pos a) = (y / t)%float) /\
  (forall fuel w ss root1,
      F64.insertAll fuel w ss (F64.mkNode (F64.mkQuadrant 0 0 w) None []) = Done root1 ->
      forall m, F64.subnode m root1 -> F64.children m <> [] -> F64.star m = None).
Proof.
  split; [| split].
  - intros node next node' next' H m t x y.
    exact (@F64_ComputeCenterAndMass_aggregates node next node' next' H m t x y).
  - intros fuel u next tree next' H. unfold F64.GenerateQuadTree in H.
    apply bind_Done in H. destruct H as (root1 & _ & H).
    apply bind_Done in H. destruct H as ([root2 nx] & EC & H).
    injection H as <- <-. exists root2. split; [reflexivity |].
    intros m t x y Hsub Hch Hsum Hpos.
    destruct (@F64_ComputeCenterAndMass_aggregates root1 next root2 nx EC m t x y
                Hsub Hch Hsum Hpos) as (a & Ea & Ha).
    exists a. split; [exact Ea |]. unfold F64.pos. rewrite Ha. auto.
  - intros fuel w ss root1 H m Hsub Hch.
    apply (@F64_insertAll_treeOf fuel w (F64.mkQuadrant 0 0 w) ss [] _ root1
             (F64.treeOf_empty _)) in H.
    destruct (F64_treeOf_subnode Hsub H) as (q' & l' & Ht).
    inversion Ht; subst; trivial; now elim Hch.
Qed.

(** C6, in exact real arithmetic.  For bodies of positive mass inside the
    domain and every tree that GenerateQuadTree returns for them, the net
    force that CalculateNetForce returns for a target with the threshold 0
    is the sum, over all other bodies, of Newton's force
    [G * m1 * m2 / d^2] along the line to the body; the direct sum of the
    forces of ComputeForce is the same vector.  Over the reals the two
    agree exactly; the binary64 program computes two different roundings
    of this sum. *)
Theorem traversal_equals_direct_sum fuel u target next tree next' :
  (forall s, In s (stars u) -> IsInsideUniverse s (width u) = true) ->
  (forall s, In s (stars u) -> 0 < mass (deref s)) ->
  GenerateQuadTree fuel u next = Done (tree, next') ->
  CalculateNetForce (root tree) target 0
  = Done (pairSum (map (pairForce target) (stars u))) /\
  DirectNetForce (stars u) target
  = Done (pairSum (map (pairForce target) (stars u))).
Proof.
  intros Hin Hpos Hgen.
  pose proof (inDomain_all u Hin) as Edom.
  destruct (GenerateQuadTree_outcome fuel u next)
    as [H0 | (n & nx & Hn & _ & Hp & Hagg)]; [congruence |].
  rewrite Hgen in Hn. injection Hn as -> ->.
  rewrite Edom in *.
  assert (Hb : forall b, In b (bodies n) -> 0 < mass (deref b))
    by (intros b Hb; apply Hpos; eapply Permutation_in; eauto).
  split; [| apply DirectNetForce_eq].
  cbn [root CalculateNetForce].
  rewrite (@CalculateNetForce_aggregated n target 0 (Hagg Hpos) Hb).
  f_equal. apply pairSum_perm, Permutation_map, Hp.
Qed.

Lemma IsInsideUniverse_pos a b w :
  pos a = pos b -> IsInsideUniverse a w = IsInsideUniverse b w.
Proof. intros H. unfold IsInsideUniverse. now rewrite H. Qed.

(** C9, as the binary64 code has it.  InsertStar of a body into a leaf
    returns exactly when some level of the subdivision separates the two
    bodies, FindQuadrant sending them to different children.  Inserting
    the bodies of the domain one after the other into the empty root
    terminates exactly when every one of them is separated in this way
    from every body inserted before it, and a larger recursion depth then
    gives the same tree.  Two bodies at the same position are never
    separated: inserting the second runs out of every recursion depth,
    and there is no guard.  Distinct positions do not suffice: the two
    bodies of [nearUniverse], both in the domain, are never separated
    either. *)
Theorem InsertStar_termination :
  (forall q a b,
      (exists fuel n', F64.InsertStar fuel (F64.mkNode q (Some a) []) b = Done n') <->
      F64.separated q a b) /\
  (forall w ss,
      (exists fuel root',
          F64.insertAll fuel w ss (F64.mkNode (F64.mkQuadrant 0 0 w) None [])
          = Done root') <->
      ForallOrdPairs (F64.separated (F64.mkQuadrant 0 0 w))
        (filter (fun s => F64.IsInsideUniverse s w) ss)) /\
  (forall w ss fuel root',
      F64.insertAll fuel w ss (F64.mkNode (F64.mkQuadrant 0 0 w) None []) = Done root' ->
      forall fuel', (fuel <= fuel')%nat ->
        F64.insertAll fuel' w ss (F64.mkNode (F64.mkQuadrant 0 0 w) None [])
        = Done root') /\
  (forall fuel q a b,
      F64.pos a = F64.pos b ->
      F64.InsertStar fuel (F64.mkNode q (Some a) []) b = OutOfFuel) /\
  (forall fuel w a b,
      F64.IsInsideUniverse a w = true -> F64.pos a = F64.pos b ->
      F64.insertAll fuel w [a; b] (F64.mkNode (F64.mkQuadrant 0 0 w) None [])
      = OutOfFuel) /\
  (F64.IsInsideUniverse edgeStar 3 = true /\
   F64.IsInsideUniverse nearStar 3 = true /\
   F64.pos edgeStar <> F64.pos nearStar /\
   forall fuel,
     F64.insertAll fuel 3 [edgeStar; nearStar]
       (F64.mkNode (F64.mkQuadrant 0 0 3) None []) = OutOfFuel).
Proof.
  split; [| split; [| split; [| split; [| split]]]].
  - intros q a b. split.
    + intros (fuel & n' & H).
      destruct (@F64_InsertStar_leaf_separates fuel q a b n' H) as (k & _ & Hk).
      now exists k.
    + intros [k Hk].
      destruct (@F64_InsertStar_leaf_returns k q a b Hk (k + 2)%nat (le_n _)) as [n' H].
      now exists (k + 2)%nat, n'.
  - intros w ss. split.
    + intros (fuel & root' & H).
      apply (@F64_insertAll_separates w (F64.mkQuadrant 0 0 w) fuel ss []
               (F64.mkNode (F64.mkQuadrant 0 0 w) None []) root');
        [constructor | constructor | exact H].
    + intros H.
      destruct (@F64_insertAll_returns w (F64.mkQuadrant 0 0 w) ss []
                  (F64.mkNode (F64.mkQuadrant 0 0 w) None []))
        as [F HF]; [constructor | exact H |].
      destruct (HF F (le_n _)) as [r Hr]. now exists F, r.
  - intros w ss fuel root' H fuel' Hle.
    now apply (@F64_insertAll_mono w ss fuel _ root' H fuel').
  - intros fuel q a b. apply F64_InsertStar_coincident.
  - intros fuel w a b Ha Hpos. cbn [F64.insertAll].
    rewrite <- (F64_IsInsideUniverse_pos a b w Hpos), Ha.
    destruct fuel as [| fuel]; [reflexivity |].
    rewrite F64_InsertStar_empty. cbn [bind].
    now rewrite F64_InsertStar_coincident.
  - split; [apply nearUniverse_inside; simpl; tauto |].
    split; [apply nearUniverse_inside; simpl; tauto |].
    split; [exact nearUniverse_distinct | exact nearUniverse_never_returns].
Qed.

(** ** The driver *)

Lemma copyStars_spec ss next :
  map (@deref Star) (fst (copyStars ss next)) = map (@deref Star) ss /\
  map (@addr Star) (fst (copyStars ss next)) = seq next (length ss).
Proof.
  revert next. induction ss as [| s ss IH]; intros next; [auto |].
  cbn [copyStars]. specialize (IH (S next)).
  destruct (copyStars ss (S next)) as [rest n].
  cbn [fst map length seq] in *. destruct IH as [-> ->].
  now rewrite copyStar_value.
Qed.

Lemma CopyUniverse_spec u next :
  snd (CopyUniverse u next) = (next + length (stars u))%nat /\
  width (fst (CopyUniverse u next)) = width u /\
  map (@deref Star) (stars (fst (CopyUniverse u next))) = map (@deref Star) (stars u) /\
  map (@addr Star) (stars (fst (CopyUniverse u next))) = seq next (length (stars u)).
Proof.
  unfold CopyUniverse.
  pose proof (copyStars_next (stars u) next).
  pose proof (copyStars_spec (stars u) next) as [Hd Ha].
  destruct (copyStars (stars u) next); simpl in *. auto.
Qed.

Lemma same_values_masses (l1 l2 : list (ptr Star)) :
  map (@deref Star) l1 = map (@deref Star) l2 ->
  (forall s, In s l2 -> mass (deref s) <> 0) ->
  forall s, In s l1 -> mass (deref s) <> 0.
Proof.
  intros E H s Hs. apply (in_map (@deref Star)) in Hs. rewrite E in Hs.
  apply in_map_iff in Hs. destruct Hs as (s2 & <- & H2). now apply H.
Qed.

Lemma same_values_inDomain (l1 l2 : list (ptr Star)) w :
  map (@deref Star) l1 = map (@deref Star) l2 ->
  map pos (filter (fun s => IsInsideUniverse s w) l1)
  = map pos (filter (fun s => IsInsideUniverse s w) l2).
Proof.
  revert l2. induction l1 as [| a l1 IH]; intros [| b l2] E; try discriminate; trivial.
  simpl in E. injection E as Eab E.
  assert (Hpos : pos a = pos b) by (unfold pos; now rewrite Eab).
  simpl. rewrite (IsInsideUniverse_pos a b w Hpos).
  destruct (IsInsideUniverse b w); simpl; rewrite (IH _ E); congruence.
Qed.

Lemma UpdateUniverse_masses u time tree theta next u' next' :
  (forall s, In s (stars u) -> mass (deref s) <> 0) ->
  UpdateUniverse u time tree theta next = Done (u', next') ->
  forall s, In s (stars u') -> mass (deref s) <> 0.
Proof.
  intros Hm Hup s' Hs'.
  destruct (UpdateUniverse_spec u time tree theta next Hm)
    as (u1 & H1 & Hlen & Hnth).
  rewrite Hup in H1. injection H1 as <- _.
  apply In_nth_error in Hs'. destruct Hs' as [i Hi].
  assert (Hlt : (i < length (stars u))%nat)
    by (rewrite <- Hlen; apply nth_error_Some; congruence).
  destruct (nth_error (stars u) i) as [s|] eqn:Es;
    [| apply nth_error_None in Es; lia].
  destruct (Hnth _ _ Es) as (a & s1 & _ & Hi' & _ & Hmass).
  rewrite Hi in Hi'. injection Hi' as ->. rewrite Hmass.
  apply Hm. eapply nth_error_In; eauto.
Qed.

Lemma BarnesHut_loop_length fuel gens time theta :
  forall u next l next',
    BarnesHut_loop fuel gens u time theta next = Done (l, next') ->
    length l = gens.
Proof.
  induction gens as [| g IH]; intros u next l next' H; simpl in H.
  - now injection H as <- _.
  - apply bind_Done in H. destruct H as ([tree n1] & _ & H).
    apply bind_Done in H. destruct H as ([u1 n2] & _ & H).
    apply bind_Done in H. destruct H as ([rest n3] & Hrest & H).
    injection H as <- _. simpl. f_equal. eapply IH; eauto.
Qed.

Lemma BarnesHut_loop_outcome fuel gens time theta :
  forall u next,
    (forall s, In s (stars u) -> mass (deref s) <> 0) ->
    BarnesHut_loop fuel gens u time theta next = OutOfFuel \/
    exists l next', BarnesHut_loop fuel gens u time theta next = Done (l, next').
Proof.
  induction gens as [| g IH]; intros u next Hm; simpl.
  - right. eauto.
  - destruct (GenerateQuadTree_outcome fuel u next)
      as [-> | (n & n1 & -> & _)]; [now left |].
    cbn [bind].
    destruct (UpdateUniverse_spec u time (mkQuadTree (Some n)) theta n1 Hm)
      as (u1 & Hup & _).
    rewrite Hup. cbn [bind].
    destruct (IH u1 (n1 + length (stars u))%nat) as [-> | (l & n3 & ->)].
    + eapply UpdateUniverse_masses; eauto.
    + now left.
    + right. cbn [bind]. eauto.
Qed.


(** C7, as the code has it.  The tree that GenerateQuadTree returns
    holds exactly the bodies of the closed domain: every body strictly
    inside is in it, every body outside is not.  A body outside exerts no
    force: the tree, and whether there is one, is that of the universe
    without the bodies outside.  It is still moved like any other body:
    UpdateUniverse computes the acceleration of every body of the universe
    from the tree. *)
Theorem GenerateQuadTree_domain u next :
  (forall fuel tree next',
      GenerateQuadTree fuel u next = Done (tree, next') ->
      exists n,
        root tree = Some n /\
        Permutation (bodies n) (inDomain u) /\
        (forall s, In s (stars u) ->
           0 < px (pos s) < width u -> 0 < py (pos s) < width u ->
           In s (bodies n)) /\
        (forall s, IsInsideUniverse s (width u) = false -> ~ In s (bodies n))) /\
  (forall fuel,
      GenerateQuadTree fuel u next
      = GenerateQuadTree fuel (mkUniverse (width u) (inDomain u)) next) /\
  (forall time tree theta nxt,
      (forall s, In s (stars u) -> mass (deref s) <> 0) ->
      exists u',
        UpdateUniverse u time tree theta nxt
        = Done (u', (nxt + length (stars u))%nat) /\
        forall i s, nth_error (stars u) i = Some s ->
          exists a s',
            UpdateAcceleration (mkPtr (nxt + i)%nat (deref s)) tree theta = Done a /\
            nth_error (stars u') i = Some s' /\
            acceleration (deref s') = a).
Proof.
  split; [| split].
  - intros fuel tree next' Hgen.
    destruct (GenerateQuadTree_outcome fuel u next)
      as [H0 | (n & nx & Hn & _ & Hp & _)]; [congruence |].
    rewrite Hgen in Hn. injection Hn as -> ->.
    exists n. split; [reflexivity |]. split; [trivial |]. split.
    + intros s Hs Hx Hy. apply Permutation_sym in Hp.
      apply (Permutation_in _ Hp). unfold inDomain. apply filter_In.
      split; trivial. apply IsInsideUniverse_inside.
      unfold inside; simpl. lra.
    + intros s Hout Hs. apply (Permutation_in _ Hp) in Hs.
      unfold inDomain in Hs. apply filter_In in Hs. destruct Hs. congruence.
  - intros fuel. unfold GenerateQuadTree, inDomain. cbn [width stars].
    now rewrite insertAll_filter.
  - intros time tree theta nxt Hm.
    destruct (UpdateUniverse_spec u time tree theta nxt Hm)
      as (u' & Hup & _ & Hnth).
    exists u'. split; [trivial |].
    intros i s Hs. destruct (Hnth _ _ Hs) as (a & s' & Ha & Hi & Hacc & _).
    exists a, s'. auto.
Qed.

(** ** Evaluation on the example inputs *)

Lemma FindQuadrant_NW q s :
  px (pos s) < qx q + qwidth q / 2 -> py (pos s) >= qy q + qwidth q / 2 ->
  FindQuadrant q s = 0%nat.
Proof. intros H1 H2. unfold FindQuadrant. rdec. reflexivity. Qed.

Lemma FindQuadrant_NE q s :
  px (pos s) >= qx q + qwidth q / 2 -> py (pos s) >= qy q + qwidth q / 2 ->
  FindQuadrant q s = 1%nat.
Proof. intros H1 H2. unfold FindQuadrant. rdec. reflexivity. Qed.

Lemma FindQuadrant_SW q s :
  px (pos s) < qx q + qwidth q / 2 -> py (pos s) < qy q + qwidth q / 2 ->
  FindQuadrant q s = 2%nat.
Proof. intros H1 H2. unfold FindQuadrant. rdec. reflexivity. Qed.

Lemma FindQuadrant_SE q s :
  px (pos s) >= qx q + qwidth q / 2 -> py (pos s) < qy q + qwidth q / 2 ->
  FindQuadrant q s = 3%nat.
Proof. intros H1 H2. unfold FindQuadrant. rdec. reflexivity. Qed.

Lemma IsInsideUniverse_true s w :
  0 <= px (pos s) <= w -> 0 <= py (pos s) <= w -> IsInsideUniverse s w = true.
Proof. intros Hx Hy. apply IsInsideUniverse_inside. unfold inside; simpl. lra. Qed.

Lemma IsInsideUniverse_false s w :
  px (pos s) < 0 \/ w < px (pos s) \/ py (pos s) < 0 \/ w < py (pos s) ->
  IsInsideUniverse s w = false.
Proof.
  intros H. destruct (IsInsideUniverse s w) eqn:E; trivial.
  apply IsInsideUniverse_inside in E. unfold inside in E; simpl in E. lra.
Qed.

Lemma newton_value b target d :
  0 < d ->
  d * d = (px (pos b) - px (pos target)) * (px (pos b) - px (pos target))
          + (py (pos b) - py (pos target)) * (py (pos b) - py (pos target)) ->
  newton b target =
  mkPair (G * mass (deref b) * mass (deref target) / (d * d)
          * ((px (pos b) - px (pos target)) / d))
         (G * mass (deref b) * mass (deref target) / (d * d)
          * ((py (pos b) - py (pos target)) / d)).
Proof.
  intros Hd E. unfold newton. rewrite <- E.
  rewrite sqrt_square by lra. now rewrite Reqb_false by lra.
Qed.

Lemma CalculateNetForce_single q s target theta :
  mass (deref s) <> 0 -> ptr_eqb s target = false ->
  CalculateNetForce (Some (mkNode q (Some s) [])) target theta = Done (newton s target).
Proof.
  intros Hm Hp. unfold CalculateNetForce. rewrite CalculateNetForce_node_eq.
  rewrite Reqb_false by trivial. rewrite Hp.
  change (IsLeaf (mkNode q (Some s) [])) with true. cbn [andb negb].
  apply leafForce_newton.
Qed.

(** Settle the side conditions of an evaluation step on example data. *)
Ltac side := unfold body, pos, quadrantOf; simpl; lra.

Lemma clusterTree_built :
  GenerateQuadTree 3 clusterUniverse 3 = Done (mkQuadTree (Some clusterTree), 5%nat).
Proof.
  unfold GenerateQuadTree, clusterUniverse. cbn [stars width insertAll].
  (* the first body goes into the empty root *)
  rewrite IsInsideUniverse_true by side.
  rewrite InsertStar_empty. cbn [bind].
  (* the second one meets it twice: in the root and in its SW quadrant *)
  rewrite IsInsideUniverse_true by side.
  rewrite InsertStar_leaf.
  rewrite (@FindQuadrant_SW _ (body 0 1 1 1)) by side.
  rewrite (onChild_map _ _ _ _ _ (emptyQuads_nth _ (i := 2) ltac:(lia))).
  rewrite InsertStar_empty. cbn [bind sector].
  rewrite (@FindQuadrant_SW _ (body 1 3 1 1)) by side.
  cbn [setNth emptyQuads firstn skipn app].
  erewrite onChild_map by reflexivity.
  rewrite InsertStar_leaf.
  rewrite (@FindQuadrant_SW _ (body 0 1 1 1)) by side.
  rewrite (onChild_map _ _ _ _ _ (emptyQuads_nth _ (i := 2) ltac:(lia))).
  rewrite InsertStar_empty. cbn [bind sector].
  rewrite (@FindQuadrant_SE _ (body 1 3 1 1)) by side.
  cbn [setNth emptyQuads firstn skipn app].
  erewrite onChild_map by reflexivity.
  rewrite InsertStar_empty. cbn [bind].
  cbn [setNth emptyQuads firstn skipn app map].
  (* the third one goes into the empty SE quadrant of the root *)
  rewrite IsInsideUniverse_true by side.
  rewrite InsertStar_internal.
  rewrite (@FindQuadrant_SE _ (body 2 7 1 1)) by side.
  unfold onChild. cbn [children nth_error sector star].
  rewrite InsertStar_empty. cbn [bind firstn skipn app].
  (* masses and centres, bottom-up *)
  repeat (first [ rewrite ComputeCenterAndMass_nochildren by reflexivity
                | rewrite ComputeCenterAndMass_eq
                | progress rdec
                | rewrite fdiv_Done by lra
                | progress cbn [bind star ComputeCenterAndMass_children
                                body mass deref pos position px py
                                aggregateStar] ]).
  unfold clusterTree, clusterNode, body, aggregateStar, quadrantOf.
  cbn [qx qy qwidth].
  repeat f_equal; lra.
Qed.

Lemma newton_cluster_west :
  newton (body 0 1 1 1) (body 2 7 1 1) = mkPair (- (G / 36)) 0.
Proof.
  rewrite (@newton_value _ _ 6) by side.
  unfold body, pos; simpl. apply pair_eq; simpl; field.
Qed.

Lemma newton_cluster_east :
  newton (body 1 3 1 1) (body 2 7 1 1) = mkPair (- (G / 16)) 0.
Proof.
  rewrite (@newton_value _ _ 4) by side.
  unfold body, pos; simpl. apply pair_eq; simpl; field.
Qed.

Lemma newton_cluster_aggregate :
  newton (mkPtr 3 (aggregateStar (mkPair 2 1) 2)) (body 2 7 1 1)
  = mkPair (- (2 * G / 25)) 0.
Proof.
  rewrite (@newton_value _ _ 5) by side.
  unfold body, pos; simpl. apply pair_eq; simpl; field.
Qed.

Lemma clusterNode_force theta :
  CalculateNetForce (Some clusterNode) (body 2 7 1 1) theta
  = Done (mkPair (- (13 * G / 144)) 0).
Proof.
  unfold CalculateNetForce, clusterNode.
  repeat (first [ rewrite CalculateNetForce_node_eq
                | rewrite openingTest_zero
                | rewrite leafForce_newton
                | progress rdec
                | progress cbn [bind andb negb IsLeaf children forallb ptr_eqb
                                addr Nat.eqb CalculateNetForce_children
                                aggregateStar body mass deref] ]).
  rewrite newton_cluster_west, newton_cluster_east.
  f_equal. apply pair_eq; simpl; lra.
Qed.

Lemma clusterTree_force theta :
  CalculateNetForce (Some clusterTree) (body 2 7 1 1) theta
  = Done (mkPair (- (13 * G / 144)) 0).
Proof.
  unfold CalculateNetForce, clusterTree.
  rewrite CalculateNetForce_node_eq.
  cbn [aggregateStar mass deref]. rdec.
  cbn [IsLeaf children forallb andb]. rewrite openingTest_zero. cbn [bind].
  cbn [CalculateNetForce_children].
  rewrite !(CalculateNetForce_node_eq _ None). cbn [bind].
  change (CalculateNetForce_node clusterNode (body 2 7 1 1) theta)
    with (CalculateNetForce (Some clusterNode) (body 2 7 1 1) theta).
  rewrite clusterNode_force. cbn [bind].
  rewrite CalculateNetForce_node_eq.
  repeat (first [ rewrite openingTest_zero
                | progress rdec
                | progress cbn [bind andb negb IsLeaf children forallb ptr_eqb
                                addr Nat.eqb CalculateNetForce_children
                                body mass deref] ]).
  f_equal. apply pair_eq; simpl; lra.
Qed.

(** C1, on an input where the code departs from it.  In the tree that
    GenerateQuadTree builds for [clusterUniverse], the node of the two
    western bodies is internal, of width 4, and its aggregate (mass 2 at
    (2, 1)) lies at distance 5 from the eastern body: with [theta = 1] it
    is far enough, and the force of the aggregate on that body is
    [-(2 G / 25)].  CalculateNetForce returns [-(13 G / 144)], the sum of
    the forces of the two leaves beneath the node, for that node and for
    the whole tree. *)
Theorem CalculateNetForce_opens_far_node :
  GenerateQuadTree 3 clusterUniverse 3 = Done (mkQuadTree (Some clusterTree), 5%nat) /\
  In (Some clusterNode) (children clusterTree) /\
  IsLeaf clusterNode = false /\
  star clusterNode = Some (mkPtr 3 (aggregateStar (mkPair 2 1) 2)) /\
  snd (Distance (mkPair 2 1) (pos (body 2 7 1 1))) = 5 /\
  qwidth (sector clusterNode) / 5 < 1 /\
  aggregateForce clusterNode (body 2 7 1 1) = Done (mkPair (- (2 * G / 25)) 0) /\
  CalculateNetForce (Some clusterNode) (body 2 7 1 1) 1
  = Done (mkPair (- (13 * G / 144)) 0) /\
  CalculateNetForce (Some clusterTree) (body 2 7 1 1) 1
  = Done (mkPair (- (13 * G / 144)) 0) /\
  - (13 * G / 144) <> - (2 * G / 25).
Proof.
  split; [apply clusterTree_built |].
  split; [simpl; tauto |].
  split; [reflexivity |].
  split; [reflexivity |].
  split.
  { unfold Distance, body, pos; simpl.
    replace ((2 - 7) * (2 - 7) + (1 - 1) * (1 - 1)) with (5 * 5) by lra.
    apply sqrt_square. lra. }
  split; [simpl; lra |].
  split.
  { unfold aggregateForce, clusterNode. cbn [star].
    rewrite ComputeForce_newton. now rewrite newton_cluster_aggregate. }
  split; [apply clusterNode_force |].
  split; [apply clusterTree_force |].
  pose proof G_pos. lra.
Qed.

Lemma restStar_force theta :
  CalculateNetForce (root restTree) restStar theta = Done (mkPair (- (G / 4)) 0).
Proof.
  unfold restTree, restStar. cbn [root].
  rewrite CalculateNetForce_single by (simpl; (lra || reflexivity)).
  rewrite (@newton_value _ _ 2) by side.
  unfold body, pos; simpl. f_equal. apply pair_eq; simpl; field.
Qed.

Lemma restStar_acceleration theta :
  UpdateAcceleration restStar restTree theta = Done (mkPair (- (G / 4) / 1) (0 / 1)).
Proof.
  unfold UpdateAcceleration. rewrite restStar_force. cbn [bind px py].
  unfold restStar, body. cbn [mass deref].
  now rewrite !fdiv_Done by lra.
Qed.

(** C4, refuted as stated: the star at rest next to one body gets a
    non-zero acceleration, and after a step of size 1 it has not moved. *)
Lemma fromRestClaim_counterexample : ~ fromRestClaim restStar 1 restTree 0.5.
Proof.
  intros H.
  pose proof G_pos as HG.
  pose proof (restStar_acceleration 0.5) as Ha.
  pose proof (@updateStar_eq restStar 1 restTree 0.5 _ Ha) as Hup.
  assert (Hnz : mkPair (- (G / 4) / 1) (0 / 1) <> zeroPair).
  { intros E. apply (f_equal px) in E. simpl in E. lra. }
  destruct (H eq_refl eq_refl _ _ Ha Hnz Hup) as [_ Hpos].
  apply (f_equal px) in Hpos. unfold pos in Hpos. simpl in Hpos. lra.
Qed.

Lemma updateStar_from_rest_witness :
  exists b',
    updateStar restStar 1 restTree 0.5 = Done b' /\
    acceleration (deref b') = mkPair (- (G / 4) / 1) (0 / 1) /\
    px (velocity (deref b')) = 0.5 * (- (G / 4) / 1) * 1 /\
    py (velocity (deref b')) = 0.5 * (0 / 1) * 1 /\
    pos b' = pos restStar.
Proof.
  apply (@updateStar_from_rest restStar 1 restTree 0.5
           (mkPair (- (G / 4) / 1) (0 / 1))).
  - reflexivity.
  - reflexivity.
  - apply restStar_acceleration.
Defined.

Lemma outsideTree_built :
  GenerateQuadTree 1 outsideUniverse 2 = Done (outsideTree, 2%nat).
Proof.
  unfold GenerateQuadTree, outsideUniverse. cbn [stars width insertAll].
  rewrite IsInsideUniverse_true by side.
  rewrite InsertStar_empty. cbn [bind].
  rewrite IsInsideUniverse_false by (right; left; side).
  cbn [bind]. reflexivity.
Qed.

Lemma outside_body_force theta :
  CalculateNetForce (root outsideTree) (mkPtr 3 (deref (body 1 5 1 1))) theta
  = Done (mkPair (- (G / 16)) 0).
Proof.
  unfold outsideTree. cbn [root].
  rewrite CalculateNetForce_single by (simpl; (lra || reflexivity)).
  rewrite (@newton_value _ _ 4) by side.
  unfold body, pos; simpl. f_equal. apply pair_eq; simpl; field.
Qed.

Lemma outsideUniverse_masses :
  forall s, In s (stars outsideUniverse) -> mass (deref s) <> 0.
Proof. intros s [<- | [<- | []]]; simpl; lra. Qed.

(** C7, refuted as stated: the body outside the domain is not in the
    tree, and the step gives it a non-zero acceleration. *)
Lemma outsideReceivesNoForce_counterexample :
  ~ outsideReceivesNoForce outsideUniverse.
Proof.
  intros H.
  destruct (UpdateUniverse_spec outsideUniverse 1 outsideTree 0.5 2
              outsideUniverse_masses) as (u' & Hup & _ & Hnth).
  destruct (Hnth 1%nat (body 1 5 1 1) eq_refl) as (a & s' & Ha & Hs' & Hacc & _).
  assert (Hout : IsInsideUniverse (body 1 5 1 1) (width outsideUniverse) = false)
    by (apply IsInsideUniverse_false; right; left; side).
  unfold outsideReceivesNoForce in H.
  pose proof (H 1%nat 2%nat outsideTree 2%nat 1 0.5 u' _ 1%nat (body 1 5 1 1) _
                outsideTree_built Hup eq_refl Hout Hs') as H'.
  clear H. rename H' into H.
  rewrite H in Hacc. subst a.
  unfold UpdateAcceleration in Ha.
  change (2 + 1)%nat with 3%nat in Ha.
  rewrite outside_body_force in Ha. cbn [bind px py body mass deref] in Ha.
  rewrite !fdiv_Done in Ha by lra. cbn [bind] in Ha.
  injection Ha as Hx _. pose proof G_pos. lra.
Qed.

Lemma GenerateQuadTree_domain_witness :
  (exists n,
      root outsideTree = Some n /\
      Permutation (bodies n) (inDomain outsideUniverse)) /\
  (exists u',
      UpdateUniverse outsideUniverse 1 outsideTree 0.5 2
      = Done (u', (2 + length (stars outsideUniverse))%nat)).
Proof.
  destruct (GenerateQuadTree_domain outsideUniverse 2) as (H1 & _ & H4).
  split.
  - destruct (H1 1%nat outsideTree 2%nat outsideTree_built) as (n & Hn & Hp & _).
    exists n. split; assumption.
  - destruct (H4 1 outsideTree 0.5 2%nat outsideUniverse_masses) as (u' & Hup & _).
    exists u'. exact Hup.
Defined.





Lemma clusterUniverse_inside :
  forall s, In s (stars clusterUniverse) ->
            IsInsideUniverse s (width clusterUniverse) = true.
Proof.
  intros s [<- | [<- | [<- | []]]]; apply IsInsideUniverse_true; side.
Qed.

Lemma clusterUniverse_distinct : NoDup (map pos (stars clusterUniverse)).
Proof.
  unfold clusterUniverse, body, pos. simpl.
  repeat constructor; simpl;
    intros H; repeat destruct H as [H | H]; trivial;
    apply (f_equal px) in H; simpl in H; lra.
Qed.

Lemma clusterUniverse_masses :
  forall s, In s (stars clusterUniverse) -> 0 < mass (deref s).
Proof. intros s [<- | [<- | [<- | []]]]; simpl; lra. Qed.

(** The real values of binary64 constants, by computation on the integers
    of [F64.numerator] and [F64.denominator]. *)
Ltac float_values :=
  unfold F64.toR;
  repeat match goal with
         | |- context [F64.numerator ?c] =>
             let v := eval vm_compute in (F64.numerator c) in
             change (F64.numerator c) with v
         | |- context [F64.denominator ?c] =>
             let v := eval vm_compute in (F64.denominator c) in
             change (F64.denominator c) with v
         end.

Lemma toR_zero : F64.toR 0 = 0.
Proof. float_values. lra. Qed.

Lemma toR_one : F64.toR 1 = 1.
Proof. float_values. lra. Qed.

Lemma heavyTree_built :
  F64.GenerateQuadTree 3 heavyUniverse 2
  = Done (F64.mkQuadTree (Some heavyTree), 3%nat).
Proof. vm_compute. reflexivity. Qed.

(** C5, refuted as stated: for a body of mass 1e30 and a body of mass 1
    the root stores the mass 1e30, which is 1 short of the sum. *)
Lemma aggregatesWithin_counterexample : ~ aggregatesWithin 1e-3 heavyUniverse.
Proof.
  intros H.
  destruct (H 3%nat 2%nat _ _ heavyTree heavyTree heavyTree_built eq_refl
              (F64.subnode_refl _)) as (a & Ea & Hm & _).
  - discriminate.
  - injection Ea as <-.
    cbn [realStar deref mass F64.mass F64.aggregateStar F64.bodies heavyTree flat_map
         F64.body app map massSum fold_right] in Hm.
    rewrite toR_one in Hm.
    match type of Hm with Rabs ?e <= _ => replace e with (-1) in Hm by lra end.
    rewrite Rabs_left in Hm by lra. lra.
Qed.

Lemma ComputeCenterAndMass_aggregate_witness :
  exists a,
    F64.star heavyTree = Some a /\
    F64.mass (deref a) = heavy /\
    F64.px (F64.pos a) = 1%float /\
    F64.py (F64.pos a) = 1%float.
Proof.
  destruct ComputeCenterAndMass_aggregate as (_ & H & _).
  destruct (H 3%nat heavyUniverse 2%nat _ _ heavyTree_built) as (n & En & Hn).
  injection En as <-.
  destruct (Hn heavyTree heavy (heavy + 3)%float (heavy + 3)%float
              (F64.subnode_refl _)) as (a & Ea & Hm & Hx & Hy).
  - discriminate.
  - vm_compute. reflexivity.
  - vm_compute. reflexivity.
  - exists a. split; [exact Ea |]. split; [exact Hm |].
    split; [rewrite Hx | rewrite Hy]; vm_compute; reflexivity.
Defined.

Lemma traversal_equals_direct_sum_witness :
  CalculateNetForce (root (mkQuadTree (Some clusterTree))) (body 2 7 1 1) 0
  = Done (pairSum (map (pairForce (body 2 7 1 1)) (stars clusterUniverse))) /\
  DirectNetForce (stars clusterUniverse) (body 2 7 1 1)
  = Done (pairSum (map (pairForce (body 2 7 1 1)) (stars clusterUniverse))).
Proof.
  apply (@traversal_equals_direct_sum 3 clusterUniverse (body 2 7 1 1) 3
           (mkQuadTree (Some clusterTree)) 5%nat).
  - apply clusterUniverse_inside.
  - apply clusterUniverse_masses.
  - apply clusterTree_built.
Defined.

Lemma cancelUniverse_forces :
  exists tree nx,
    F64.GenerateQuadTree 4 cancelUniverse 3 = Done (tree, nx) /\
    F64.CalculateNetForce (F64.root tree) cancelTarget 0
    = F64.mkPair 0x1.42bdp-71 0 /\
    F64.DirectNetForce (F64.stars cancelUniverse) cancelTarget F64.zeroPair
    = F64.mkPair 0x1.42bbp-71 0.
Proof.
  eexists. eexists. split; [vm_compute; reflexivity |].
  split; vm_compute; reflexivity.
Qed.

(** The positions and masses of [cancelUniverse]: 1.00000000001 is
    1 + 45036 * 2^-52 in binary64. *)
Lemma toR_cancelUniverse :
  F64.toR 3.5 = 7 / 2 /\ F64.toR 5 = 5 /\ F64.toR 6 = 6 /\
  F64.toR 0x1.000000000afecp+0 = 1 + 45036 / 2 ^ 52.
Proof. repeat split; float_values; lra. Qed.

(** The two forces that the program computes along x, 82621 * 2^-87 and
    82619 * 2^-87. *)
Lemma toR_traversal : F64.toR 0x1.42bdp-71 = 82621 / 2 ^ 87.
Proof. float_values. lra. Qed.

Lemma toR_direct : F64.toR 0x1.42bbp-71 = 82619 / 2 ^ 87.
Proof. float_values. lra. Qed.

(** The real values of the fields of a binary64 star. *)
Ltac real_fields :=
  unfold pos;
  cbn [realStar realPair F64.body deref position mass px py
       F64.position F64.mass F64.px F64.py];
  destruct toR_cancelUniverse as (E35 & E5 & E6 & Em);
  rewrite ?toR_zero, ?toR_one, ?E35, ?E5, ?E6, ?Em.

(** The exact sum of Newton's forces on the target: the two bodies pull
    with [G * 5 * m / 2.5^2] in opposite directions. *)
Lemma cancelUniverse_newton :
  newtonSum cancelUniverse cancelTarget
  = mkPair (G * 5 * (45036 / 2 ^ 52) / (25 / 4)) 0.
Proof.
  unfold newtonSum, cancelUniverse, cancelTarget. cbn [F64.stars map pairSum fold_right].
  unfold pairForce.
  cbn [realStar F64.body addr deref ptr_eqb Nat.eqb].
  rewrite (@newton_value _ _ (5 / 2)); [| lra | real_fields; lra].
  rewrite (@newton_value _ _ (5 / 2)); [| lra | real_fields; lra].
  real_fields.
  apply pair_eq; cbn [padd zeroPair px py]; lra.
Qed.

(** C6, refuted as stated: for the body between two bodies of nearly
    equal mass the traversal returns 5.3392569835737265e-22 along x.  The
    exact sum of Newton's forces is 5.33926444e-22, a relative error of
    1.4e-6; the binary64 sum of the forces of ComputeForce is
    5.339127736603015e-22, a relative error of 2.4e-5. *)
Lemma traversalWithin_counterexample :
  ~ traversalWithin 1e-6 cancelUniverse cancelTarget
      (newtonSum cancelUniverse cancelTarget) /\
  ~ traversalWithin 1e-6 cancelUniverse cancelTarget
      (directSum cancelUniverse cancelTarget).
Proof.
  destruct cancelUniverse_forces as (tree & nx & Hgen & Hf & Hd).
  pose proof G_pos as HG.
  split; intros H; specialize (H 4%nat 3%nat tree nx Hgen);
    unfold relativeWithin in H; rewrite Hf in H.
  - rewrite cancelUniverse_newton in H.
    cbn [realPair F64.px F64.py px py] in H.
    rewrite toR_zero, toR_traversal in H.
    unfold G in H. lra.
  - unfold directSum in H. rewrite Hd in H.
    cbn [realPair F64.px F64.py px py] in H.
    rewrite toR_zero, toR_traversal, toR_direct in H.
    lra.
Qed.

Lemma apartUniverse_separated :
  ForallOrdPairs (F64.separated (F64.mkQuadrant 0 0 4))
    (filter (fun s => F64.IsInsideUniverse s 4) (F64.stars apartUniverse)).
Proof.
  replace (filter (fun s => F64.IsInsideUniverse s 4) (F64.stars apartUniverse))
    with (F64.stars apartUniverse) by (vm_compute; reflexivity).
  constructor; [| constructor; constructor].
  constructor; [| constructor].
  exists 0%nat. vm_compute. discriminate.
Qed.

(** C9, refuted as stated: the two bodies of [nearUniverse] lie in the
    domain at distinct positions, and inserting them never returns,
    whatever the recursion depth. *)
Lemma insertionsTerminate_counterexample :
  ~ insertionsTerminate 3 [edgeStar; nearStar].
Proof.
  intros H. destruct H as (fuel & root' & E).
  - exact nearUniverse_inside.
  - constructor; [| constructor; [intros [] | constructor]].
    intros [E | []]. now apply nearUniverse_distinct.
  - rewrite nearUniverse_never_returns in E. discriminate.
Qed.

Lemma InsertStar_termination_witness :
  (exists fuel root',
      F64.insertAll fuel 4 (F64.stars apartUniverse)
        (F64.mkNode (F64.mkQuadrant 0 0 4) None []) = Done root') /\
  (forall fuel,
      F64.InsertStar fuel (F64.mkNode (F64.mkQuadrant 0 0 4) (Some (F64.body 0 1 1 1)) [])
        (F64.body 1 1 1 1) = OutOfFuel).
Proof.
  destruct InsertStar_termination as (_ & H2 & _ & H4 & _).
  split.
  - apply H2. exact apartUniverse_separated.
  - intros fuel. apply H4. reflexivity.
Defined.

Lemma force_never_divides_by_zero_witness :
  ComputeForce (body 0 1 1 1) (body 1 1 1 1) = Done zeroPair /\
  CalculateNetForce (Some (mkNode (mkQuadrant 0 0 4) (Some (body 0 1 1 1)) []))
    (body 1 1 1 1) 0.5 = Done zeroPair.
Proof.
  destruct force_never_divides_by_zero as (_ & H2 & _ & H4).
  split.
  - apply H2. reflexivity.
  - apply (H4 _ (body 0 1 1 1)); reflexivity.
Defined.

(** * Further properties of the code *)

(** ** Subdivide and FindQuadrant *)

Lemma Subdivide_nth node i :
  (i < 4)%nat ->
  nth_error (children (Subdivide node)) i
  = Some (Some (mkNode (quadrantOf (sector node) i) None [])).
Proof.
  intros H. destruct i as [|[|[|[|i]]]]; try reflexivity. lia.
Qed.

Lemma Subdivide_nth_inv node i c :
  nth_error (children (Subdivide node)) i = Some (Some c) ->
  (i < 4)%nat /\ c = mkNode (quadrantOf (sector node) i) None [].
Proof.
  intros H.
  assert (Hlt : (i < 4)%nat)
    by (apply (nth_error_Some (children (Subdivide node))); congruence).
  rewrite Subdivide_nth in H by trivial. injection H as <-. auto.
Qed.

Lemma holds_quadrantOf q p i :
  (i < 4)%nat -> holds (quadrantOf q i) p ->
  holds q p /\
  ((i = 0%nat /\ px p < qx q + qwidth q / 2 /\ py p >= qy q + qwidth q / 2) \/
   (i = 1%nat /\ px p >= qx q + qwidth q / 2 /\ py p >= qy q + qwidth q / 2) \/
   (i = 2%nat /\ px p < qx q + qwidth q / 2 /\ py p < qy q + qwidth q / 2) \/
   (i = 3%nat /\ px p >= qx q + qwidth q / 2 /\ py p < qy q + qwidth q / 2)).
Proof.
  intros Hi. unfold holds.
  destruct i as [|[|[|[|i]]]]; try lia; simpl; intros [Hx Hy];
    (split; [lra |]).
  - left. repeat split; trivial; lra.
  - right; left. repeat split; trivial; lra.
  - right; right; left. repeat split; trivial; lra.
  - right; right; right. repeat split; trivial; lra.
Qed.

(** X1. Subdivide keeps the node's square and star and gives it four
    empty children of half the width, over the quadrants NW, NE, SW, SE
    in this order; this much holds in binary64 as over the reals.  In real
    arithmetic the squares of the children tile the square of the node:
    the closed squares cover exactly the closed square, and every point of
    the half-open square lies in the half-open square of exactly one
    child.  In binary64 they need not: in the square [sliver] the western
    and the eastern children are the same square, since 1 + 2^-53 rounds
    to 1. *)
Theorem Subdivide_tiles node :
  sector (Subdivide node) = sector node /\
  star (Subdivide node) = star node /\
  length (children (Subdivide node)) = 4%nat /\
  (forall i, (i < 4)%nat ->
     exists c,
       nth_error (children (Subdivide node)) i = Some (Some c) /\
       star c = None /\ children c = [] /\
       qwidth (sector c) = qwidth (sector node) / 2) /\
  (forall p,
     covers (sector node) p <->
     exists i c,
       nth_error (children (Subdivide node)) i = Some (Some c) /\
       covers (sector c) p) /\
  (forall p,
     holds (sector node) p <->
     exists i c,
       nth_error (children (Subdivide node)) i = Some (Some c) /\
       holds (sector c) p) /\
  (forall p i j c d,
     nth_error (children (Subdivide node)) i = Some (Some c) ->
     nth_error (children (Subdivide node)) j = Some (Some d) ->
     holds (sector c) p -> holds (sector d) p -> i = j) /\
  (forall fnode,
     F64.sector (F64.Subdivide fnode) = F64.sector fnode /\
     F64.star (F64.Subdivide fnode) = F64.star fnode /\
     F64.children (F64.Subdivide fnode)
     = map (fun i => Some (F64.mkNode (F64.quadrantOf (F64.sector fnode) i) None []))
         [0; 1; 2; 3]%nat) /\
  (F64.quadrantOf sliver 1 = F64.quadrantOf sliver 0 /\
   F64.quadrantOf sliver 3 = F64.quadrantOf sliver 2).
Proof.
  split; [reflexivity |]. split; [reflexivity |]. split; [reflexivity |].
  split; [| split; [| split; [| split; [| split]]]];
    [ | | | | intros fnode; repeat split | split; vm_compute; reflexivity ].
  - intros i Hi. eexists. split; [now apply Subdivide_nth |].
    cbn [star children sector]. repeat split. apply quadrantOf_width.
  - intros p. split.
    + intros [Hx Hy].
      destruct (Rlt_dec (px p) (qx (sector node) + qwidth (sector node) / 2)),
               (Rlt_dec (py p) (qy (sector node) + qwidth (sector node) / 2)).
      * exists 2%nat. eexists. split; [now apply Subdivide_nth; lia |].
        unfold covers; simpl; lra.
      * exists 0%nat. eexists. split; [now apply Subdivide_nth; lia |].
        unfold covers; simpl; lra.
      * exists 3%nat. eexists. split; [now apply Subdivide_nth; lia |].
        unfold covers; simpl; lra.
      * exists 1%nat. eexists. split; [now apply Subdivide_nth; lia |].
        unfold covers; simpl; lra.
    + intros (i & c & Hc & Hp). apply Subdivide_nth_inv in Hc.
      destruct Hc as [Hi ->]. cbn [sector] in Hp. unfold covers in *.
      destruct i as [|[|[|[|i]]]]; try lia; simpl in Hp; lra.
  - intros p. split.
    + intros [Hx Hy].
      destruct (Rlt_dec (px p) (qx (sector node) + qwidth (sector node) / 2)),
               (Rlt_dec (py p) (qy (sector node) + qwidth (sector node) / 2)).
      * exists 2%nat. eexists. split; [now apply Subdivide_nth; lia |].
        unfold holds; simpl; lra.
      * exists 0%nat. eexists. split; [now apply Subdivide_nth; lia |].
        unfold holds; simpl; lra.
      * exists 3%nat. eexists. split; [now apply Subdivide_nth; lia |].
        unfold holds; simpl; lra.
      * exists 1%nat. eexists. split; [now apply Subdivide_nth; lia |].
        unfold holds; simpl; lra.
    + intros (i & c & Hc & Hp). apply Subdivide_nth_inv in Hc.
      destruct Hc as [Hi ->]. cbn [sector] in Hp.
      now apply holds_quadrantOf in Hp.
  - intros p i j c d Hc Hd Hpc Hpd.
    apply Subdivide_nth_inv in Hc, Hd.
    destruct Hc as [Hi ->], Hd as [Hj ->]. cbn [sector] in *.
    apply holds_quadrantOf in Hpc, Hpd; trivial.
    destruct Hpc as [_ Hc], Hpd as [_ Hd].
    destruct Hc as [(-> & ? & ?) | [(-> & ? & ?) | [(-> & ? & ?) | (-> & ? & ?)]]];
      destruct Hd as [(-> & ? & ?) | [(-> & ? & ?) | [(-> & ? & ?) | (-> & ? & ?)]]];
      trivial; lra.
Qed.

(** X2. FindQuadrant always returns an index of one of the four children
    that Subdivide creates, in binary64 as over the reals.  In real
    arithmetic, for a star of the node's closed square the selected
    child's closed square holds the star; for a star of the half-open
    square it is the one child whose half-open square holds it; a star on
    the vertical mid-line goes east (NE or SE), a star on the horizontal
    mid-line goes north (NW or NE).  In binary64 the mid-lines are rounded
    sums: in the square [sliver] the star at its corner (1, 0) goes to the
    south-east child, which is also the south-west one. *)
Theorem FindQuadrant_selects node s :
  (exists c,
      nth_error (children (Subdivide node)) (FindQuadrant (sector node) s)
      = Some (Some c) /\
      (inside (sector node) s -> inside (sector c) s)) /\
  (holds (sector node) (pos s) ->
   forall j d,
     nth_error (children (Subdivide node)) j = Some (Some d) ->
     (holds (sector d) (pos s) <-> j = FindQuadrant (sector node) s)) /\
  (px (pos s) = qx (sector node) + qwidth (sector node) / 2 ->
   FindQuadrant (sector node) s = 1%nat \/ FindQuadrant (sector node) s = 3%nat) /\
  (py (pos s) = qy (sector node) + qwidth (sector node) / 2 ->
   FindQuadrant (sector node) s = 0%nat \/ FindQuadrant (sector node) s = 1%nat) /\
  (forall q fs, (F64.FindQuadrant q fs < 4)%nat) /\
  (F64.FindQuadrant sliver (F64.body 0 1 0 1) = 3%nat /\
   F64.quadrantOf sliver 3 = F64.quadrantOf sliver 2).
Proof.
  pose proof (FindQuadrant_lt (sector node) s) as Hlt.
  split; [| split; [| split; [| split; [| split]]]];
    [ | | | | exact F64_FindQuadrant_lt | split; vm_compute; reflexivity ].
  - eexists. split; [now apply Subdivide_nth |].
    cbn [sector]. apply FindQuadrant_inside.
  - intros Hp j d Hd. apply Subdivide_nth_inv in Hd. destruct Hd as [Hj ->].
    cbn [sector]. split.
    + intros Hh. apply holds_quadrantOf in Hh; trivial.
      destruct Hh as [_ [(-> & ? & ?) | [(-> & ? & ?) | [(-> & ? & ?) | (-> & ? & ?)]]]];
        symmetry.
      * now apply FindQuadrant_NW.
      * now apply FindQuadrant_NE.
      * now apply FindQuadrant_SW.
      * now apply FindQuadrant_SE.
    + intros ->. destruct Hp as [Hx Hy]. unfold holds, FindQuadrant, Rltb, Rgeb.
      repeat match goal with
             | |- context [Rlt_dec ?a ?b] => destruct (Rlt_dec a b)
             | |- context [Rge_dec ?a ?b] => destruct (Rge_dec a b)
             end; simpl; lra.
  - intros E. unfold FindQuadrant. rewrite (@Rltb_false (px (pos s))) by lra.
    rewrite (@Rgeb_true (px (pos s))) by lra. cbn [andb].
    destruct (Rgeb _ _); auto.
  - intros E. unfold FindQuadrant, Rltb, Rgeb.
    repeat match goal with
           | |- context [Rlt_dec ?a ?b] => destruct (Rlt_dec a b)
           | |- context [Rge_dec ?a ?b] => destruct (Rge_dec a b)
           end; simpl; auto; lra.
Qed.

(** ** Distance and ComputeForce *)

Lemma Distance_eq p1 p2 :
  Distance p1 p2
  = (px p1 - px p2, py p1 - py p2, dist_euc (px p1) (py p1) (px p2) (py p2)).
Proof. reflexivity. Qed.

(** X3. Distance returns the two coordinate differences and a distance.
    In real arithmetic the distance is a metric: it is not negative, its
    square is the sum of the squared differences, it is zero exactly when
    the two points coincide, it is symmetric while the differences change
    sign, it bounds each difference, and it obeys the triangle inequality.
    In binary64 the squares underflow and overflow: the distance of
    (1e-200, 0) from the origin is 0 and that of (1e200, 0) is infinite. *)
Theorem Distance_metric p1 p2 p3 :
  fst (fst (Distance p1 p2)) = px p1 - px p2 /\
  snd (fst (Distance p1 p2)) = py p1 - py p2 /\
  0 <= snd (Distance p1 p2) /\
  snd (Distance p1 p2) * snd (Distance p1 p2)
  = (px p1 - px p2) * (px p1 - px p2) + (py p1 - py p2) * (py p1 - py p2) /\
  (snd (Distance p1 p2) = 0 <-> p1 = p2) /\
  snd (Distance p2 p1) = snd (Distance p1 p2) /\
  fst (fst (Distance p2 p1)) = - fst (fst (Distance p1 p2)) /\
  snd (fst (Distance p2 p1)) = - snd (fst (Distance p1 p2)) /\
  Rabs (px p1 - px p2) <= snd (Distance p1 p2) /\
  Rabs (py p1 - py p2) <= snd (Distance p1 p2) /\
  snd (Distance p1 p3) <= snd (Distance p1 p2) + snd (Distance p2 p3) /\
  (forall f1 f2,
     fst (F64.Distance f1 f2) = (F64.px f1 - F64.px f2, F64.py f1 - F64.py f2)%float) /\
  (F64.Distance (F64.mkPair tiny 0) (F64.mkPair 0 0) = (tiny, 0, 0)%float /\
   F64.Distance (F64.mkPair huge 0) (F64.mkPair 0 0) = (huge, 0, infinity)%float).
Proof.
  assert (HF : (forall f1 f2,
     fst (F64.Distance f1 f2) = (F64.px f1 - F64.px f2, F64.py f1 - F64.py f2)%float) /\
    (F64.Distance (F64.mkPair tiny 0) (F64.mkPair 0 0) = (tiny, 0, 0)%float /\
     F64.Distance (F64.mkPair huge 0) (F64.mkPair 0 0) = (huge, 0, infinity)%float))
    by (split; [reflexivity | split; vm_compute; reflexivity]).
  revert HF. generalize (F64.Distance (F64.mkPair tiny 0) (F64.mkPair 0 0)),
    (F64.Distance (F64.mkPair huge 0) (F64.mkPair 0 0)). intros t1 t2 HF.
  split; [reflexivity |]. split; [reflexivity |].
  split; [apply sqrt_pos |].
  split; [apply sqrt_sqrt, sumsq_nonneg |].
  split; [apply Distance_zero_iff |].
  split; [rewrite !Distance_eq; cbn [snd]; apply distance_symm |].
  split; [simpl; ring |]. split; [simpl; ring |].
  assert (Hb : forall a b, Rabs a <= sqrt (a * a + b * b)).
  { intros a b. rewrite <- sqrt_Rsqr_abs. apply sqrt_le_1_alt.
    unfold Rsqr. nra. }
  split; [apply Hb |].
  split; [unfold Distance; cbn [snd]; rewrite Rplus_comm; apply Hb |].
  split; [| exact HF].
  rewrite !Distance_eq. cbn [snd]. apply triangle.
Qed.

Lemma newton_swap b b2 :
  newton b2 b = mkPair (- px (newton b b2)) (- py (newton b b2)).
Proof.
  unfold newton.
  replace ((px (pos b2) - px (pos b)) * (px (pos b2) - px (pos b))
           + (py (pos b2) - py (pos b)) * (py (pos b2) - py (pos b)))
    with ((px (pos b) - px (pos b2)) * (px (pos b) - px (pos b2))
          + (py (pos b) - py (pos b2)) * (py (pos b) - py (pos b2))) by ring.
  set (d := sqrt _).
  destruct (Reqb d 0) eqn:E.
  - apply pair_eq; simpl; ring.
  - assert (d <> 0) by (intros H; apply Reqb_eq in H; congruence).
    apply pair_eq; simpl; field; auto.
Qed.

(** X4. In real arithmetic ComputeForce obeys Newton's third law:
    swapping the two stars negates the force.  The force it returns for
    [b] and [b2] has the magnitude [G * m1 * m2 / d^2], and for positive
    masses at distinct positions it points from [b2] towards [b]; a star
    of mass zero on either side gives the zero force.  In binary64 the
    two products [G * m1 * m2] and [G * m2 * m1] round differently: for
    masses 0.1 and 7 at distance 1 the two forces are
    -4.6718560000000004e-11 and 4.671856000000001e-11; and two bodies
    1e-200 apart exert the zero force, their distance being 0. *)
Theorem ComputeForce_third_law b b2 :
  exists f,
    ComputeForce b b2 = Done f /\
    ComputeForce b2 b = Done (mkPair (- px f) (- py f)) /\
    (pos b <> pos b2 ->
     px f * px f + py f * py f
     = (G * mass (deref b) * mass (deref b2)
        / (snd (Distance (pos b) (pos b2)) * snd (Distance (pos b) (pos b2))))
       * (G * mass (deref b) * mass (deref b2)
          / (snd (Distance (pos b) (pos b2)) * snd (Distance (pos b) (pos b2))))) /\
    (pos b <> pos b2 -> 0 < mass (deref b) -> 0 < mass (deref b2) ->
     0 < px f * (px (pos b) - px (pos b2)) + py f * (py (pos b) - py (pos b2))) /\
    (mass (deref b) = 0 \/ mass (deref b2) = 0 -> f = zeroPair) /\
    (F64.ComputeForce (F64.body 0 0 0 tenth) (F64.body 1 1 0 7)
     = F64.mkPair (-0x1.9af0d83e7f79ep-35) 0 /\
     F64.ComputeForce (F64.body 1 1 0 7) (F64.body 0 0 0 tenth)
     = F64.mkPair 0x1.9af0d83e7f79fp-35 0 /\
     F64.ComputeForce (F64.body 0 tiny 0 1) (F64.body 1 0 0 1) = F64.zeroPair).
Proof.
  assert (HF : F64.ComputeForce (F64.body 0 0 0 tenth) (F64.body 1 1 0 7)
               = F64.mkPair (-0x1.9af0d83e7f79ep-35) 0 /\
               F64.ComputeForce (F64.body 1 1 0 7) (F64.body 0 0 0 tenth)
               = F64.mkPair 0x1.9af0d83e7f79fp-35 0 /\
               F64.ComputeForce (F64.body 0 tiny 0 1) (F64.body 1 0 0 1) = F64.zeroPair)
    by (repeat split; vm_compute; reflexivity).
  revert HF.
  generalize (F64.ComputeForce (F64.body 0 0 0 tenth) (F64.body 1 1 0 7)),
    (F64.ComputeForce (F64.body 1 1 0 7) (F64.body 0 0 0 tenth)),
    (F64.ComputeForce (F64.body 0 tiny 0 1) (F64.body 1 0 0 1)).
  intros t1 t2 t3 HF.
  exists (newton b b2). rewrite !ComputeForce_newton.
  split; [reflexivity |]. split; [now rewrite newton_swap |].
  unfold newton, Distance. cbn [snd].
  set (dX := px (pos b) - px (pos b2)).
  set (dY := py (pos b) - py (pos b2)).
  set (d := sqrt (dX * dX + dY * dY)).
  assert (Hdd : d * d = dX * dX + dY * dY) by apply sqrt_sqrt, sumsq_nonneg.
  assert (Hd0 : 0 <= d) by apply sqrt_pos.
  assert (Hne : pos b <> pos b2 -> d <> 0).
  { intros Hp Hd. apply Hp. now apply (Distance_zero_iff (pos b) (pos b2)). }
  split; [| split; [| split; [| exact HF]]].
  - intros Hp. specialize (Hne Hp). rewrite Reqb_false by trivial. simpl.
    set (F := G * mass (deref b) * mass (deref b2) / (d * d)).
    replace (F * (dX / d) * (F * (dX / d)) + F * (dY / d) * (F * (dY / d)))
      with (F * F * ((dX * dX + dY * dY) / (d * d))) by (field; trivial).
    rewrite <- Hdd. field. trivial.
  - intros Hp Hm1 Hm2. specialize (Hne Hp). rewrite Reqb_false by trivial. simpl.
    set (F := G * mass (deref b) * mass (deref b2) / (d * d)).
    replace (F * (dX / d) * dX + F * (dY / d) * dY)
      with (F * ((dX * dX + dY * dY) / d)) by (field; trivial).
    rewrite <- Hdd.
    assert (0 < d) by lra.
    assert (0 < F).
    { unfold F. apply Rdiv_lt_0_compat; [| nra].
      pose proof G_pos. apply Rmult_lt_0_compat; [nra | trivial]. }
    replace (d * d / d) with d by (field; trivial). nra.
  - intros Hz. destruct (Reqb d 0); trivial.
    apply pair_eq; simpl; destruct Hz as [-> | ->]; unfold Rdiv; ring.
Qed.

(** ** ComputeCenterAndMass on any tree *)

Lemma bodies_cons q st c cs :
  bodies (mkNode q st (c :: cs))
  = flat_map (fun oc => match oc with Some d => bodies d | None => [] end) (c :: cs).
Proof. reflexivity. Qed.

Lemma ComputeCenterAndMass_children_outcome cs :
  (forall c, In (Some c) cs -> forall next,
      match ComputeCenterAndMass c next with
      | Done (c', next') =>
          hasNilChild c = false /\ bodies c' = bodies c /\ sector c' = sector c /\
          (next <= next')%nat /\ hasNilChild c' = false
      | Panic => hasNilChild c = true
      | _ => False
      end) ->
  forall tm xc yc next,
    match ComputeCenterAndMass_children ComputeCenterAndMass cs tm xc yc next with
    | Done (cs', _, _, _, next') =>
        existsb (fun oc => match oc with Some c => hasNilChild c | None => true end) cs
        = false /\
        flat_map (fun oc => match oc with Some d => bodies d | None => [] end) cs'
        = flat_map (fun oc => match oc with Some d => bodies d | None => [] end) cs /\
        length cs' = length cs /\
        (next <= next')%nat /\
        existsb (fun oc => match oc with Some c => hasNilChild c | None => true end) cs'
        = false
    | Panic =>
        existsb (fun oc => match oc with Some c => hasNilChild c | None => true end) cs
        = true
    | _ => False
    end.
Proof.
  induction cs as [| [c|] cs IH]; intros H tm xc yc next.
  - simpl. auto.
  - cbn [ComputeCenterAndMass_children existsb].
    pose proof (H c (or_introl eq_refl) next) as Hc.
    destruct (ComputeCenterAndMass c next) as [[c' next'] | | |]; try contradiction;
      cbn [bind].
    + destruct Hc as (Hn & Hb & Hs & Hle & Hn').
      assert (IH' := fun tm xc yc => IH (fun d Hd => H d (or_intror Hd)) tm xc yc next').
      destruct (star c') as [st|].
      * specialize (IH' (tm + mass (deref st)) (xc + mass (deref st) * px (pos st))
                      (yc + mass (deref st) * py (pos st))).
        destruct (ComputeCenterAndMass_children _ cs _ _ _ next')
          as [[[[[cs' tm'] xc'] yc'] next''] | | |]; try contradiction; cbn [bind].
        -- destruct IH' as (He & Hbs & Hl & Hle' & He').
           cbn [existsb flat_map length]. rewrite Hn, Hn', Hb, Hbs, Hl, He, He'.
           repeat split; trivial. lia.
        -- rewrite Hn. exact IH'.
      * specialize (IH' tm xc yc).
        destruct (ComputeCenterAndMass_children _ cs _ _ _ next')
          as [[[[[cs' tm'] xc'] yc'] next''] | | |]; try contradiction; cbn [bind].
        -- destruct IH' as (He & Hbs & Hl & Hle' & He').
           cbn [existsb flat_map length]. rewrite Hn, Hn', Hb, Hbs, Hl, He, He'.
           repeat split; trivial. lia.
        -- rewrite Hn. exact IH'.
    + now rewrite Hc.
  - reflexivity.
Qed.

Lemma ComputeCenterAndMass_cases node next :
  match ComputeCenterAndMass node next with
  | Done (node', next') =>
      hasNilChild node = false /\ bodies node' = bodies node /\
      sector node' = sector node /\ (next <= next')%nat /\
      hasNilChild node' = false
  | Panic => hasNilChild node = true
  | DivByZero => False
  | OutOfFuel => False
  end.
Proof.
  revert next. induction node as [q st cs IH] using Node_ind'. intros next.
  destruct cs as [| c cs].
  - simpl. auto.
  - rewrite ComputeCenterAndMass_eq.
    pose proof (@ComputeCenterAndMass_children_outcome (c :: cs) IH 0 0 0 next) as H.
    destruct (ComputeCenterAndMass_children _ (c :: cs) 0 0 0 next)
      as [[[[[cs' tm] xc] yc] next1] | | |]; try contradiction; cbn [bind].
    + destruct H as (He & Hb & Hl & Hle & He').
      assert (Hcs' : exists d ds, cs' = d :: ds)
        by (destruct cs'; [discriminate | eauto]).
      destruct Hcs' as (d & ds & ->).
      destruct (Rltb 0 tm) eqn:Etm.
      * apply Rltb_lt in Etm. rewrite !fdiv_Done by lra. cbn [bind].
        rewrite !bodies_cons. cbn [hasNilChild sector].
        repeat split; trivial. lia.
      * rewrite !bodies_cons. cbn [hasNilChild sector]. repeat split; trivial.
    + exact H.
Qed.

(** X5. ComputeCenterAndMass never divides by zero, because the division
    by the total mass is guarded, and needs no recursion bound.  It panics
    exactly on the trees in which some node has a [nil] child; on every
    other tree it returns a tree with the same bodies in the same square
    and again without [nil] child, and the allocation counter only
    grows. *)
Theorem ComputeCenterAndMass_outcome node next :
  ComputeCenterAndMass node next <> DivByZero /\
  ComputeCenterAndMass node next <> OutOfFuel /\
  (ComputeCenterAndMass node next = Panic <-> hasNilChild node = true) /\
  (hasNilChild node = false ->
   exists node' next',
     ComputeCenterAndMass node next = Done (node', next') /\
     bodies node' = bodies node /\ sector node' = sector node /\
     hasNilChild node' = false /\ (next <= next')%nat).
Proof.
  pose proof (ComputeCenterAndMass_cases node next) as H.
  destruct (ComputeCenterAndMass node next) as [[node' next'] | | |];
    try contradiction.
  - destruct H as (Hn & Hb & Hs & Hle & Hn').
    repeat split; try discriminate.
    + congruence.
    + intros _. exists node', next'. auto.
  - repeat split; try discriminate; trivial. congruence.
Qed.

(** ** InsertStar and GenerateQuadTree: the tree that is built *)

Lemma F64_treeOf_sector q l n : F64.treeOf q l n -> F64.sector n = q.
Proof. now inversion 1. Qed.

Lemma F64_InsertStar_cases s f :
  forall q l n,
    F64.treeOf q l n ->
    F64.InsertStar f n s = OutOfFuel \/ exists n', F64.InsertStar f n s = Done n'.
Proof.
  induction f as [| f IH]; intros q l n Ht; [now left |].
  inversion Ht as [q0 | q0 o | q0 l0 cs Hlen Hcs Hall]; subst.
  - right. rewrite F64_InsertStar_empty. eauto.
  - destruct f as [| f].
    + left. rewrite F64_InsertStar_leaf.
      now rewrite (F64_onChild_map _ _ _ _ _
                     (F64_emptyQuads_nth q (F64_FindQuadrant_lt q o))).
    + rewrite F64_InsertStar_leaf_step.
      destruct (Nat.eqb (F64.FindQuadrant q o) (F64.FindQuadrant q s)); [| eauto].
      destruct (IH _ _ _ (F64.treeOf_leaf (F64.quadrantOf q (F64.FindQuadrant q o)) o))
        as [-> | [c' ->]]; [now left | right; cbn [bind]; eauto].
  - pose proof (F64_FindQuadrant_lt q s) as Hlt.
    destruct (nth_error cs (F64.FindQuadrant q s)) as [c |] eqn:Hc;
      [| apply nth_error_None in Hc; lia].
    destruct cs as [| c0 cs0] eqn:Ecs; [discriminate |].
    cbn [map]. rewrite F64_InsertStar_internal.
    change (Some c0 :: map Some cs0) with (map Some (c0 :: cs0)).
    rewrite (@F64_onChild_map _ _ _ _ _ c Hc).
    destruct (IH _ _ _ (Hall _ _ Hc)) as [-> | [c' ->]];
      [now left | right; cbn [bind]; eauto].
Qed.

Lemma F64_quadrantStars_partition q l :
  Permutation l
    (F64.quadrantStars q 0 l ++ F64.quadrantStars q 1 l
     ++ F64.quadrantStars q 2 l ++ F64.quadrantStars q 3 l).
Proof.
  unfold F64.quadrantStars. induction l as [| a l IH]; [constructor |].
  pose proof (F64_FindQuadrant_lt q a) as Hlt. cbn [filter].
  destruct (F64.FindQuadrant q a) as [| [| [| [| i]]]]; try lia; cbn [Nat.eqb].
  - now constructor.
  - now apply Permutation_cons_app.
  - rewrite app_assoc. apply Permutation_cons_app. now rewrite <- app_assoc.
  - rewrite !app_assoc. apply Permutation_cons_app. now rewrite <- !app_assoc.
Qed.

Lemma F64_treeOf_bodies q l n : F64.treeOf q l n -> Permutation (F64.bodies n) l.
Proof.
  induction 1 as [q | q s | q l cs Hlen Hcs Hall IH]; [constructor | reflexivity |].
  destruct cs as [| c0 [| c1 [| c2 [| c3 [| c4 cs]]]]]; try discriminate.
  cbn [map F64.bodies flat_map]. rewrite app_nil_r.
  rewrite (IH 0%nat c0 eq_refl), (IH 1%nat c1 eq_refl), (IH 2%nat c2 eq_refl),
    (IH 3%nat c3 eq_refl).
  symmetry. apply F64_quadrantStars_partition.
Qed.

(** X6. In binary64: on the tree of a list of bodies, as the insertions
    of GenerateQuadTree build it, InsertStar never panics and never
    divides by zero.  When it returns, the tree is the tree of the list
    with the new body appended, over the same square, and holds the bodies
    it held and the new one; a larger recursion depth gives the same tree,
    and a depth that does not suffice is not helped by a smaller one. *)
Theorem InsertStar_adds_body fuel q l n s :
  F64.treeOf q l n ->
  F64.InsertStar fuel n s <> Panic /\
  F64.InsertStar fuel n s <> DivByZero /\
  (forall n', F64.InsertStar fuel n s = Done n' ->
     F64.treeOf q (l ++ [s]) n' /\ F64.sector n' = F64.sector n /\
     Permutation (F64.bodies n') (s :: F64.bodies n) /\
     forall fuel', (fuel <= fuel')%nat -> F64.InsertStar fuel' n s = Done n') /\
  (F64.InsertStar fuel n s = OutOfFuel ->
     forall fuel', (fuel' <= fuel)%nat -> F64.InsertStar fuel' n s = OutOfFuel).
Proof.
  intros Ht.
  destruct (@F64_InsertStar_cases s fuel q l n Ht) as [E | (n1 & E)].
  - rewrite E. repeat split; try discriminate.
    intros _ fuel' Hle.
    destruct (@F64_InsertStar_cases s fuel' q l n Ht) as [E' | (n1 & E')]; trivial.
    pose proof (@F64_InsertStar_mono fuel' n s n1 E' fuel Hle). congruence.
  - rewrite E. split; [discriminate |]. split; [discriminate |].
    split; [| discriminate].
    intros n' E'. injection E' as <-.
    pose proof (@F64_InsertStar_treeOf s fuel q l n n1 Ht E) as Ht1.
    split; [exact Ht1 |].
    split; [now rewrite (F64_treeOf_sector Ht1), (F64_treeOf_sector Ht) |].
    split.
    + rewrite (F64_treeOf_bodies Ht1), (F64_treeOf_bodies Ht).
      symmetry. apply Permutation_cons_append.
    + intros fuel' Hle. now apply (@F64_InsertStar_mono fuel n s n1 E fuel').
Qed.

Lemma InsertStar_adds_body_witness :
  exists n',
    F64.InsertStar 4 (F64.mkNode (F64.mkQuadrant 0 0 4) (Some (F64.body 0 1 1 1)) [])
      (F64.body 1 1.5 1.5 1) = Done n' /\
    F64.treeOf (F64.mkQuadrant 0 0 4) [F64.body 0 1 1 1; F64.body 1 1.5 1.5 1] n' /\
    Permutation (F64.bodies n') [F64.body 1 1.5 1.5 1; F64.body 0 1 1 1].
Proof.
  destruct (@InsertStar_adds_body 4 (F64.mkQuadrant 0 0 4) [F64.body 0 1 1 1]
              (F64.mkNode (F64.mkQuadrant 0 0 4) (Some (F64.body 0 1 1 1)) [])
              (F64.body 1 1.5 1.5 1) (F64.treeOf_leaf _ _)) as (_ & _ & H & _).
  eexists. split; [vm_compute; reflexivity |].
  match goal with |- F64.treeOf _ _ ?t /\ _ => destruct (H t) as (Ht & _ & Hp & _) end.
  - vm_compute. reflexivity.
  - split; [exact Ht | exact Hp].
Defined.

Lemma GenerateQuadTree_inv fuel u next tree next' :
  GenerateQuadTree fuel u next = Done (tree, next') ->
  exists root1 n,
    insertAll fuel (width u) (stars u) (mkNode (mkQuadrant 0 0 (width u)) None [])
    = Done root1 /\
    built root1 /\ sector root1 = mkQuadrant 0 0 (width u) /\
    Permutation (bodies root1) (inDomain u) /\
    ComputeCenterAndMass root1 next = Done (n, next') /\
    tree = mkQuadTree (Some n).
Proof.
  unfold GenerateQuadTree. intros H.
  destruct (@insertAll_built fuel (width u) (stars u)
              (mkNode (mkQuadrant 0 0 (width u)) None []))
    as [E | (root1 & E & Hb & Hs & Hp)]; [constructor | reflexivity | |].
  - rewrite E in H. discriminate.
  - rewrite E in H. cbn [bind] in H.
    destruct (ComputeCenterAndMass root1 next) as [[n nx] | | |] eqn:EC;
      cbn [bind] in H; try discriminate.
    injection H as <- <-. exists root1, n.
    simpl in Hp. rewrite app_nil_r in Hp. auto 10.
Qed.

Lemma Forall2_nth_error_r (A B : Type) (Q : A -> B -> Prop) l l' :
  Forall2 Q l l' ->
  forall i b, nth_error l' i = Some b -> exists a, nth_error l i = Some a /\ Q a b.
Proof.
  induction 1 as [| a b l l' Hab HF IH]; intros [| i] b0 E; simpl in E;
    try discriminate.
  - injection E as <-. exists a. auto.
  - apply IH in E. exact E.
Qed.

Lemma ComputeCenterAndMass_shaped n :
  built n ->
  forall next, exists n' next',
    ComputeCenterAndMass n next = Done (n', next') /\
    sector n' = sector n /\ shaped n'.
Proof.
  induction 1 as [q | q s Hs | q cs Hlen Hsec Hbs IH Hne]; intros next.
  - exists (mkNode q None []), next. repeat split. constructor.
  - exists (mkNode q (Some s) []), next. repeat split. now constructor.
  - destruct (@ComputeCenterAndMass_children_spec
                (fun c c' => sector c' = sector c /\ shaped c') cs) with
      (tm := 0) (xc := 0) (yc := 0) (next := next)
      as (cs' & tm & xc & yc & next1 & Hloop & HF & _).
    { intros c Hc. apply In_nth_error in Hc. destruct Hc as [i Hi]. eauto. }
    assert (Hcs : cs <> []) by (intros ->; simpl in Hlen; lia).
    assert (Hsh : forall st, shaped (mkNode q st (map Some cs'))).
    { intros st. apply shaped_internal.
      - rewrite <- (Forall2_length HF). trivial.
      - intros i c' Hi. destruct (Forall2_nth_error_r HF _ Hi) as (c & Hc & E & _).
        rewrite E. eauto.
      - intros i c' Hi. destruct (Forall2_nth_error_r HF _ Hi) as (c & Hc & _ & S).
        trivial. }
    rewrite ComputeCenterAndMass_internal by trivial.
    rewrite Hloop. cbn [bind].
    destruct (Rltb 0 tm) eqn:Etm.
    + apply Rltb_lt in Etm. rewrite !fdiv_Done by lra. cbn [bind].
      eexists. eexists. split; [reflexivity |]. split; [reflexivity | apply Hsh].
    + eexists. eexists. split; [reflexivity |]. split; [reflexivity | apply Hsh].
Qed.

Lemma shaped_subnode m n : subnode m n -> shaped n -> shaped m.
Proof.
  induction 1 as [| n c Hc Hsub IH]; trivial.
  intros Hn. apply IH.
  inversion Hn as [q | q s Hs | q st cs Hlen Hsec Hall]; subst n; simpl in Hc;
    try contradiction.
  apply in_map_iff in Hc. destruct Hc as (c0 & E & Hin). injection E as ->.
  apply In_nth_error in Hin. destruct Hin as [i Hi]. eauto.
Qed.

Lemma inside_quadrantOf q i s : inside (quadrantOf q i) s -> inside q s.
Proof.
  unfold inside. destruct i as [|[|[|i]]]; simpl; intros; lra.
Qed.

Lemma shaped_bodies_inside n :
  shaped n -> forall b, In b (bodies n) -> inside (sector n) b.
Proof.
  induction 1 as [q | q s Hs | q st cs Hlen Hsec Hall IH]; intros b Hb.
  - contradiction.
  - simpl in Hb. destruct Hb as [<- | []]. trivial.
  - assert (Hcs : cs <> []) by (intros ->; simpl in Hlen; lia).
    rewrite bodies_internal in Hb by trivial.
    apply in_flat_map in Hb. destruct Hb as (c & Hc & Hb).
    apply In_nth_error in Hc. destruct Hc as [i Hi].
    simpl. apply inside_quadrantOf with (i := i).
    rewrite <- (Hsec i c Hi). eauto.
Qed.

Lemma GenerateQuadTree_shaped fuel u next tree next' :
  GenerateQuadTree fuel u next = Done (tree, next') ->
  exists n,
    root tree = Some n /\ sector n = mkQuadrant 0 0 (width u) /\ shaped n.
Proof.
  intros H. apply GenerateQuadTree_inv in H.
  destruct H as (root1 & n & _ & Hb & Hs & _ & EC & ->).
  destruct (ComputeCenterAndMass_shaped Hb next) as (n' & nx & E & Hs' & Hsh).
  rewrite EC in E. injection E as <- <-.
  exists n. repeat split; trivial. congruence.
Qed.

(** X7. The tree that GenerateQuadTree returns has the domain as the
    square of its root, and every node of it either has no children or has
    exactly four, none of them [nil], over the four quadrants of its
    square in the order NW, NE, SW, SE, each of half the width and with
    the corner that Subdivide computes.  IsLeaf holds exactly of the nodes
    without children. *)
Theorem GenerateQuadTree_shape fuel u next tree next' :
  GenerateQuadTree fuel u next = Done (tree, next') ->
  exists n,
    root tree = Some n /\ sector n = mkQuadrant 0 0 (width u) /\
    forall m, subnode m n ->
      (IsLeaf m = true <-> children m = []) /\
      (children m = [] \/
       exists c0 c1 c2 c3,
         children m = [Some c0; Some c1; Some c2; Some c3] /\
         sector c0 = quadrantOf (sector m) 0 /\
         sector c1 = quadrantOf (sector m) 1 /\
         sector c2 = quadrantOf (sector m) 2 /\
         sector c3 = quadrantOf (sector m) 3).
Proof.
  intros H. destruct (GenerateQuadTree_shaped _ _ _ H) as (n & Hr & Hs & Hsh).
  exists n. split; [trivial |]. split; [trivial |].
  intros m Hm. pose proof (shaped_subnode Hm Hsh) as Hshm.
  split.
  - inversion Hshm as [q | q s Hi | q st cs Hlen Hsec Hall]; subst m.
    + split; reflexivity.
    + split; reflexivity.
    + destruct cs as [| c cs]; [simpl in Hlen; lia |].
      split; discriminate.
  - inversion Hshm as [q | q s Hi | q st cs Hlen Hsec Hall]; subst m.
    + now left.
    + now left.
    + right. destruct cs as [| c0 [| c1 [| c2 [| c3 [| c4 cs]]]]];
        simpl in Hlen; try lia.
      exists c0, c1, c2, c3. cbn [children sector map].
      split; [reflexivity |].
      repeat split.
      * apply (Hsec 0%nat). reflexivity.
      * apply (Hsec 1%nat). reflexivity.
      * apply (Hsec 2%nat). reflexivity.
      * apply (Hsec 3%nat). reflexivity.
Qed.

Lemma GenerateQuadTree_shape_witness :
  exists n,
    root (mkQuadTree (Some clusterTree)) = Some n /\
    sector n = mkQuadrant 0 0 (width clusterUniverse) /\
    forall m, subnode m n ->
      (IsLeaf m = true <-> children m = []) /\
      (children m = [] \/
       exists c0 c1 c2 c3,
         children m = [Some c0; Some c1; Some c2; Some c3] /\
         sector c0 = quadrantOf (sector m) 0 /\
         sector c1 = quadrantOf (sector m) 1 /\
         sector c2 = quadrantOf (sector m) 2 /\
         sector c3 = quadrantOf (sector m) 3).
Proof.
  apply (@GenerateQuadTree_shape 3 clusterUniverse 3 (mkQuadTree (Some clusterTree))
           5%nat).
  apply clusterTree_built.
Defined.

Lemma massSum_perm l1 l2 : Permutation l1 l2 -> massSum l1 = massSum l2.
Proof. induction 1; simpl; lra. Qed.

Lemma momentX_perm l1 l2 : Permutation l1 l2 -> momentX l1 = momentX l2.
Proof. induction 1; simpl; lra. Qed.

Lemma momentY_perm l1 l2 : Permutation l1 l2 -> momentY l1 = momentY l2.
Proof. induction 1; simpl; lra. Qed.

Lemma insertAll_none fuel w ss root :
  filter (fun s => IsInsideUniverse s w) ss = [] -> insertAll fuel w ss root = Done root.
Proof.
  induction ss as [| a ss IH]; simpl; trivial.
  destruct (IsInsideUniverse a w); [discriminate | trivial].
Qed.

Lemma insertAll_single fuel w ss s q root1 :
  filter (fun s => IsInsideUniverse s w) ss = [s] ->
  insertAll fuel w ss (mkNode q None []) = Done root1 ->
  root1 = mkNode q (Some s) [].
Proof.
  induction ss as [| a ss IH]; simpl; [discriminate |].
  destruct (IsInsideUniverse a w); [| trivial].
  intros E H. injection E as -> E.
  destruct fuel as [| f]; [discriminate |].
  rewrite InsertStar_empty in H. cbn [bind] in H.
  rewrite insertAll_none in H by trivial. congruence.
Qed.

Lemma bodies_leaf_length n : children n = [] -> (length (bodies n) <= 1)%nat.
Proof.
  destruct n as [q [s|] cs]; simpl; intros ->; simpl; lia.
Qed.

(** X8. The root that GenerateQuadTree returns, by the number of stars
    inside the domain: with none the root is empty, with one it is a leaf
    holding that star, and in both cases nothing is allocated; with two or
    more stars of positive mass the root is no leaf and holds a star.  In
    real arithmetic the mass of that star is the total mass of the stars
    inside the domain and its position is their centre of mass; the
    binary64 code stores the rounded sums of its loop instead, in the
    order of the tree. *)
Theorem GenerateQuadTree_root fuel u next tree next' :
  GenerateQuadTree fuel u next = Done (tree, next') ->
  exists n,
    root tree = Some n /\
    (inDomain u = [] ->
     n = mkNode (mkQuadrant 0 0 (width u)) None [] /\ next' = next) /\
    (forall s, inDomain u = [s] ->
     n = mkNode (mkQuadrant 0 0 (width u)) (Some s) [] /\ next' = next) /\
    ((2 <= length (inDomain u))%nat ->
     (forall b, In b (inDomain u) -> 0 < mass (deref b)) ->
     exists a,
       star n = Some a /\ IsLeaf n = false /\
       mass (deref a) = massSum (inDomain u) /\
       px (pos a) = momentX (inDomain u) / massSum (inDomain u) /\
       py (pos a) = momentY (inDomain u) / massSum (inDomain u)).
Proof.
  intros H. apply GenerateQuadTree_inv in H.
  destruct H as (root1 & n & EI & Hb & Hs & Hp & EC & ->).
  exists n. split; [reflexivity |]. split; [| split].
  - intros E. rewrite insertAll_none in EI by exact E.
    injection EI as <-. simpl in EC. now injection EC as <- <-.
  - intros s E. apply (@insertAll_single _ _ _ _ _ _ E) in EI. subst root1.
    simpl in EC. now injection EC as <- <-.
  - intros Hlen Hpos.
    destruct (ComputeCenterAndMass_built Hb next) as (n' & nx & E & Hbod & _ & Hagg).
    rewrite EC in E. injection E as <- <-.
    destruct Hagg as (Ha & _).
    { intros b Hin. apply Hpos. now apply (Permutation_in _ Hp). }
    assert (Hperm : Permutation (bodies n) (inDomain u)) by now rewrite Hbod.
    assert (Hc : children n <> []).
    { intros Hc. apply bodies_leaf_length in Hc.
      rewrite (Permutation_length Hperm) in Hc. lia. }
    destruct (aggregated_internal_inv Ha Hc) as (a & Hst & Hm & _ & Hx & Hy).
    exists a. split; [trivial |]. split.
    + inversion Ha as [q st E1 | q a0 cs Hne]; subst n; simpl in Hc;
        [congruence | now apply IsLeaf_internal].
    + rewrite Hm, Hx, Hy.
      rewrite (massSum_perm Hperm), (momentX_perm Hperm), (momentY_perm Hperm).
      auto.
Qed.

Lemma GenerateQuadTree_root_witness :
  exists n,
    root (mkQuadTree (Some clusterTree)) = Some n /\
    (inDomain clusterUniverse = [] ->
     n = mkNode (mkQuadrant 0 0 (width clusterUniverse)) None [] /\ 5%nat = 3%nat) /\
    (forall s, inDomain clusterUniverse = [s] ->
     n = mkNode (mkQuadrant 0 0 (width clusterUniverse)) (Some s) [] /\
     5%nat = 3%nat) /\
    ((2 <= length (inDomain clusterUniverse))%nat ->
     (forall b, In b (inDomain clusterUniverse) -> 0 < mass (deref b)) ->
     exists a,
       star n = Some a /\ IsLeaf n = false /\
       mass (deref a) = massSum (inDomain clusterUniverse) /\
       px (pos a)
       = momentX (inDomain clusterUniverse) / massSum (inDomain clusterUniverse) /\
       py (pos a)
       = momentY (inDomain clusterUniverse) / massSum (inDomain clusterUniverse)).
Proof.
  apply (@GenerateQuadTree_root 3 clusterUniverse 3 (mkQuadTree (Some clusterTree))
           5%nat).
  apply clusterTree_built.
Defined.

Lemma subnode_bodies m n : subnode m n -> incl (bodies m) (bodies n).
Proof.
  induction 1 as [| n c Hc Hsub IH]; [apply incl_refl |].
  intros b Hb. apply IH in Hb.
  destruct n as [q st cs]. simpl in Hc.
  destruct cs as [| c0 cs]; [contradiction |].
  rewrite bodies_cons. apply in_flat_map. exists (Some c). auto.
Qed.

Lemma moment_bounds (f : ptr Star -> R) lo hi (l : list (ptr Star)) :
  (forall b, In b l -> lo <= f b <= hi /\ 0 <= mass (deref b)) ->
  lo * massSum l <= fold_right (fun s acc => mass (deref s) * f s + acc) 0 l
  <= hi * massSum l.
Proof.
  induction l as [| s l IH]; intros H; simpl; [lra |].
  destruct (H s (or_introl eq_refl)) as (Hf & Hm).
  specialize (IH (fun b Hb => H b (or_intror Hb))). nra.
Qed.

Lemma div_bounds lo hi x M : 0 < M -> lo * M <= x <= hi * M -> lo <= x / M <= hi.
Proof.
  intros HM [H1 H2].
  assert (E : x / M * M = x) by (field; lra).
  split; apply Rmult_le_reg_r with M; trivial; rewrite E; trivial.
Qed.

(** X9. In real arithmetic, in the tree that GenerateQuadTree returns
    for stars of positive mass, every body lies in the closed square of
    the nodes above it, and the star of every node with children has the
    mass of the bodies beneath the node, which is positive, sits at their
    centre of mass and so lies in the closed square of its node: a centre
    of mass never leaves the square of the bodies it stands for.  In
    binary64 it can: for the two bodies of [ridgeUniverse], both at
    y = 3, the root stores y = 3.0000000000000004, outside the domain. *)
Theorem aggregate_inside_square fuel u next tree next' :
  GenerateQuadTree fuel u next = Done (tree, next') ->
  (forall s, In s (inDomain u) -> 0 < mass (deref s)) ->
  (exists n,
     root tree = Some n /\
     forall m,
       subnode m n ->
       (forall b, In b (bodies m) -> inside (sector m) b) /\
       forall a, children m <> [] -> star m = Some a ->
         mass (deref a) = massSum (bodies m) /\
         px (pos a) = momentX (bodies m) / massSum (bodies m) /\
         py (pos a) = momentY (bodies m) / massSum (bodies m) /\
         0 < mass (deref a) /\ inside (sector m) a) /\
  (exists ftree fnext a,
     F64.GenerateQuadTree 2 ridgeUniverse 2 = Done (ftree, fnext) /\
     option_map F64.star (F64.root ftree) = Some (Some a) /\
     F64.py (F64.pos a) = 0x1.8000000000001p+1%float /\
     F64.IsInsideUniverse a 3 = false).
Proof.
  intros H Hpos.
  split; [| eexists; eexists; eexists; repeat split; vm_compute; reflexivity].
  destruct (GenerateQuadTree_shaped _ _ _ H) as (n & Hr & _ & Hsh).
  apply GenerateQuadTree_inv in H.
  destruct H as (root1 & n0 & _ & Hb & _ & Hp & EC & ->).
  simpl in Hr. injection Hr as ->.
  destruct (ComputeCenterAndMass_built Hb next) as (n' & nx & E & Hbod & _ & Hagg).
  rewrite EC in E. injection E as <- <-.
  assert (Hpos' : forall b, In b (bodies n) -> 0 < mass (deref b)).
  { intros b Hin. apply Hpos. apply (Permutation_in _ Hp). now rewrite <- Hbod. }
  destruct Hagg as (Ha & _).
  { intros b Hin. apply Hpos'. now rewrite Hbod. }
  exists n. split; [reflexivity |].
  intros m Hm.
  pose proof (shaped_bodies_inside (shaped_subnode Hm Hsh)) as Hin.
  split; [exact Hin |].
  intros a Hc Hst.
  destruct (aggregated_internal_inv (aggregated_subnode Hm Ha) Hc)
    as (a' & Hst' & Hmass & Hgt & Hx & Hy).
  assert (a' = a) by congruence. subst a'.
  split; [trivial |]. split; [trivial |]. split; [trivial |]. split; [trivial |].
  assert (HM : 0 < massSum (bodies m)) by lra.
  destruct (@moment_bounds (fun s => px (pos s)) (qx (sector m))
              (qx (sector m) + qwidth (sector m)) (bodies m)) as (Hx1 & Hx2).
  { intros b Hbm. split; [apply (Hin b Hbm) |].
    apply Rlt_le, Hpos', (subnode_bodies Hm), Hbm. }
  destruct (@moment_bounds (fun s => py (pos s)) (qy (sector m))
              (qy (sector m) + qwidth (sector m)) (bodies m)) as (Hy1 & Hy2).
  { intros b Hbm. split; [apply (Hin b Hbm) |].
    apply Rlt_le, Hpos', (subnode_bodies Hm), Hbm. }
  fold (momentX (bodies m)) in Hx1, Hx2. fold (momentY (bodies m)) in Hy1, Hy2.
  unfold inside. rewrite Hx, Hy.
  split; apply div_bounds; auto.
Qed.

Lemma aggregate_inside_square_witness :
  exists n,
    root (mkQuadTree (Some clusterTree)) = Some n /\
    forall m,
      subnode m n ->
      (forall b, In b (bodies m) -> inside (sector m) b) /\
      forall a, children m <> [] -> star m = Some a ->
        mass (deref a) = massSum (bodies m) /\
        px (pos a) = momentX (bodies m) / massSum (bodies m) /\
        py (pos a) = momentY (bodies m) / massSum (bodies m) /\
        0 < mass (deref a) /\ inside (sector m) a.
Proof.
  apply (@aggregate_inside_square 3 clusterUniverse 3 (mkQuadTree (Some clusterTree))
           5%nat).
  - apply clusterTree_built.
  - intros s Hs. apply clusterUniverse_masses.
    unfold inDomain in Hs. apply filter_In in Hs. apply Hs.
Defined.

(** ** UpdateUniverse and BarnesHut *)

Lemma updateStar_cases b time tree theta :
  (mass (deref b) = 0 /\ updateStar b time tree theta = DivByZero) \/
  (mass (deref b) <> 0 /\
   exists b',
     updateStar b time tree theta = Done b' /\
     addr b' = addr b /\
     (time = 0 -> pos b' = pos b /\ velocity (deref b') = velocity (deref b))).
Proof.
  destruct (Req_dec (mass (deref b)) 0) as [E | Hm].
  - left. split; [trivial |]. unfold updateStar, UpdateAcceleration.
    destruct (CalculateNetForce_Done (root tree) b theta) as [f ->]. cbn [bind].
    rewrite E, fdiv_zero. reflexivity.
  - right. split; [trivial |].
    destruct (@UpdateAcceleration_Done b tree theta Hm) as [a Ha].
    rewrite (@updateStar_eq b time tree theta a Ha). eexists. split; [reflexivity |].
    split; [reflexivity |].
    intros ->. unfold pos. cbn [deref position velocity].
    split; apply pair_eq; simpl; ring.
Qed.

Lemma updateStars_cases bs time tree theta :
  match updateStars bs time tree theta with
  | Done bs' =>
      (forall b, In b bs -> mass (deref b) <> 0) /\
      map (@addr Star) bs' = map (@addr Star) bs /\
      (time = 0 ->
       map pos bs' = map pos bs /\
       map (fun b => velocity (deref b)) bs' = map (fun b => velocity (deref b)) bs)
  | DivByZero => exists b, In b bs /\ mass (deref b) = 0
  | Panic => False
  | OutOfFuel => False
  end.
Proof.
  induction bs as [| b bs IH]; cbn [updateStars].
  - simpl. repeat split; trivial. contradiction.
  - destruct (updateStar_cases b time tree theta)
      as [(Hm & ->) | (Hm & b' & -> & Ha & Ht)]; cbn [bind].
    + exists b. simpl. auto.
    + destruct (updateStars bs time tree theta) as [bs' | | |]; cbn [bind];
        try contradiction.
      * destruct IH as (Hall & Hadr & Hzero).
        split; [| split].
        -- intros c [<- | Hc]; auto.
        -- simpl. congruence.
        -- intros Ht0. destruct (Ht Ht0) as (Hp & Hv).
           destruct (Hzero Ht0) as (Hps & Hvs). simpl. split; congruence.
      * destruct IH as (c & Hc & Hc0). exists c. simpl. auto.
Qed.

Lemma same_values_In (l1 l2 : list (ptr Star)) s :
  map (@deref Star) l1 = map (@deref Star) l2 -> In s l1 ->
  exists t, In t l2 /\ deref t = deref s.
Proof.
  intros E Hs. apply (in_map (@deref Star)) in Hs. rewrite E in Hs.
  apply in_map_iff in Hs. destruct Hs as (t & Ht & Hin). eauto.
Qed.

(** X10. For stars of non-zero mass and a tree that is not [nil],
    UpdateUniverse returns a universe of as many stars and moves the
    allocation counter past their copies.  In real arithmetic a time step
    of zero leaves the positions and the velocities as they were.  (A star
    of mass zero makes UpdateAcceleration divide by zero; the binary64
    code goes on with an infinite or undefined acceleration, of which the
    embedding over the reals has no account.) *)
Theorem UpdateUniverse_outcome u time tree theta next :
  (forall s, In s (stars u) -> mass (deref s) <> 0) ->
  exists u',
    UpdateUniverse u time tree theta next
    = Done (u', (next + length (stars u))%nat) /\
    length (stars u') = length (stars u) /\
    (time = 0 ->
     map pos (stars u') = map pos (stars u) /\
     map (fun b => velocity (deref b)) (stars u')
     = map (fun b => velocity (deref b)) (stars u)).
Proof.
  intros Hm.
  destruct (UpdateUniverse_spec u time tree theta next Hm) as (u' & E & Hlen & _).
  exists u'. split; [exact E |]. split; [exact Hlen |].
  intros ->.
  destruct (copyStars_spec (stars u) next) as (Hval & _).
  assert (Hpos : map pos (fst (copyStars (stars u) next)) = map pos (stars u)).
  { unfold pos. rewrite <- !(map_map (@deref Star) position). now rewrite Hval. }
  assert (Hvel : map (fun b => velocity (deref b)) (fst (copyStars (stars u) next))
                 = map (fun b => velocity (deref b)) (stars u)).
  { rewrite <- !(map_map (@deref Star) velocity). now rewrite Hval. }
  unfold UpdateUniverse, CopyUniverse in E.
  destruct (copyStars (stars u) next) as [copies nx] eqn:EC.
  cbn [stars width fst] in *.
  pose proof (updateStars_cases copies 0 tree theta) as H.
  destruct (updateStars copies 0 tree theta) as [bs' | | |]; cbn [bind] in E;
    try discriminate.
  injection E as <- _. cbn [stars].
  destruct H as (_ & _ & Hz). destruct (Hz eq_refl) as (Hp & Hv).
  split; congruence.
Qed.

Lemma UpdateUniverse_outcome_witness :
  exists u',
    UpdateUniverse outsideUniverse 0 outsideTree 0.5 2 = Done (u', 4%nat) /\
    map pos (stars u') = map pos (stars outsideUniverse).
Proof.
  destruct (@UpdateUniverse_outcome outsideUniverse 0 outsideTree 0.5 2
              outsideUniverse_masses) as (u' & E & _ & H).
  exists u'. split; [exact E |]. now apply H.
Defined.

Lemma sameBodies_refl u : sameBodies u u.
Proof.
  split; [reflexivity |]. induction (stars u); constructor; auto.
Qed.

Lemma sameBodies_trans u1 u2 u3 : sameBodies u1 u2 -> sameBodies u2 u3 -> sameBodies u1 u3.
Proof.
  intros [W1 F1] [W2 F2]. split; [congruence |].
  revert F2. generalize (stars u3). induction F1 as [| a b l l' Hab HF IH];
    intros l3 F2; inversion F2 as [| b' c l2 l3' Hbc HF2]; subst; constructor.
  - destruct Hab as (? & ? & ? & ? & ?), Hbc as (? & ? & ? & ? & ?).
    repeat split; congruence.
  - now apply IH.
Qed.

Lemma sameBodies_length u u' : sameBodies u u' -> length (stars u') = length (stars u).
Proof. intros [_ F]. symmetry. apply (Forall2_length F). Qed.

Lemma same_values_Forall2 (P : Star -> Star -> Prop) (l1 l2 : list (ptr Star)) :
  (forall v, P v v) ->
  map (@deref Star) l2 = map (@deref Star) l1 ->
  Forall2 (fun s s' => P (deref s) (deref s')) l1 l2.
Proof.
  intros HP. revert l2. induction l1 as [| a l1 IH]; intros [| b l2] E;
    simpl in E; try discriminate; constructor.
  - injection E as E _. rewrite E. apply HP.
  - injection E as _ E. now apply IH.
Qed.

Lemma CopyUniverse_sameBodies u next : sameBodies u (fst (CopyUniverse u next)).
Proof.
  destruct (CopyUniverse_spec u next) as (_ & Hw & Hd & _).
  split; [trivial |].
  apply (@same_values_Forall2
           (fun v v' => mass v' = mass v /\ radius v' = radius v /\
                        red v' = red v /\ green v' = green v /\ blue v' = blue v));
    auto.
Qed.

Lemma updateStar_attributes b time tree theta b' :
  updateStar b time tree theta = Done b' ->
  addr b' = addr b /\
  mass (deref b') = mass (deref b) /\
  radius (deref b') = radius (deref b) /\
  red (deref b') = red (deref b) /\
  green (deref b') = green (deref b) /\
  blue (deref b') = blue (deref b).
Proof.
  unfold updateStar.
  destruct (UpdateAcceleration b tree theta) as [a | | |]; cbn [bind];
    intros E; try discriminate.
  injection E as <-. simpl. auto 10.
Qed.

Lemma updateStars_attributes bs time tree theta :
  forall bs', updateStars bs time tree theta = Done bs' ->
  map (@addr Star) bs' = map (@addr Star) bs /\
  Forall2 (fun s s' =>
             mass (deref s') = mass (deref s) /\
             radius (deref s') = radius (deref s) /\
             red (deref s') = red (deref s) /\
             green (deref s') = green (deref s) /\
             blue (deref s') = blue (deref s)) bs bs'.
Proof.
  induction bs as [| b bs IH]; cbn [updateStars]; intros bs' E.
  - injection E as <-. split; [reflexivity | constructor].
  - apply bind_Done in E. destruct E as (b' & Eb & E).
    apply bind_Done in E. destruct E as (rest & Er & E).
    injection E as <-. destruct (IH _ Er) as (Ha & HF).
    destruct (updateStar_attributes _ _ _ _ Eb) as (Hab & Hrest).
    split; [simpl; congruence | constructor; trivial].
Qed.

Lemma UpdateUniverse_attributes u time tree theta next u' next' :
  UpdateUniverse u time tree theta next = Done (u', next') ->
  sameBodies u u' /\
  map (@addr Star) (stars u') = seq next (length (stars u)) /\
  next' = (next + length (stars u))%nat.
Proof.
  pose proof (CopyUniverse_spec u next) as (Hn & Hw & Hd & Ha).
  pose proof (CopyUniverse_sameBodies u next) as Hsame.
  unfold UpdateUniverse.
  destruct (CopyUniverse u next) as [copy nx]. cbn [fst snd] in *.
  intros E. apply bind_Done in E. destruct E as (bs' & Eb & E).
  injection E as <- <-. cbn [stars].
  destruct (updateStars_attributes _ _ _ _ Eb) as (Hadr & HF).
  split; [| split; [congruence | trivial]].
  apply sameBodies_trans with copy; trivial.
  split; [reflexivity | exact HF].
Qed.

Lemma GenerateQuadTree_next fuel u next tree next' :
  GenerateQuadTree fuel u next = Done (tree, next') -> (next <= next')%nat.
Proof.
  intros H. apply GenerateQuadTree_inv in H.
  destruct H as (root1 & n & _ & _ & _ & _ & EC & _).
  pose proof (ComputeCenterAndMass_cases root1 next) as H.
  rewrite EC in H. apply H.
Qed.

Lemma BarnesHut_loop_inv fuel gens u time theta next l next' :
  BarnesHut_loop fuel (S gens) u time theta next = Done (l, next') ->
  exists tree next1 u1 next2 rest,
    GenerateQuadTree fuel u next = Done (tree, next1) /\
    UpdateUniverse u time tree theta next1 = Done (u1, next2) /\
    BarnesHut_loop fuel gens u1 time theta next2 = Done (rest, next') /\
    l = u1 :: rest.
Proof.
  cbn [BarnesHut_loop]. intros H.
  apply bind_Done in H. destruct H as ([tree next1] & EG & H).
  apply bind_Done in H. destruct H as ([u1 next2] & EU & H).
  apply bind_Done in H. destruct H as ([rest next3] & EL & H).
  injection H as <- <-. exists tree, next1, u1, next2, rest. auto.
Qed.

Lemma BarnesHut_loop_blocks fuel gens time theta :
  forall u next l next',
    BarnesHut_loop fuel gens u time theta next = Done (l, next') ->
    blocks (length (stars u)) next l next' /\
    forall ui, In ui l -> sameBodies u ui.
Proof.
  induction gens as [| gens IH]; intros u next l next' H.
  - simpl in H. injection H as <- <-. simpl. split; [lia | contradiction].
  - apply BarnesHut_loop_inv in H.
    destruct H as (tree & next1 & u1 & next2 & rest & EG & EU & EL & ->).
    apply GenerateQuadTree_next in EG.
    apply UpdateUniverse_attributes in EU. destruct EU as (Hsame & Hadr & ->).
    destruct (IH _ _ _ _ EL) as (Hbl & Hall).
    rewrite (sameBodies_length Hsame) in Hbl.
    split.
    + simpl. exists next1. auto.
    + intros ui [<- | Hin]; trivial.
      apply sameBodies_trans with u1; auto.
Qed.

Lemma blocks_le len : forall l lo hi, blocks len lo l hi -> (lo <= hi)%nat.
Proof.
  induction l as [| u l IH]; simpl; intros lo hi H; trivial.
  destruct H as (a & Ha & _ & H). apply IH in H. lia.
Qed.

Lemma blocks_range len : forall l lo hi,
  blocks len lo l hi ->
  forall ui s, In ui l -> In s (stars ui) -> (lo <= addr s < hi)%nat.
Proof.
  induction l as [| u l IH]; simpl; intros lo hi H ui s Hui Hs; [contradiction |].
  destruct H as (a & Ha & Hadr & H).
  destruct Hui as [<- | Hui].
  - apply (in_map (@addr Star)) in Hs. rewrite Hadr in Hs. apply in_seq in Hs.
    apply blocks_le in H. lia.
  - specialize (IH _ _ H ui s Hui Hs). lia.
Qed.

Lemma blocks_NoDup len : forall l lo hi,
  blocks len lo l hi -> forall ui, In ui l -> NoDup (map (@addr Star) (stars ui)).
Proof.
  induction l as [| u l IH]; simpl; intros lo hi H ui Hui; [contradiction |].
  destruct H as (a & Ha & Hadr & H).
  destruct Hui as [<- | Hui]; [rewrite Hadr; apply seq_NoDup | eauto].
Qed.

Lemma blocks_apart len : forall l lo hi,
  blocks len lo l hi ->
  forall i j ui uj s t,
    nth_error l i = Some ui -> nth_error l j = Some uj ->
    In s (stars ui) -> In t (stars uj) -> addr s = addr t -> i = j.
Proof.
  induction l as [| u l IH]; simpl; intros lo hi H i j ui uj s t Hi Hj Hs Ht E.
  - destruct i; discriminate.
  - destruct H as (a & Ha & Hadr & H).
    assert (Hhead : forall x, In x (stars u) -> (addr x < a + len)%nat).
    { intros x Hx. apply (in_map (@addr Star)) in Hx. rewrite Hadr in Hx.
      apply in_seq in Hx. lia. }
    destruct i as [| i], j as [| j]; simpl in Hi, Hj; trivial.
    + injection Hi as <-. apply nth_error_In in Hj.
      pose proof (@blocks_range len l _ _ H uj t Hj Ht).
      specialize (Hhead s Hs). lia.
    + injection Hj as <-. apply nth_error_In in Hi.
      pose proof (@blocks_range len l _ _ H ui s Hi Hs).
      specialize (Hhead t Ht). lia.
    + f_equal. eapply IH; eauto.
Qed.

Lemma BarnesHut_one_generation u time theta next :
  (forall s, In s (stars u) -> mass (deref s) <> 0) ->
  NoDup (map pos (inDomain u)) ->
  exists F, forall fuel, (F <= fuel)%nat ->
    exists l next', BarnesHut fuel u 1 time theta next = Done (l, next').
Proof.
  intros Hm Hnd.
  pose proof (CopyUniverse_spec u next) as (Hn & Hw & Hd & Ha).
  unfold BarnesHut. destruct (CopyUniverse u next) as [first n0].
  cbn [fst snd] in *.
  assert (Hm1 : forall s, In s (stars first) -> mass (deref s) <> 0)
    by (eapply same_values_masses; eauto).
  destruct (@GenerateQuadTree_total first n0) as [F HF].
  { unfold inDomain in *. rewrite Hw.
    now rewrite (same_values_inDomain _ _ (width u) Hd). }
  exists F. intros fuel Hf.
  destruct (HF fuel Hf) as (n & n1 & Hgen & _).
  destruct (UpdateUniverse_spec first time (mkQuadTree (Some n)) theta n1 Hm1)
    as (second & Hup & _).
  cbn [BarnesHut_loop]. rewrite Hgen. cbn [bind]. rewrite Hup. cbn [bind]. eauto.
Qed.

(** X11. Every snapshot that BarnesHut returns holds the bodies of the
    initial universe: the same width and, star by star, the same mass,
    radius and colour.  The snapshots are deep copies: the stars of a
    snapshot have pairwise distinct addresses, all of them allocated
    during the call, and no star is shared between two snapshots. *)
Theorem BarnesHut_invariants fuel u numGens time theta next l next' :
  BarnesHut fuel u numGens time theta next = Done (l, next') ->
  (forall ui, In ui l -> sameBodies u ui) /\
  (forall ui s, In ui l -> In s (stars ui) -> (next <= addr s < next')%nat) /\
  (forall ui, In ui l -> NoDup (map (@addr Star) (stars ui))) /\
  (forall i j ui uj s t,
      nth_error l i = Some ui -> nth_error l j = Some uj ->
      In s (stars ui) -> In t (stars uj) -> addr s = addr t -> i = j).
Proof.
  pose proof (CopyUniverse_spec u next) as (Hn & Hw & Hd & Ha).
  pose proof (CopyUniverse_sameBodies u next) as Hsame.
  unfold BarnesHut. destruct (CopyUniverse u next) as [first n0].
  cbn [fst snd] in *. intros H.
  apply bind_Done in H. destruct H as ([rest n1] & Hloop & H).
  injection H as <- <-.
  apply BarnesHut_loop_blocks in Hloop. destruct Hloop as (Hbl & Hall).
  rewrite (sameBodies_length Hsame) in Hbl.
  assert (Hb : blocks (length (stars u)) next (first :: rest) n1).
  { simpl. exists next. subst n0. auto. }
  split; [| split; [| split]].
  - intros ui [<- | Hin]; trivial.
    apply sameBodies_trans with first; auto.
  - intros ui s. apply (@blocks_range _ _ _ _ Hb).
  - apply (@blocks_NoDup _ _ _ _ Hb).
  - apply (@blocks_apart _ _ _ _ Hb).
Qed.

Lemma BarnesHut_invariants_witness :
  exists F, forall fuel, (F <= fuel)%nat ->
    exists l next',
      BarnesHut fuel clusterUniverse 1 1 0.5 3 = Done (l, next') /\
      (forall ui, In ui l -> sameBodies clusterUniverse ui) /\
      (forall ui s, In ui l -> In s (stars ui) -> (3 <= addr s < next')%nat) /\
      (forall ui, In ui l -> NoDup (map (@addr Star) (stars ui))) /\
      (forall i j ui uj s t,
          nth_error l i = Some ui -> nth_error l j = Some uj ->
          In s (stars ui) -> In t (stars uj) -> addr s = addr t -> i = j).
Proof.
  destruct (@BarnesHut_one_generation clusterUniverse 1 0.5 3) as [F HF].
  - intros s Hs. pose proof (@clusterUniverse_masses s Hs). lra.
  - rewrite inDomain_all by apply clusterUniverse_inside.
    apply clusterUniverse_distinct.
  - exists F. intros fuel Hf. destruct (HF fuel Hf) as (l & next' & E).
    exists l, next'. split; [exact E |].
    exact (@BarnesHut_invariants fuel clusterUniverse 1 1 0.5 3 l next' E).
Defined.

Lemma insertAll_mono f w ss :
  forall root r, insertAll f w ss root = Done r ->
  forall f', (f <= f')%nat -> insertAll f' w ss root = Done r.
Proof.
  induction ss as [| a ss IH]; cbn [insertAll]; intros root r H f' Hle; trivial.
  destruct (IsInsideUniverse a w); [| eauto].
  apply bind_Done in H. destruct H as (root' & E & H).
  rewrite (@InsertStar_mono f root a root' E f' Hle). cbn [bind]. eauto.
Qed.

Lemma GenerateQuadTree_mono f u next r :
  GenerateQuadTree f u next = Done r ->
  forall f', (f <= f')%nat -> GenerateQuadTree f' u next = Done r.
Proof.
  unfold GenerateQuadTree. intros H f' Hle.
  apply bind_Done in H. destruct H as (root1 & E & H).
  now rewrite (@insertAll_mono f (width u) (stars u) _ root1 E f' Hle).
Qed.

Lemma BarnesHut_loop_mono f time theta f' :
  (f <= f')%nat ->
  forall gens u next r,
    BarnesHut_loop f gens u time theta next = Done r ->
    BarnesHut_loop f' gens u time theta next = Done r.
Proof.
  intros Hle. induction gens as [| gens IH]; intros u next r H; trivial.
  destruct r as [l next'].
  apply BarnesHut_loop_inv in H.
  destruct H as (tree & next1 & u1 & next2 & rest & EG & EU & EL & ->).
  cbn [BarnesHut_loop].
  rewrite (@GenerateQuadTree_mono f u next (tree, next1) EG f' Hle). cbn [bind].
  rewrite EU. cbn [bind]. rewrite (IH _ _ _ EL). reflexivity.
Qed.

Lemma last_cons (A : Type) (l : list A) : forall a d, last (a :: l) d = last l a.
Proof.
  induction l as [| b l IH]; intros a d; [reflexivity |].
  change (last (a :: b :: l) d) with (last (b :: l) d). now rewrite !IH.
Qed.

Lemma BarnesHut_loop_snoc fuel time theta :
  forall gens u next l' next2,
    BarnesHut_loop fuel (S gens) u time theta next = Done (l', next2) ->
    exists l final next1 tree nx,
      BarnesHut_loop fuel gens u time theta next = Done (l, next1) /\
      l' = l ++ [final] /\
      GenerateQuadTree fuel (last l u) next1 = Done (tree, nx) /\
      UpdateUniverse (last l u) time tree theta nx = Done (final, next2).
Proof.
  induction gens as [| gens IH]; intros u next l' next2 H.
  - apply BarnesHut_loop_inv in H.
    destruct H as (tree & next1 & u1 & nx2 & rest & EG & EU & EL & ->).
    simpl in EL. injection EL as <- <-.
    exists [], u1, next, tree, next1. simpl. auto.
  - apply BarnesHut_loop_inv in H.
    destruct H as (tree & next1 & u1 & nx2 & rest & EG & EU & EL & ->).
    apply IH in EL.
    destruct EL as (l & final & n1 & tree' & nx & EL & -> & EG' & EU').
    exists (u1 :: l), final, n1, tree', nx.
    split; [| split; [reflexivity |]].
    + cbn [BarnesHut_loop]. rewrite EG. cbn [bind]. rewrite EU. cbn [bind].
      rewrite EL. reflexivity.
    + rewrite last_cons. auto.
Qed.

(** X12. One generation more leaves the earlier snapshots as they are:
    the snapshots of numGens + 1 generations are those of numGens
    generations followed by one more, which UpdateUniverse computes from
    the last of them with the tree that GenerateQuadTree builds for it.
    The recursion depth allowed in the tree construction has no influence
    on a result: every larger depth gives the same snapshots. *)
Theorem BarnesHut_extends fuel u numGens time theta next :
  (forall l' next2,
      BarnesHut fuel u (S numGens) time theta next = Done (l', next2) ->
      exists l final next1 tree nx,
        BarnesHut fuel u numGens time theta next = Done (l, next1) /\
        l' = l ++ [final] /\
        GenerateQuadTree fuel (last l u) next1 = Done (tree, nx) /\
        UpdateUniverse (last l u) time tree theta nx = Done (final, next2)) /\
  (forall r fuel',
      BarnesHut fuel u numGens time theta next = Done r -> (fuel <= fuel')%nat ->
      BarnesHut fuel' u numGens time theta next = Done r).
Proof.
  unfold BarnesHut. destruct (CopyUniverse u next) as [first n0]. split.
  - intros l' next2 H.
    apply bind_Done in H. destruct H as ([rest n1] & Hloop & H).
    injection H as <- <-.
    apply BarnesHut_loop_snoc in Hloop.
    destruct Hloop as (l & final & n1' & tree & nx & EL & -> & EG & EU).
    exists (first :: l), final, n1', tree, nx.
    rewrite EL. cbn [bind]. rewrite last_cons. auto.
  - intros r fuel' H Hle.
    apply bind_Done in H. destruct H as ([rest n1] & Hloop & H).
    rewrite (@BarnesHut_loop_mono fuel time theta fuel' Hle numGens first n0 _ Hloop).
    exact H.
Qed.

Lemma BarnesHut_extends_witness :
  exists F, forall fuel, (F <= fuel)%nat ->
    exists l' next2,
      BarnesHut fuel clusterUniverse 1 1 0.5 3 = Done (l', next2) /\
      (exists l final next1 tree nx,
          BarnesHut fuel clusterUniverse 0 1 0.5 3 = Done (l, next1) /\
          l' = l ++ [final] /\
          GenerateQuadTree fuel (last l clusterUniverse) next1 = Done (tree, nx) /\
          UpdateUniverse (last l clusterUniverse) 1 tree 0.5 nx
          = Done (final, next2)) /\
      BarnesHut (S fuel) clusterUniverse 1 1 0.5 3 = Done (l', next2).
Proof.
  destruct (@BarnesHut_one_generation clusterUniverse 1 0.5 3) as [F HF].
  - intros s Hs. pose proof (@clusterUniverse_masses s Hs). lra.
  - rewrite inDomain_all by apply clusterUniverse_inside.
    apply clusterUniverse_distinct.
  - exists F. intros fuel Hf. destruct (HF fuel Hf) as (l' & next2 & E).
    exists l', next2. split; [exact E |]. split.
    + exact (proj1 (@BarnesHut_extends fuel clusterUniverse 0 1 0.5 3) l' next2 E).
    + apply (proj2 (@BarnesHut_extends fuel clusterUniverse 1 1 0.5 3)
               (l', next2) (S fuel) E).
      lia.
Defined.

(** ** Conservation of momentum *)

Lemma Rsum_map_plus (A : Type) (g h : A -> R) l :
  Rsum (map (fun a => g a + h a) l) = Rsum (map g l) + Rsum (map h l).
Proof. induction l as [| a l IH]; simpl; [lra | unfold Rsum in *; simpl; lra]. Qed.

Lemma Rsum_map_opp (A : Type) (g : A -> R) l :
  Rsum (map (fun a => - g a) l) = - Rsum (map g l).
Proof. induction l as [| a l IH]; simpl; [lra | unfold Rsum in *; simpl; lra]. Qed.

Lemma Rsum_map_zero (A : Type) (l : list A) : Rsum (map (fun _ => 0) l) = 0.
Proof. induction l as [| a l IH]; simpl; [lra | unfold Rsum in *; simpl; lra]. Qed.

Lemma Rsum_swap (A : Type) (g : A -> A -> R) :
  (forall a b, g b a = - g a b) ->
  forall l l',
    Rsum (map (fun w => Rsum (map (fun v => g v w) l')) l)
    = - Rsum (map (fun w => Rsum (map (fun v => g v w) l)) l').
Proof.
  intros Hg. induction l as [| x l IH]; intros l'.
  - cbn [map]. rewrite Rsum_map_zero. unfold Rsum. simpl. lra.
  - cbn [map].
    change (Rsum (Rsum (map (fun v => g v x) l')
                  :: map (fun w => Rsum (map (fun v => g v w) l')) l))
      with (Rsum (map (fun v => g v x) l')
            + Rsum (map (fun w => Rsum (map (fun v => g v w) l')) l)).
    rewrite IH.
    rewrite (map_ext (fun v => g v x) (fun v => - g x v)) by (intros; apply Hg).
    rewrite Rsum_map_opp.
    rewrite (map_ext (fun w => Rsum (g x w :: map (fun v => g v w) l))
               (fun w => g x w + Rsum (map (fun v => g v w) l)))
      by reflexivity.
    rewrite Rsum_map_plus. lra.
Qed.

Lemma Rsum_antisym (A : Type) (g : A -> A -> R) l :
  (forall a b, g b a = - g a b) ->
  Rsum (map (fun w => Rsum (map (fun v => g v w) l)) l) = 0.
Proof. intros Hg. pose proof (Rsum_swap g Hg l l). lra. Qed.

Lemma px_pairSum (A : Type) (h : A -> OrderedPair) l :
  px (pairSum (map h l)) = Rsum (map (fun a => px (h a)) l).
Proof. induction l as [| a l IH]; simpl; [reflexivity | now rewrite IH]. Qed.

Lemma py_pairSum (A : Type) (h : A -> OrderedPair) l :
  py (pairSum (map h l)) = Rsum (map (fun a => py (h a)) l).
Proof. induction l as [| a l IH]; simpl; [reflexivity | now rewrite IH]. Qed.

Lemma newton_sum_zero (V : list Star) :
  pairSum (map (fun w => pairSum (map (fun v => newton (mkPtr 0 v) (mkPtr 0 w)) V)) V)
  = zeroPair.
Proof.
  apply pair_eq.
  - rewrite px_pairSum.
    rewrite (map_ext _ (fun w => Rsum (map (fun v => px (newton (mkPtr 0 v) (mkPtr 0 w))) V)))
      by (intros; apply px_pairSum).
    apply (Rsum_antisym (fun v w => px (newton (mkPtr 0 v) (mkPtr 0 w)))).
    intros a b. now rewrite (newton_swap (mkPtr 0 a) (mkPtr 0 b)).
  - rewrite py_pairSum.
    rewrite (map_ext _ (fun w => Rsum (map (fun v => py (newton (mkPtr 0 v) (mkPtr 0 w))) V)))
      by (intros; apply py_pairSum).
    apply (Rsum_antisym (fun v w => py (newton (mkPtr 0 v) (mkPtr 0 w)))).
    intros a b. now rewrite (newton_swap (mkPtr 0 a) (mkPtr 0 b)).
Qed.

Lemma updateStars_momentum time tree theta (F : ptr Star -> OrderedPair) :
  forall bs bs',
    updateStars bs time tree theta = Done bs' ->
    (forall b, In b bs -> mass (deref b) <> 0) ->
    (forall b, In b bs -> CalculateNetForce (root tree) b theta = Done (F b)) ->
    map massAcceleration bs' = map F bs.
Proof.
  induction bs as [| b bs IH]; cbn [updateStars]; intros bs' E Hm HF.
  - now injection E as <-.
  - apply bind_Done in E. destruct E as (b' & Eb & E).
    apply bind_Done in E. destruct E as (rest & Er & E).
    injection E as <-. cbn [map]. f_equal.
    + assert (Hb : mass (deref b) <> 0) by (apply Hm; now left).
      unfold updateStar, UpdateAcceleration in Eb.
      rewrite (HF b (or_introl eq_refl)) in Eb. cbn [bind] in Eb.
      rewrite !fdiv_Done in Eb by trivial. cbn [bind] in Eb.
      injection Eb as <-. unfold massAcceleration. simpl.
      apply pair_eq; simpl; field; trivial.
    + apply IH; auto. intros c Hc. apply Hm. now right.
      intros c Hc. apply HF. now right.
Qed.

Lemma tree_forces_cancel fuel u next n next1 copies theta :
  (forall s, In s (stars u) -> IsInsideUniverse s (width u) = true) ->
  (forall s, In s (stars u) -> 0 < mass (deref s)) ->
  (forall s, In s (stars u) -> (addr s < next)%nat) ->
  GenerateQuadTree fuel u next = Done (mkQuadTree (Some n), next1) ->
  map (@deref Star) copies = map (@deref Star) (stars u) ->
  (forall b, In b copies -> (next1 <= addr b)%nat) ->
  exists F : ptr Star -> OrderedPair,
    (forall b, In b copies -> CalculateNetForce (Some n) b theta = Done (F b)) /\
    pairSum (map F copies) = zeroPair.
Proof.
  intros Hin Hpos Hadr HG Hval Hcadr.
  pose proof (GenerateQuadTree_next _ _ _ HG) as Hle.
  destruct (GenerateQuadTree_outcome fuel u next)
    as [E | (n0 & nx & E & _ & Hperm & Hagg)]; rewrite HG in E; [discriminate |].
  injection E as En Ex. subst n0 nx.
  rewrite (inDomain_all _ Hin) in Hperm, Hagg. specialize (Hagg Hpos).
  assert (Hposn : forall b, In b (bodies n) -> 0 < mass (deref b)).
  { intros b Hb. apply Hpos. now apply (Permutation_in _ Hperm). }
  exists (fun b : ptr Star =>
            pairSum (map (fun c => newton (mkPtr 0 (deref c)) (mkPtr 0 (deref b)))
                       (stars u))).
  split.
  - intros b Hb. cbn [CalculateNetForce].
    rewrite (CalculateNetForce_aggregated b theta Hagg Hposn). f_equal.
    rewrite (pairSum_perm (Permutation_map (pairForce b) Hperm)).
    f_equal. apply map_ext_in. intros c Hc. unfold pairForce, ptr_eqb.
    specialize (Hadr c Hc). specialize (Hcadr b Hb).
    destruct (Nat.eqb_spec (addr c) (addr b)); [lia | reflexivity].
  - rewrite <- (map_map (@deref Star)
                  (fun w => pairSum (map (fun c => newton (mkPtr 0 (deref c)) (mkPtr 0 w))
                                       (stars u)))).
    rewrite Hval.
    rewrite (map_ext _ (fun w => pairSum (map (fun v => newton (mkPtr 0 v) (mkPtr 0 w))
                                            (map (@deref Star) (stars u))))).
    + apply newton_sum_zero.
    + intros w. now rewrite map_map.
Qed.

Lemma GenerateQuadTree_root_Some fuel u next tree next1 :
  GenerateQuadTree fuel u next = Done (tree, next1) ->
  exists n, tree = mkQuadTree (Some n).
Proof.
  intros H. apply GenerateQuadTree_inv in H.
  destruct H as (root1 & n & _ & _ & _ & _ & _ & ->). eauto.
Qed.

(** X13. One step conserves momentum in the accelerations: when every
    star lies inside the domain and has positive mass, the accelerations
    that UpdateUniverse computes from the tree of GenerateQuadTree,
    weighted by the masses, sum to zero, because the forces of the
    traversal cancel in pairs. *)
Theorem UpdateUniverse_momentum fuel u time theta next tree next1 u' next2 :
  (forall s, In s (stars u) -> IsInsideUniverse s (width u) = true) ->
  (forall s, In s (stars u) -> 0 < mass (deref s)) ->
  (forall s, In s (stars u) -> (addr s < next)%nat) ->
  GenerateQuadTree fuel u next = Done (tree, next1) ->
  UpdateUniverse u time tree theta next1 = Done (u', next2) ->
  pairSum (map massAcceleration (stars u')) = zeroPair.
Proof.
  intros Hin Hpos Hadr HG HU.
  destruct (GenerateQuadTree_root_Some _ _ _ HG) as [n ->].
  pose proof (CopyUniverse_spec u next1) as (_ & _ & Hval & Hcadr).
  unfold UpdateUniverse in HU.
  destruct (CopyUniverse u next1) as [copy n1]. cbn [fst] in Hval, Hcadr.
  apply bind_Done in HU. destruct HU as (bs' & Eb & HU).
  injection HU as <- _. cbn [stars].
  destruct (@tree_forces_cancel fuel u next n next1 (stars copy) theta)
    as (F & HF & Hzero); trivial.
  { intros b Hb. apply (in_map (@addr Star)) in Hb. rewrite Hcadr in Hb.
    apply in_seq in Hb. lia. }
  rewrite (@updateStars_momentum time (mkQuadTree (Some n)) theta F (stars copy) bs' Eb);
    trivial.
  intros b Hb. eapply same_values_masses; eauto.
  intros s Hs. pose proof (Hpos s Hs). lra.
Qed.

Lemma UpdateUniverse_momentum_witness :
  exists u',
    UpdateUniverse clusterUniverse 1 (mkQuadTree (Some clusterTree)) 0.5 5
    = Done (u', 8%nat) /\
    pairSum (map massAcceleration (stars u')) = zeroPair.
Proof.
  destruct (@UpdateUniverse_spec clusterUniverse 1 (mkQuadTree (Some clusterTree)) 0.5 5)
    as (u' & E & _).
  - intros s Hs. pose proof (@clusterUniverse_masses s Hs). lra.
  - exists u'. split; [exact E |].
    apply (@UpdateUniverse_momentum 3 clusterUniverse 1 0.5 3
             (mkQuadTree (Some clusterTree)) 5 u' 8).
    + apply clusterUniverse_inside.
    + apply clusterUniverse_masses.
    + intros s [<- | [<- | [<- | []]]]; simpl; lia.
    + apply clusterTree_built.
    + exact E.
Defined.

(** ** GalaxyCenter and GalaxyPush *)

Lemma GalaxyCenter_loop_sum h g :
  forall c_x c_y,
    GalaxyCenter_loop h g c_x c_y
    = (c_x + Rsum (map (fun a => px (position (h a))) g),
       c_y + Rsum (map (fun a => py (position (h a))) g)).
Proof.
  induction g as [| a g IH]; intros c_x c_y; simpl.
  - unfold Rsum. simpl. f_equal; ring.
  - rewrite IH. unfold Rsum. simpl. f_equal; ring.
Qed.

Lemma INR_length_zero (A : Type) (l : list A) : INR (length l) = 0 <-> l = [].
Proof.
  split.
  - destruct l as [| a l]; trivial. intros H. exfalso.
    apply (not_0_INR (length (a :: l))); [simpl; lia | trivial].
  - intros ->. reflexivity.
Qed.

Lemma GalaxyCenter_eq h g :
  GalaxyCenter h g
  = (x <- fdiv (Rsum (map (fun a => px (position (h a))) g)) (INR (length g)) ;;
     y <- fdiv (Rsum (map (fun a => py (position (h a))) g)) (INR (length g)) ;;
     Done (mkPair x y)).
Proof.
  unfold GalaxyCenter. rewrite GalaxyCenter_loop_sum. rewrite !Rplus_0_l. reflexivity.
Qed.

Lemma GalaxyCenter_empty h : GalaxyCenter h [] = DivByZero.
Proof. rewrite GalaxyCenter_eq. simpl. now rewrite fdiv_zero. Qed.

Lemma GalaxyCenter_Done h g :
  g <> [] ->
  GalaxyCenter h g
  = Done (mkPair (Rsum (map (fun a => px (position (h a))) g) / INR (length g))
                 (Rsum (map (fun a => py (position (h a))) g) / INR (length g))).
Proof.
  intros Hg. rewrite GalaxyCenter_eq.
  assert (INR (length g) <> 0) by (intros E; now apply INR_length_zero in E).
  now rewrite !fdiv_Done.
Qed.

Lemma Rsum_bounds (A : Type) (f : A -> R) lo hi l :
  (forall a, In a l -> lo <= f a <= hi) ->
  lo * INR (length l) <= Rsum (map f l) <= hi * INR (length l).
Proof.
  induction l as [| a l IH]; intros H.
  - unfold Rsum. simpl. lra.
  - change (length (a :: l)) with (S (length l)). rewrite S_INR.
    change (Rsum (map f (a :: l))) with (f a + Rsum (map f l)).
    pose proof (H a (or_introl eq_refl)).
    specialize (IH (fun b Hb => H b (or_intror Hb))). lra.
Qed.

Lemma Rsum_perm (A : Type) (f : A -> R) l l' :
  Permutation l l' -> Rsum (map f l) = Rsum (map f l').
Proof. unfold Rsum. induction 1; simpl; lra. Qed.

Lemma Rsum_ext_in (A : Type) (f f' : A -> R) l :
  (forall a, In a l -> f' a = f a) -> Rsum (map f' l) = Rsum (map f l).
Proof. intros H. f_equal. now apply map_ext_in. Qed.

Lemma GalaxyCenter_positions h h' g :
  (forall a, In a g -> position (h' a) = position (h a)) ->
  GalaxyCenter h' g = GalaxyCenter h g.
Proof.
  intros Hh. rewrite !GalaxyCenter_eq.
  rewrite (@Rsum_ext_in _ (fun a => px (position (h a)))
             (fun a => px (position (h' a))) g)
    by (intros a Ha; now rewrite Hh).
  rewrite (@Rsum_ext_in _ (fun a => py (position (h a)))
             (fun a => py (position (h' a))) g)
    by (intros a Ha; now rewrite Hh).
  reflexivity.
Qed.

(** X14. For a galaxy that is not empty GalaxyCenter returns a centre
    that depends on the positions of the stars only.  In real arithmetic
    this centre is the mean of the positions, whatever the masses: it lies
    within every interval that bounds the coordinates of the stars, and it
    does not depend on the order of the stars.  (In binary64 the sum, and
    with it the centre, depends on the order; for the empty galaxy the
    code divides 0 by 0 and returns the undefined pair, of which the
    embedding over the reals has no account.) *)
Theorem GalaxyCenter_mean h g :
  g <> [] ->
  exists c,
    GalaxyCenter h g = Done c /\
    px c * INR (length g) = Rsum (map (fun a => px (position (h a))) g) /\
    py c * INR (length g) = Rsum (map (fun a => py (position (h a))) g) /\
    (forall lo hi, (forall a, In a g -> lo <= px (position (h a)) <= hi) ->
                   lo <= px c <= hi) /\
    (forall lo hi, (forall a, In a g -> lo <= py (position (h a)) <= hi) ->
                   lo <= py c <= hi) /\
    (forall h', (forall a, In a g -> position (h' a) = position (h a)) ->
                GalaxyCenter h' g = Done c) /\
    (forall g', Permutation g g' -> GalaxyCenter h g' = Done c).
Proof.
  intros Hg. rewrite (GalaxyCenter_Done h Hg). eexists. split; [reflexivity |].
  assert (Hn : 0 < INR (length g)).
  { apply lt_0_INR. destruct g; [congruence | simpl; lia]. }
  cbn [px py].
  split; [field; lra |]. split; [field; lra |].
  split; [intros lo hi Hb; apply div_bounds; trivial; now apply Rsum_bounds |].
  split; [intros lo hi Hb; apply div_bounds; trivial; now apply Rsum_bounds |].
  split.
  - intros h' Hh. rewrite (GalaxyCenter_positions h h' g Hh).
    apply (GalaxyCenter_Done h Hg).
  - intros g' Hp.
    assert (Hg' : g' <> []).
    { intros ->. apply Permutation_sym, Permutation_nil in Hp. contradiction. }
    rewrite (GalaxyCenter_Done h Hg').
    rewrite <- (Permutation_length Hp).
    rewrite <- (Rsum_perm (fun a => px (position (h a))) Hp).
    rewrite <- (Rsum_perm (fun a => py (position (h a))) Hp).
    reflexivity.
Qed.

Lemma GalaxyCenter_mean_witness :
  exists c,
    GalaxyCenter (fun a => aggregateStar (mkPair (INR a) 0) 1) [1; 3]%nat = Done c /\
    px c * INR 2 = Rsum [INR 1; INR 3] /\
    GalaxyCenter (fun a => aggregateStar (mkPair (INR a) 0) 1) [3; 1]%nat = Done c.
Proof.
  destruct (@GalaxyCenter_mean (fun a => aggregateStar (mkPair (INR a) 0) 1) [1; 3]%nat)
    as (c & E & Hx & _ & _ & _ & _ & Hp); [discriminate |].
  exists c. split; [exact E |]. split; [exact Hx |].
  apply Hp. constructor.
Defined.

Lemma pushStar_fields h s v dir a :
  position (pushStar h s v dir a) = position (h a) /\
  acceleration (pushStar h s v dir a) = acceleration (h a) /\
  mass (pushStar h s v dir a) = mass (h a) /\
  radius (pushStar h s v dir a) = radius (h a) /\
  red (pushStar h s v dir a) = red (h a) /\
  green (pushStar h s v dir a) = green (h a) /\
  blue (pushStar h s v dir a) = blue (h a).
Proof.
  unfold pushStar. destruct (Nat.eqb_spec a s) as [-> |]; simpl; auto 10.
Qed.

Lemma pushAll_fields v dir g :
  forall h a,
    position (pushAll h g v dir a) = position (h a) /\
    acceleration (pushAll h g v dir a) = acceleration (h a) /\
    mass (pushAll h g v dir a) = mass (h a) /\
    radius (pushAll h g v dir a) = radius (h a) /\
    red (pushAll h g v dir a) = red (h a) /\
    green (pushAll h g v dir a) = green (h a) /\
    blue (pushAll h g v dir a) = blue (h a).
Proof.
  induction g as [| s g IH]; intros h a; cbn [pushAll]; [auto 10 |].
  destruct (IH (pushStar h s v dir) a) as (-> & -> & -> & -> & -> & -> & ->).
  apply pushStar_fields.
Qed.

Lemma pushAll_other v dir g :
  forall h a, ~ In a g -> pushAll h g v dir a = h a.
Proof.
  induction g as [| s g IH]; intros h a Ha; cbn [pushAll]; trivial.
  rewrite IH by (intros H; apply Ha; now right).
  unfold pushStar. destruct (Nat.eqb_spec a s) as [-> |]; trivial.
  exfalso. apply Ha. now left.
Qed.

Lemma pushAll_velocity v dir g :
  forall h a,
    px (velocity (pushAll h g v dir a))
    = px (velocity (h a)) + INR (count_occ Nat.eq_dec g a) * (v * px dir) /\
    py (velocity (pushAll h g v dir a))
    = py (velocity (h a)) + INR (count_occ Nat.eq_dec g a) * (v * py dir).
Proof.
  induction g as [| s g IH]; intros h a; cbn [pushAll].
  - simpl. split; ring.
  - destruct (IH (pushStar h s v dir) a) as (-> & ->).
    cbn [count_occ]. unfold pushStar.
    destruct (Nat.eq_dec s a) as [-> | Hne].
    + rewrite Nat.eqb_refl, S_INR. simpl. split; ring.
    + destruct (Nat.eqb_spec a s) as [-> |]; [congruence |]. split; ring.
Qed.

(** X15. For two galaxies that are not empty GalaxyPush changes
    velocities only: a star in neither galaxy is untouched, and every star
    keeps its position, acceleration, mass, radius and colour, so that the
    centres stay where they were.  In real arithmetic the push is along a
    unit vector that points from the centre of the first galaxy to the
    centre of the second, or along the x axis when the two centres
    coincide, and a star gains [v] times that vector for each occurrence
    in the first galaxy and loses as much for each occurrence in the
    second.  (In binary64 each addition to a velocity rounds, and centres
    closer than the underflow of the squared distance count as
    coinciding; with an empty galaxy the code pushes along the undefined
    pair, of which the embedding over the reals has no account.) *)
Theorem GalaxyPush_directions h g0 g1 v :
  g0 <> [] -> g1 <> [] ->
  exists c0 c1 dir h',
    GalaxyCenter h g0 = Done c0 /\ GalaxyCenter h g1 = Done c1 /\
    GalaxyPush h g0 g1 v = Done h' /\
    px dir * px dir + py dir * py dir = 1 /\
    (c0 = c1 -> dir = mkPair 1 0) /\
    (c0 <> c1 ->
     exists k, 0 < k /\
               px c1 - px c0 = k * px dir /\ py c1 - py c0 = k * py dir) /\
    (forall a, ~ In a g0 -> ~ In a g1 -> h' a = h a) /\
    (forall a,
        position (h' a) = position (h a) /\
        acceleration (h' a) = acceleration (h a) /\
        mass (h' a) = mass (h a) /\
        radius (h' a) = radius (h a) /\
        red (h' a) = red (h a) /\
        green (h' a) = green (h a) /\
        blue (h' a) = blue (h a)) /\
    (forall a,
        px (velocity (h' a))
        = px (velocity (h a))
          + (INR (count_occ Nat.eq_dec g0 a) - INR (count_occ Nat.eq_dec g1 a))
            * v * px dir /\
        py (velocity (h' a))
        = py (velocity (h a))
          + (INR (count_occ Nat.eq_dec g0 a) - INR (count_occ Nat.eq_dec g1 a))
            * v * py dir) /\
    GalaxyCenter h' g0 = Done c0 /\ GalaxyCenter h' g1 = Done c1.
Proof.
  assert (Hmain : g0 <> [] -> g1 <> [] ->
    exists c0 c1 dir,
      GalaxyCenter h g0 = Done c0 /\ GalaxyCenter h g1 = Done c1 /\
      GalaxyPush h g0 g1 v
      = Done (pushAll (pushAll h g0 v dir) g1 v (mkPair (- px dir) (- py dir))) /\
      px dir * px dir + py dir * py dir = 1 /\
      (c0 = c1 -> dir = mkPair 1 0) /\
      (c0 <> c1 ->
       exists k, 0 < k /\
                 px c1 - px c0 = k * px dir /\ py c1 - py c0 = k * py dir)).
  { intros H0 H1. unfold GalaxyPush.
    rewrite (GalaxyCenter_Done h H0), (GalaxyCenter_Done h H1). cbn [bind].
    set (c0 := mkPair _ _). set (c1 := mkPair _ _).
    exists c0, c1.
    set (d_x := px c1 - px c0). set (d_y := py c1 - py c0).
    set (d := sqrt (d_x * d_x + d_y * d_y)).
    assert (Hdd : d * d = d_x * d_x + d_y * d_y) by apply sqrt_sqrt, sumsq_nonneg.
    assert (Hd0 : 0 <= d) by apply sqrt_pos.
    assert (Hz : d = 0 <-> c0 = c1).
    { split.
      - intros E. symmetry. now apply (Distance_zero_iff c1 c0).
      - intros E. apply (Distance_zero_iff c1 c0). now symmetry. }
    destruct (Req_dec d 0) as [E | Hne].
    - rewrite Reqb_true by exact E.
      assert (H3 : (1e-3 : R) <> 0) by lra.
      rewrite !fdiv_Done by trivial. cbn [bind].
      exists (mkPair (1e-3 / 1e-3) (0 / 1e-3)). cbn [px py].
      split; [reflexivity |]. split; [reflexivity |].
      split; [repeat f_equal; field |].
      split; [field |].
      split; [intros _; apply pair_eq; simpl; field |].
      intros Hc. exfalso. apply Hc. now apply Hz.
    - rewrite Reqb_false by exact Hne. rewrite !fdiv_Done by trivial. cbn [bind].
      exists (mkPair (d_x / d) (d_y / d)). cbn [px py].
      split; [reflexivity |]. split; [reflexivity |].
      split; [repeat f_equal; field; trivial |].
      split.
      { replace (d_x / d * (d_x / d) + d_y / d * (d_y / d))
          with ((d_x * d_x + d_y * d_y) / (d * d)) by (field; trivial).
        rewrite <- Hdd. field. trivial. }
      split; [intros Hc; exfalso; apply Hne; now apply Hz |].
      intros _. exists d. split; [lra |]. split; field; trivial. }
  intros H0 H1.
  destruct (Hmain H0 H1) as (c0 & c1 & dir & E0 & E1 & E & Hunit & Hsame & Hdiff).
  exists c0, c1, dir. eexists.
  split; [exact E0 |]. split; [exact E1 |]. split; [exact E |].
  split; [exact Hunit |]. split; [exact Hsame |]. split; [exact Hdiff |].
  assert (Hf : forall a,
    position (pushAll (pushAll h g0 v dir) g1 v (mkPair (- px dir) (- py dir)) a)
    = position (h a)).
  { intros a.
    destruct (pushAll_fields v (mkPair (- px dir) (- py dir)) g1
                (pushAll h g0 v dir) a) as (-> & _).
    apply pushAll_fields. }
  split; [| split; [| split; [| split]]].
  - intros a Ha0 Ha1. rewrite pushAll_other by trivial. now apply pushAll_other.
  - intros a.
    destruct (pushAll_fields v (mkPair (- px dir) (- py dir)) g1
                (pushAll h g0 v dir) a) as (-> & -> & -> & -> & -> & -> & ->).
    apply pushAll_fields.
  - intros a.
    destruct (pushAll_velocity v (mkPair (- px dir) (- py dir)) g1
                (pushAll h g0 v dir) a) as (-> & ->).
    destruct (pushAll_velocity v dir g0 h a) as (-> & ->).
    cbn [px py]. split; ring.
  - rewrite <- E0. apply GalaxyCenter_positions. intros a _. apply Hf.
  - rewrite <- E1. apply GalaxyCenter_positions. intros a _. apply Hf.
Qed.

Lemma GalaxyPush_directions_witness :
  exists c0 c1 h',
    GalaxyCenter (fun a => aggregateStar (mkPair (INR a) 0) 1) [1; 3]%nat = Done c0 /\
    GalaxyCenter (fun a => aggregateStar (mkPair (INR a) 0) 1) [5]%nat = Done c1 /\
    GalaxyPush (fun a => aggregateStar (mkPair (INR a) 0) 1) [1; 3]%nat [5]%nat 2
    = Done h' /\
    position (h' 1%nat) = mkPair (INR 1) 0.
Proof.
  destruct (@GalaxyPush_directions (fun a => aggregateStar (mkPair (INR a) 0) 1)
              [1; 3]%nat [5]%nat 2)
    as (c0 & c1 & dir & h' & E0 & E1 & E & _ & _ & _ & _ & Hf & _);
    [discriminate | discriminate |].
  exists c0, c1, h'. split; [exact E0 |]. split; [exact E1 |]. split; [exact E |].
  exact (proj1 (Hf 1%nat)).
Defined.

(** ** The acceleration of a star and its own mass *)

Lemma newton_field nstar a p :
  exists g, forall s : ptr Star, addr s = a -> pos s = p ->
    newton nstar s = mkPair (mass (deref s) * px g) (mass (deref s) * py g).
Proof.
  set (u := mkPtr a (mkStar p zeroPair zeroPair 1 0 0%N 0%N 0%N)).
  assert (Hu : pos u = p) by reflexivity.
  assert (Hmu : mass (deref u) = 1) by reflexivity.
  exists (newton nstar u).
  intros s _ Hp. unfold newton. rewrite Hp, Hu, Hmu.
  set (dX := px (pos nstar) - px p). set (dY := py (pos nstar) - py p).
  set (d := sqrt (dX * dX + dY * dY)).
  destruct (Reqb d 0) eqn:E.
  - apply pair_eq; simpl; ring.
  - assert (d <> 0) by (intros H; apply Reqb_eq in H; congruence).
    apply pair_eq; simpl; field; trivial.
Qed.

Lemma CalculateNetForce_children_field theta a p cs :
  (forall c, In (Some c) cs ->
     exists g, forall s : ptr Star, addr s = a -> pos s = p ->
       CalculateNetForce_node c s theta
       = Done (mkPair (mass (deref s) * px g) (mass (deref s) * py g))) ->
  forall g0,
    exists g, forall s : ptr Star, addr s = a -> pos s = p ->
      CalculateNetForce_children (fun c => CalculateNetForce_node c s theta) cs
        (mkPair (mass (deref s) * px g0) (mass (deref s) * py g0))
      = Done (mkPair (mass (deref s) * px g) (mass (deref s) * py g)).
Proof.
  induction cs as [| [c|] cs IH]; intros H g0.
  - exists g0. reflexivity.
  - destruct (H c (or_introl eq_refl)) as [gc Hc].
    destruct (IH (fun d Hd => H d (or_intror Hd)) (padd g0 gc)) as [g Hg].
    exists g. intros s Ha Hp. cbn [CalculateNetForce_children].
    rewrite (Hc s Ha Hp). cbn [bind px py]. rewrite <- (Hg s Ha Hp).
    f_equal. apply pair_eq; simpl; ring.
  - destruct (IH (fun d Hd => H d (or_intror Hd)) g0) as [g Hg].
    exists g. intros s Ha Hp. cbn [CalculateNetForce_children]. auto.
Qed.

Lemma CalculateNetForce_node_field theta a p n :
  exists g, forall s : ptr Star, addr s = a -> pos s = p ->
    CalculateNetForce_node n s theta
    = Done (mkPair (mass (deref s) * px g) (mass (deref s) * py g)).
Proof.
  induction n as [q st cs IH] using Node_ind'.
  assert (Hzero : exists g, forall s : ptr Star, addr s = a -> pos s = p ->
            Done zeroPair
            = Done (mkPair (mass (deref s) * px g) (mass (deref s) * py g))).
  { exists zeroPair. intros s _ _. f_equal. apply pair_eq; simpl; ring. }
  destruct st as [nstar |].
  - destruct (Reqb (mass (deref nstar)) 0) eqn:Em.
    + destruct Hzero as [g Hg]. exists g. intros s Ha Hp.
      rewrite CalculateNetForce_node_eq, Em. auto.
    + destruct (IsLeaf (mkNode q (Some nstar) cs) && negb (Nat.eqb (addr nstar) a))
        eqn:El.
      * destruct (newton_field nstar a p) as [g Hg]. exists g. intros s Ha Hp.
        rewrite CalculateNetForce_node_eq, Em. unfold ptr_eqb. rewrite Ha, El.
        rewrite leafForce_newton. f_equal. auto.
      * destruct (@CalculateNetForce_children_field theta a p cs IH zeroPair)
          as [g Hg].
        exists g. intros s Ha Hp.
        rewrite CalculateNetForce_node_eq, Em. unfold ptr_eqb. rewrite Ha, El.
        rewrite openingTest_zero. cbn [bind]. rewrite <- (Hg s Ha Hp).
        f_equal. apply pair_eq; simpl; ring.
  - destruct Hzero as [g Hg]. exists g. intros s Ha Hp.
    rewrite CalculateNetForce_node_eq. auto.
Qed.

(** X16. The net force of a tree on a star is proportional to the mass of
    the star, so the acceleration that UpdateAcceleration returns does not
    depend on that mass: two stars at the same address and position, of
    any two masses other than zero, get the same acceleration from any
    tree. *)
Theorem UpdateAcceleration_own_mass s s' tree theta :
  addr s = addr s' -> pos s = pos s' ->
  mass (deref s) <> 0 -> mass (deref s') <> 0 ->
  (exists f f',
      CalculateNetForce (root tree) s theta = Done f /\
      CalculateNetForce (root tree) s' theta = Done f' /\
      mass (deref s) * px f' = mass (deref s') * px f /\
      mass (deref s) * py f' = mass (deref s') * py f) /\
  UpdateAcceleration s tree theta = UpdateAcceleration s' tree theta.
Proof.
  intros Ha Hp Hm Hm'.
  assert (H : exists g,
            CalculateNetForce (root tree) s theta
            = Done (mkPair (mass (deref s) * px g) (mass (deref s) * py g)) /\
            CalculateNetForce (root tree) s' theta
            = Done (mkPair (mass (deref s') * px g) (mass (deref s') * py g))).
  { destruct (root tree) as [n |]; cbn [CalculateNetForce].
    - destruct (CalculateNetForce_node_field theta (addr s) (pos s) n) as [g Hg].
      exists g. split; [now apply Hg | apply Hg; congruence].
    - exists zeroPair. split; f_equal; apply pair_eq; simpl; ring. }
  destruct H as (g & E & E'). split.
  - do 2 eexists. split; [exact E |]. split; [exact E' |]. simpl. split; ring.
  - unfold UpdateAcceleration. rewrite E, E'. cbn [bind px py].
    rewrite !fdiv_Done by trivial. cbn [bind].
    f_equal. apply pair_eq; simpl; field; auto.
Qed.

Lemma UpdateAcceleration_own_mass_witness :
  (exists f f',
      CalculateNetForce (root restTree) restStar 0.5 = Done f /\
      CalculateNetForce (root restTree) (body 1 3 1 5) 0.5 = Done f' /\
      mass (deref restStar) * px f' = mass (deref (body 1 3 1 5)) * px f /\
      mass (deref restStar) * py f' = mass (deref (body 1 3 1 5)) * py f) /\
  UpdateAcceleration restStar restTree 0.5
  = UpdateAcceleration (body 1 3 1 5) restTree 0.5.
Proof.
  apply (@UpdateAcceleration_own_mass restStar (body 1 3 1 5) restTree 0.5).
  - reflexivity.
  - reflexivity.
  - simpl. lra.
  - simpl. lra.
Defined.

(** ** The tree does not depend on the order of the stars *)

Lemma filter_perm (A : Type) (f : A -> bool) l l' :
  Permutation l l' -> Permutation (filter f l) (filter f l').
Proof.
  induction 1 as [| x l l' Hp IH | x y l | l l' l'' H1 IH1 H2 IH2]; simpl.
  - constructor.
  - destruct (f x); auto.
  - destruct (f x), (f y); auto. constructor.
  - now transitivity (filter f l').
Qed.

Lemma quadrantStars_snoc_same q l s :
  quadrantStars q (FindQuadrant q s) (l ++ [s])
  = quadrantStars q (FindQuadrant q s) l ++ [s].
Proof.
  unfold quadrantStars. rewrite filter_app. simpl. now rewrite Nat.eqb_refl.
Qed.

Lemma quadrantStars_snoc_other q l s j :
  FindQuadrant q s <> j -> quadrantStars q j (l ++ [s]) = quadrantStars q j l.
Proof.
  intros H. unfold quadrantStars. rewrite filter_app. simpl.
  destruct (Nat.eqb_spec (FindQuadrant q s) j); [contradiction | apply app_nil_r].
Qed.

Lemma list4_ext (A : Type) (l l' : list A) :
  length l = 4%nat -> length l' = 4%nat ->
  (forall i a a', nth_error l i = Some a -> nth_error l' i = Some a' -> a = a') ->
  l = l'.
Proof.
  intros Hl Hl' H.
  destruct l as [| a0 [| a1 [| a2 [| a3 [| a4 l]]]]]; try discriminate.
  destruct l' as [| b0 [| b1 [| b2 [| b3 [| b4 l']]]]]; try discriminate.
  rewrite (H 0%nat a0 b0), (H 1%nat a1 b1), (H 2%nat a2 b2), (H 3%nat a3 b3);
    reflexivity.
Qed.

Lemma treeOf_unique q l n :
  treeOf q l n ->
  forall l' n', Permutation l l' -> treeOf q l' n' -> n = n'.
Proof.
  induction 1 as [q | q s | q l cs Hlen Hcs Hall IH]; intros l' n' Hp H'.
  - apply Permutation_nil in Hp. subst l'.
    inversion H' as [| | q0 l0 cs0 Hlen0]; subst; trivial. simpl in Hlen0. lia.
  - apply Permutation_length_1_inv in Hp. subst l'.
    inversion H' as [| | q0 l0 cs0 Hlen0]; subst; trivial. simpl in Hlen0. lia.
  - pose proof (Permutation_length Hp) as Hlp.
    inversion H' as [q0 E | q0 s0 E | q0 l0 cs0 Hlen0 Hcs0 Hall0]; subst;
      try (simpl in Hlp; lia).
    f_equal. f_equal. apply list4_ext; trivial.
    intros i c c' Hc Hc'. apply (IH i c Hc (quadrantStars q i l')); [| auto].
    now apply filter_perm.
Qed.

Lemma treeOf_children_leaf q o :
  let cs1 := setNth (FindQuadrant q o)
               (mkNode (quadrantOf q (FindQuadrant q o)) (Some o) []) (emptyQuads q) in
  length cs1 = 4%nat /\
  forall j d, nth_error cs1 j = Some d ->
              treeOf (quadrantOf q j) (quadrantStars q j [o]) d.
Proof.
  intros cs1. pose proof (FindQuadrant_lt q o) as Hlt.
  split; [unfold cs1; now rewrite setNth_length |].
  intros j d Hj. unfold cs1 in Hj. unfold quadrantStars. simpl.
  destruct (Nat.eq_dec (FindQuadrant q o) j) as [<- | Hne].
  - rewrite setNth_nth_same in Hj by trivial. injection Hj as <-.
    rewrite Nat.eqb_refl. constructor.
  - rewrite setNth_nth_other in Hj by trivial.
    assert (Hj4 : (j < 4)%nat)
      by (apply (nth_error_Some (emptyQuads q)); congruence).
    rewrite emptyQuads_nth in Hj by trivial. injection Hj as <-.
    destruct (Nat.eqb_spec (FindQuadrant q o) j); [contradiction | constructor].
Qed.

Lemma treeOf_children_step f q st l cs s n' :
  (forall q0 l0 n0 n0', treeOf q0 l0 n0 -> InsertStar f n0 s = Done n0' ->
                        treeOf q0 (l0 ++ [s]) n0') ->
  length cs = 4%nat ->
  (forall j d, nth_error cs j = Some d ->
               treeOf (quadrantOf q j) (quadrantStars q j l) d) ->
  onChild (fun c => InsertStar f c s) (mkNode q st (map Some cs)) (FindQuadrant q s)
  = Done n' ->
  exists cs',
    n' = mkNode q st (map Some cs') /\ length cs' = 4%nat /\
    forall j d, nth_error cs' j = Some d ->
                treeOf (quadrantOf q j) (quadrantStars q j (l ++ [s])) d.
Proof.
  intros IH Hlen Hall H.
  pose proof (FindQuadrant_lt q s) as Hlt.
  destruct (nth_error cs (FindQuadrant q s)) as [c |] eqn:Hc;
    [| apply nth_error_None in Hc; lia].
  rewrite (@onChild_map _ q st cs _ c Hc) in H.
  apply bind_Done in H. destruct H as (c' & Ec & H). injection H as <-.
  exists (setNth (FindQuadrant q s) c' cs).
  split; [reflexivity |]. split; [rewrite setNth_length; lia |].
  intros j d Hj. destruct (Nat.eq_dec (FindQuadrant q s) j) as [<- | Hne].
  - rewrite setNth_nth_same in Hj by lia. injection Hj as <-.
    rewrite quadrantStars_snoc_same. eapply IH; eauto.
  - rewrite setNth_nth_other in Hj by (trivial; lia).
    rewrite quadrantStars_snoc_other by trivial. auto.
Qed.

Lemma InsertStar_treeOf s f :
  forall q l n n', treeOf q l n -> InsertStar f n s = Done n' ->
                   treeOf q (l ++ [s]) n'.
Proof.
  induction f as [| f IH]; intros q l n n' Ht H; [discriminate |].
  inversion Ht as [q0 | q0 o | q0 l0 cs Hlen Hcs Hall]; subst.
  - rewrite InsertStar_empty in H. injection H as <-. constructor.
  - rewrite InsertStar_leaf in H.
    apply bind_Done in H. destruct H as (node3 & E3 & H).
    pose proof (FindQuadrant_lt q o) as Hlt.
    rewrite (@onChild_map _ q None (emptyQuads q) _ _ (emptyQuads_nth q Hlt)) in E3.
    apply bind_Done in E3. destruct E3 as (co & Eo & E3). injection E3 as <-.
    destruct f as [| f']; [discriminate |].
    rewrite InsertStar_empty in Eo. injection Eo as <-.
    cbn [sector] in H.
    destruct (treeOf_children_leaf q o) as (Hl1 & Hall1).
    destruct (@treeOf_children_step (S f') q None [o] _ s n' IH Hl1 Hall1 H)
      as (cs' & -> & Hl' & Hall').
    apply treeOf_internal; trivial; simpl; lia.
  - assert (Hne : exists c cs0, map Some cs = c :: cs0).
    { destruct cs as [| c cs]; [discriminate | simpl; eauto]. }
    destruct Hne as (c & cs0 & E). rewrite E in H.
    rewrite InsertStar_internal in H. rewrite <- E in H.
    destruct (@treeOf_children_step f q None l cs s n' IH Hcs Hall H)
      as (cs' & -> & Hl' & Hall').
    apply treeOf_internal; trivial; rewrite length_app; simpl; lia.
Qed.

Lemma insertAll_treeOf fuel w q ss :
  forall l root r,
    treeOf q l root -> insertAll fuel w ss root = Done r ->
    treeOf q (l ++ filter (fun s => IsInsideUniverse s w) ss) r.
Proof.
  induction ss as [| a ss IH]; cbn [insertAll filter]; intros l root r Ht H.
  - injection H as <-. now rewrite app_nil_r.
  - destruct (IsInsideUniverse a w).
    + apply bind_Done in H. destruct H as (root' & E & H).
      pose proof (InsertStar_treeOf _ _ Ht E) as Ht'.
      specialize (IH _ _ _ Ht' H). now rewrite <- app_assoc in IH.
    + eauto.
Qed.

(** X17. The tree that GenerateQuadTree returns does not depend on the
    order in which the universe lists its stars, nor on the recursion
    depth allowed: two universes of the same width whose star lists are
    permutations of each other get the same tree, aggregate stars and
    allocation counter included. *)
Theorem GenerateQuadTree_order fuel fuel' u u' next r r' :
  width u' = width u ->
  Permutation (stars u) (stars u') ->
  GenerateQuadTree fuel u next = Done r ->
  GenerateQuadTree fuel' u' next = Done r' ->
  r = r'.
Proof.
  intros Hw Hp H H'. unfold GenerateQuadTree in H, H'. rewrite Hw in H'.
  apply bind_Done in H. destruct H as (root1 & E & H).
  apply bind_Done in H'. destruct H' as (root1' & E' & H').
  assert (root1 = root1').
  { apply (insertAll_treeOf _ _ _ (treeOf_empty _)) in E.
    apply (insertAll_treeOf _ _ _ (treeOf_empty _)) in E'.
    simpl in E, E'.
    apply (treeOf_unique E) with (2 := E'). now apply filter_perm. }
  subst root1'. congruence.
Qed.

Lemma GenerateQuadTree_order_witness :
  exists F, forall fuel', (F <= fuel')%nat ->
    exists r',
      GenerateQuadTree fuel'
        (mkUniverse 8 [body 2 7 1 1; body 0 1 1 1; body 1 3 1 1]) 3 = Done r' /\
      (mkQuadTree (Some clusterTree), 5%nat) = r'.
Proof.
  destruct (@GenerateQuadTree_total
              (mkUniverse 8 [body 2 7 1 1; body 0 1 1 1; body 1 3 1 1]) 3)
    as [F HF].
  - assert (Hp : Permutation (stars clusterUniverse)
                   [body 2 7 1 1; body 0 1 1 1; body 1 3 1 1]).
    { unfold clusterUniverse. cbn [stars].
      apply Permutation_sym, Permutation_cons_append. }
    assert (Hd : inDomain (mkUniverse 8 [body 2 7 1 1; body 0 1 1 1; body 1 3 1 1])
                 = [body 2 7 1 1; body 0 1 1 1; body 1 3 1 1]).
    { apply inDomain_all. intros s Hs. cbn [width stars] in *.
      apply (@clusterUniverse_inside s). apply (Permutation_in _ (Permutation_sym Hp) Hs). }
    rewrite Hd.
    apply (Permutation_NoDup (Permutation_map pos Hp)), clusterUniverse_distinct.
  - exists F. intros fuel' Hf. destruct (HF fuel' Hf) as (n & nx & E & _).
    exists (mkQuadTree (Some n), nx). split; [exact E |].
    apply (@GenerateQuadTree_order 3 fuel' clusterUniverse
             (mkUniverse 8 [body 2 7 1 1; body 0 1 1 1; body 1 3 1 1]) 3).
    + reflexivity.
    + unfold clusterUniverse. cbn [stars].
      apply Permutation_sym, Permutation_cons_append.
    + apply clusterTree_built.
    + exact E.
Defined.

Lemma updateStars_velocity time tree theta :
  forall bs bs',
    updateStars bs time tree theta = Done bs' ->
    px (pairSum (map momentumOf bs'))
    = px (pairSum (map momentumOf bs))
      + 0.5 * time * (px (pairSum (map massAcceleration bs'))
                      + px (pairSum (map massAcceleration bs))) /\
    py (pairSum (map momentumOf bs'))
    = py (pairSum (map momentumOf bs))
      + 0.5 * time * (py (pairSum (map massAcceleration bs'))
                      + py (pairSum (map massAcceleration bs))).
Proof.
  induction bs as [| b bs IH]; cbn [updateStars]; intros bs' E.
  - injection E as <-. simpl. split; ring.
  - apply bind_Done in E. destruct E as (b' & Eb & E).
    apply bind_Done in E. destruct E as (rest & Er & E).
    injection E as <-. destruct (IH _ Er) as (IHx & IHy).
    unfold updateStar in Eb.
    destruct (UpdateAcceleration b tree theta) as [a | | |]; cbn [bind] in Eb;
      try discriminate.
    injection Eb as <-. cbn [map pairSum fold_right padd px py].
    fold (pairSum (map momentumOf rest)) (pairSum (map momentumOf bs))
      (pairSum (map massAcceleration rest)) (pairSum (map massAcceleration bs)).
    rewrite IHx, IHy. unfold momentumOf, massAcceleration. simpl. split; ring.
Qed.

Lemma same_values_map (B : Type) (f : Star -> B) (l1 l2 : list (ptr Star)) :
  map (@deref Star) l1 = map (@deref Star) l2 ->
  map (fun s => f (deref s)) l1 = map (fun s => f (deref s)) l2.
Proof. intros E. rewrite <- !(map_map (@deref Star) f). now rewrite E. Qed.

Lemma sameBodies_pos u u' :
  sameBodies u u' ->
  (forall s, In s (stars u) -> 0 < mass (deref s)) ->
  forall s, In s (stars u') -> 0 < mass (deref s).
Proof.
  intros [_ HF] Hpos. induction HF as [| a b l l' Hab HF IH]; intros s Hs.
  - contradiction.
  - destruct Hs as [<- | Hs].
    + destruct Hab as (-> & _). apply Hpos. now left.
    + apply IH; trivial. intros t Ht. apply Hpos. now right.
Qed.

Lemma UpdateUniverse_step fuel u time theta next tree next1 u' next2 :
  (forall s, In s (stars u) -> IsInsideUniverse s (width u) = true) ->
  (forall s, In s (stars u) -> 0 < mass (deref s)) ->
  (forall s, In s (stars u) -> (addr s < next)%nat) ->
  pairSum (map massAcceleration (stars u)) = zeroPair ->
  GenerateQuadTree fuel u next = Done (tree, next1) ->
  UpdateUniverse u time tree theta next1 = Done (u', next2) ->
  pairSum (map massAcceleration (stars u')) = zeroPair /\
  pairSum (map momentumOf (stars u')) = pairSum (map momentumOf (stars u)).
Proof.
  intros Hin Hpos Hadr Hacc HG HU.
  destruct (GenerateQuadTree_root_Some _ _ _ HG) as [n ->].
  pose proof (CopyUniverse_spec u next1) as (_ & _ & Hval & Hcadr).
  unfold UpdateUniverse in HU.
  destruct (CopyUniverse u next1) as [copy n1]. cbn [fst] in Hval, Hcadr.
  apply bind_Done in HU. destruct HU as (bs' & Eb & HU).
  injection HU as <- _. cbn [stars].
  destruct (@tree_forces_cancel fuel u next n next1 (stars copy) theta)
    as (F & HF & Hzero); trivial.
  { intros b Hb. apply (in_map (@addr Star)) in Hb. rewrite Hcadr in Hb.
    apply in_seq in Hb. lia. }
  assert (Hnew : pairSum (map massAcceleration bs') = zeroPair).
  { rewrite (@updateStars_momentum time (mkQuadTree (Some n)) theta F (stars copy) bs' Eb);
      trivial.
    intros b Hb. eapply same_values_masses; eauto.
    intros s Hs. pose proof (Hpos s Hs). lra. }
  split; [trivial |].
  destruct (updateStars_velocity _ _ _ _ Eb) as (Hx & Hy).
  assert (Hc1 : map massAcceleration (stars copy) = map massAcceleration (stars u))
    by (apply (same_values_map
                 (fun v => mkPair (mass v * px (acceleration v))
                                  (mass v * py (acceleration v))) _ _ Hval)).
  assert (Hc2 : map momentumOf (stars copy) = map momentumOf (stars u))
    by (apply (same_values_map
                 (fun v => mkPair (mass v * px (velocity v))
                                  (mass v * py (velocity v))) _ _ Hval)).
  rewrite Hc1, Hc2, Hnew, Hacc in Hx, Hy. simpl in Hx, Hy.
  apply pair_eq; lra.
Qed.

Lemma BarnesHut_loop_momentum fuel time theta :
  forall gens u next l next',
    BarnesHut_loop fuel gens u time theta next = Done (l, next') ->
    (forall s, In s (stars u) -> 0 < mass (deref s)) ->
    (forall s, In s (stars u) -> (addr s < next)%nat) ->
    pairSum (map massAcceleration (stars u)) = zeroPair ->
    (forall i ui s, (i < gens)%nat -> nth_error (u :: l) i = Some ui ->
                    In s (stars ui) -> IsInsideUniverse s (width ui) = true) ->
    forall ui, In ui l ->
      pairSum (map momentumOf (stars ui)) = pairSum (map momentumOf (stars u)) /\
      pairSum (map massAcceleration (stars ui)) = zeroPair.
Proof.
  induction gens as [| gens IH]; intros u next l next' H Hpos Hadr Hacc Hin ui Hui.
  - simpl in H. injection H as <- _. contradiction.
  - apply BarnesHut_loop_inv in H.
    destruct H as (tree & next1 & u1 & next2 & rest & EG & EU & EL & ->).
    destruct (@UpdateUniverse_step fuel u time theta next tree next1 u1 next2)
      as (Hacc1 & Hmom1); trivial.
    { intros s Hs. apply (Hin 0%nat u s); [lia | reflexivity | trivial]. }
    destruct (UpdateUniverse_attributes _ _ _ _ _ EU) as (Hsame & Haddr & ->).
    destruct Hui as [<- | Hui]; [auto |].
    destruct (IH u1 _ rest next' EL) with (ui := ui) as (Hm & Ha); trivial.
    + now apply (sameBodies_pos Hsame).
    + intros s Hs. apply (in_map (@addr Star)) in Hs. rewrite Haddr in Hs.
      apply in_seq in Hs. lia.
    + intros i uj s Hi Hn Hs. apply (Hin (S i) uj s); [lia | exact Hn | trivial].
    + split; [congruence | trivial].
Qed.

(** X18. BarnesHut conserves the total momentum as long as no star has
    left the domain: when the stars have positive mass, the initial
    accelerations weighted by the masses sum to zero (as they do for stars
    starting without acceleration) and every star of every snapshot but
    the last lies inside the domain, then each snapshot has the total
    momentum of the initial universe, and its accelerations weighted by
    the masses sum to zero. *)
Theorem BarnesHut_momentum fuel u numGens time theta next l next' :
  BarnesHut fuel u numGens time theta next = Done (l, next') ->
  (forall s, In s (stars u) -> 0 < mass (deref s)) ->
  pairSum (map massAcceleration (stars u)) = zeroPair ->
  (forall i ui s, (i < numGens)%nat -> nth_error l i = Some ui ->
                  In s (stars ui) -> IsInsideUniverse s (width ui) = true) ->
  forall ui, In ui l ->
    pairSum (map momentumOf (stars ui)) = pairSum (map momentumOf (stars u)) /\
    pairSum (map massAcceleration (stars ui)) = zeroPair.
Proof.
  intros H Hpos Hacc Hin.
  pose proof (CopyUniverse_spec u next) as (Hn & Hw & Hval & Hadr).
  pose proof (CopyUniverse_sameBodies u next) as Hsame.
  unfold BarnesHut in H. destruct (CopyUniverse u next) as [first n0].
  cbn [fst snd] in *.
  apply bind_Done in H. destruct H as ([rest n1] & Hloop & H).
  injection H as <- _.
  assert (Hc1 : map massAcceleration (stars first) = map massAcceleration (stars u))
    by (apply (same_values_map
                 (fun v => mkPair (mass v * px (acceleration v))
                                  (mass v * py (acceleration v))) _ _ Hval)).
  assert (Hc2 : map momentumOf (stars first) = map momentumOf (stars u))
    by (apply (same_values_map
                 (fun v => mkPair (mass v * px (velocity v))
                                  (mass v * py (velocity v))) _ _ Hval)).
  intros ui [<- | Hui].
  - rewrite Hc1, Hc2. auto.
  - rewrite <- Hc2.
    apply (@BarnesHut_loop_momentum fuel time theta numGens first n0 rest n1 Hloop);
      trivial.
    + now apply (sameBodies_pos Hsame).
    + intros s Hs. apply (in_map (@addr Star)) in Hs. rewrite Hadr in Hs.
      apply in_seq in Hs. lia.
    + now rewrite Hc1.
Qed.

Lemma BarnesHut_head fuel u numGens time theta next l next' :
  BarnesHut fuel u numGens time theta next = Done (l, next') ->
  exists rest, l = fst (CopyUniverse u next) :: rest.
Proof.
  unfold BarnesHut. destruct (CopyUniverse u next) as [first n0]. intros H.
  apply bind_Done in H. destruct H as ([rest n1] & _ & H).
  injection H as <- _. eauto.
Qed.

Lemma BarnesHut_momentum_witness :
  exists F, forall fuel, (F <= fuel)%nat ->
    exists l next',
      BarnesHut fuel clusterUniverse 1 1 0.5 3 = Done (l, next') /\
      forall ui, In ui l ->
        pairSum (map momentumOf (stars ui))
        = pairSum (map momentumOf (stars clusterUniverse)) /\
        pairSum (map massAcceleration (stars ui)) = zeroPair.
Proof.
  destruct (@BarnesHut_one_generation clusterUniverse 1 0.5 3) as [F HF].
  - intros s Hs. pose proof (@clusterUniverse_masses s Hs). lra.
  - rewrite inDomain_all by apply clusterUniverse_inside.
    apply clusterUniverse_distinct.
  - exists F. intros fuel Hf. destruct (HF fuel Hf) as (l & next' & E).
    exists l, next'. split; [exact E |].
    apply (@BarnesHut_momentum fuel clusterUniverse 1 1 0.5 3 l next' E).
    + apply clusterUniverse_masses.
    + unfold clusterUniverse, massAcceleration, body. simpl.
      apply pair_eq; simpl; ring.
    + intros i ui s Hi Hn Hs.
      destruct (BarnesHut_head _ _ _ _ _ _ E) as [rest ->].
      pose proof (CopyUniverse_spec clusterUniverse 3) as (_ & Hw & Hval & _).
      set (first := fst (CopyUniverse clusterUniverse 3)) in *. clearbody first.
      assert (i = 0%nat) by lia. subst i. cbn [nth_error] in Hn. injection Hn as <-.
      destruct (same_values_In _ _ s Hval Hs) as (t & Ht & Et).
      rewrite Hw. rewrite (@IsInsideUniverse_pos s t) by (unfold pos; now rewrite Et).
      now apply clusterUniverse_inside.
Defined.

(** ** How deep InsertStar recurses *)

Lemma built_shaped n : built n -> shaped n.
Proof.
  induction 1 as [q | q s Hs | q cs Hlen Hsec Hbs IH Hne]; constructor; auto.
Qed.

Lemma InsertStar_bound n :
  built n ->
  forall k s,
    inside (sector n) s ->
    (forall b, In b (bodies n) -> qwidth (sector n) < 2 ^ k * sep b s) ->
    forall f, (k + 2 <= f)%nat -> exists n', InsertStar f n s = Done n'.
Proof.
  induction 1 as [q | q o Ho | q cs Hlen Hsec Hbs IH Hne]; intros k s Hin Hw f Hf;
    cbn [sector] in Hin, Hw.
  - destruct f as [| f]; [lia |]. rewrite InsertStar_empty. eauto.
  - apply InsertStar_leaf_total with (k := k); trivial. apply Hw. now left.
  - assert (Hcs : cs <> []) by (intros ->; simpl in Hlen; lia).
    rewrite bodies_internal in Hw by trivial.
    destruct k as [| k].
    + exfalso. destruct (flat_map bodies cs) as [| b l] eqn:Eb; [congruence |].
      assert (Hb : In b (flat_map bodies cs)) by (rewrite Eb; now left).
      rewrite <- Eb in Hw. specialize (Hw b Hb).
      assert (Hbin : inside q b).
      { apply (@shaped_bodies_inside (mkNode q None (map Some cs))).
        - apply built_shaped. apply built_internal; trivial.
          rewrite Eb. discriminate.
        - now rewrite bodies_internal. }
      pose proof (sep_le_width Hbin Hin). simpl in Hw. lra.
    + pose proof (FindQuadrant_lt q s) as Hlt.
      destruct (nth_error cs (FindQuadrant q s)) as [c |] eqn:Hc;
        [| apply nth_error_None in Hc; lia].
      destruct f as [| f]; [lia |].
      destruct (IH _ _ Hc k s) with (f := f) as [c' Ec'].
      * rewrite (Hsec _ _ Hc). now apply FindQuadrant_inside.
      * intros b Hb. rewrite (Hsec _ _ Hc), quadrantOf_width.
        assert (Hbn : In b (flat_map bodies cs)).
        { apply in_flat_map. exists c. split; trivial. eapply nth_error_In; eauto. }
        specialize (Hw b Hbn). simpl in Hw. lra.
      * lia.
      * destruct cs as [| c0 cs]; [discriminate |].
        cbn [map]. rewrite InsertStar_internal.
        change (Some c0 :: map Some cs) with (map Some (c0 :: cs)).
        rewrite (onChild_map _ _ _ _ _ Hc). rewrite Ec'. cbn [bind]. eauto.
Qed.

Lemma insertAll_bound k w ss :
  forall root, built root -> sector root = mkQuadrant 0 0 w ->
  NoDup (map pos (filter (fun s => IsInsideUniverse s w) ss ++ bodies root)) ->
  (forall a b,
      In a (filter (fun s => IsInsideUniverse s w) ss ++ bodies root) ->
      In b (filter (fun s => IsInsideUniverse s w) ss ++ bodies root) ->
      pos a <> pos b -> w < 2 ^ k * sep a b) ->
  forall f, (k + 2 <= f)%nat -> exists root', insertAll f w ss root = Done root'.
Proof.
  induction ss as [| s ss IH]; intros root Hb Hs Hnd Hsep f Hf; simpl in *.
  - eauto.
  - destruct (IsInsideUniverse s w) eqn:E; [| now apply IH].
    simpl in Hnd, Hsep. apply NoDup_cons_iff in Hnd. destruct Hnd as [Hnotin Hnd].
    assert (Hin : inside (sector root) s)
      by (rewrite Hs; now apply IsInsideUniverse_inside).
    destruct (@InsertStar_bound root Hb k s Hin) with (f := f) as [root1 H1]; trivial.
    { intros b Hbb. rewrite Hs. cbn [qwidth]. apply Hsep.
      - right. apply in_or_app. now right.
      - now left.
      - intros Epos. apply Hnotin. rewrite <- Epos. apply in_map, in_or_app. now right. }
    destruct (InsertStar_built f Hb Hin) as [H0 | (root1' & H1' & Hb1 & Hs1 & Hp1)];
      [congruence |].
    assert (root1' = root1) by congruence. subst root1'.
    rewrite H1. cbn [bind]. apply IH; trivial; [congruence | |].
    + eapply Permutation_NoDup; [| exact (NoDup_cons _ Hnotin Hnd)].
      change (pos s :: map pos (filter (fun s => IsInsideUniverse s w) ss ++ bodies root))
        with (map pos (s :: filter (fun s => IsInsideUniverse s w) ss ++ bodies root)).
      apply Permutation_map with (f := pos).
      rewrite Hp1. apply Permutation_middle.
    + assert (Hsub : forall a,
                In a (filter (fun s => IsInsideUniverse s w) ss ++ bodies root1) ->
                s = a \/ In a (filter (fun s => IsInsideUniverse s w) ss ++ bodies root)).
      { intros a Ha. apply in_app_or in Ha. destruct Ha as [Ha | Ha].
        - right. apply in_or_app. now left.
        - apply (Permutation_in _ Hp1) in Ha. destruct Ha as [<- | Ha]; [now left |].
          right. apply in_or_app. now right. }
      intros a b Ha Hb'. apply Hsep; auto.
Qed.

(** X19. In real arithmetic the recursion depth that GenerateQuadTree
    needs is bounded by the closest pair of stars: when the stars inside
    the domain are at pairwise distinct positions and the width of the
    domain is less than [2 ^ k] times the larger coordinate distance of
    any two of them, a depth of [k + 2] suffices.  (Not so in binary64:
    the two bodies of [nearUniverse] meet the condition with [k = 53],
    and no depth suffices for them.) *)
Theorem GenerateQuadTree_depth u next k :
  NoDup (map pos (inDomain u)) ->
  (forall a b, In a (inDomain u) -> In b (inDomain u) -> pos a <> pos b ->
               width u < 2 ^ k * sep a b) ->
  forall fuel, (k + 2 <= fuel)%nat ->
    exists tree next', GenerateQuadTree fuel u next = Done (tree, next').
Proof.
  intros Hnd Hsep fuel Hf.
  destruct (@insertAll_bound k (width u) (stars u)
              (mkNode (mkQuadrant 0 0 (width u)) None []))
    with (f := fuel) as [root1 E]; trivial.
  - constructor.
  - simpl. now rewrite app_nil_r.
  - simpl. rewrite app_nil_r. exact Hsep.
  - destruct (@GenerateQuadTree_of_insertAll fuel u next root1 E) as (n & next' & H & _).
    eauto.
Qed.

Lemma GenerateQuadTree_depth_witness :
  exists tree next', GenerateQuadTree 5 clusterUniverse 3 = Done (tree, next').
Proof.
  apply (@GenerateQuadTree_depth clusterUniverse 3 3); [| | lia].
  - rewrite inDomain_all by apply clusterUniverse_inside.
    apply clusterUniverse_distinct.
  - rewrite inDomain_all by apply clusterUniverse_inside.
    assert (H : forall x y, 2 <= Rabs x -> 8 < 2 ^ 3 * Rmax (Rabs x) (Rabs y)).
    { intros x y Hx. pose proof (Rmax_l (Rabs x) (Rabs y)). simpl. lra. }
    intros a b [<- | [<- | [<- | []]]] [<- | [<- | [<- | []]]] Hne;
      try (exfalso; apply Hne; reflexivity);
      unfold sep, body, pos; simpl; apply H;
      unfold Rabs; destruct (Rcase_abs _); lra.
Defined.

(** ** Errors of BarnesHut *)

Lemma UpdateUniverse_cases u time tree theta next :
  match UpdateUniverse u time tree theta next with
  | Done _ => forall s, In s (stars u) -> mass (deref s) <> 0
  | DivByZero => exists s, In s (stars u) /\ mass (deref s) = 0
  | Panic => False
  | OutOfFuel => False
  end.
Proof.
  destruct (copyStars_spec (stars u) next) as (Hval & _).
  unfold UpdateUniverse, CopyUniverse.
  destruct (copyStars (stars u) next) as [copies nx]. cbn [stars width fst] in *.
  pose proof (updateStars_cases copies time tree theta) as H.
  destruct (updateStars copies time tree theta) as [bs' | | |]; cbn [bind];
    try contradiction.
  - intros s Hs Hs0.
    destruct (@same_values_In (stars u) copies s (eq_sym Hval) Hs) as (t & Ht & E).
    apply (proj1 H t Ht). now rewrite E.
  - destruct H as (b & Hb & Hb0).
    destruct (@same_values_In copies (stars u) b Hval Hb) as (t & Ht & E).
    exists t. split; [trivial |]. now rewrite E.
Qed.

Lemma BarnesHut_loop_cases fuel time theta :
  forall gens u next,
    match BarnesHut_loop fuel gens u time theta next with
    | Done _ => gens = 0%nat \/ forall s, In s (stars u) -> mass (deref s) <> 0
    | DivByZero => exists s, In s (stars u) /\ mass (deref s) = 0
    | Panic => False
    | OutOfFuel => True
    end.
Proof.
  induction gens as [| gens IH]; intros u next; cbn [BarnesHut_loop].
  - now left.
  - destruct (GenerateQuadTree_outcome fuel u next) as [-> | (n & n1 & -> & _)];
      cbn [bind]; trivial.
    pose proof (UpdateUniverse_cases u time (mkQuadTree (Some n)) theta n1) as HU.
    destruct (UpdateUniverse u time (mkQuadTree (Some n)) theta n1)
      as [[u1 n2] | | |] eqn:EU; cbn [bind]; try contradiction; trivial.
    specialize (IH u1 n2).
    destruct (BarnesHut_loop fuel gens u1 time theta n2) as [[rest n3] | | |];
      cbn [bind]; trivial.
    + now right.
    + exfalso. destruct IH as (s & Hs & Hs0).
      exact (@UpdateUniverse_masses u time (mkQuadTree (Some n)) theta n1 u1 n2 HU EU
               s Hs Hs0).
Qed.

Lemma BarnesHut_outcome fuel u numGens time theta next :
  (forall s, In s (stars u) -> mass (deref s) <> 0) ->
  BarnesHut fuel u numGens time theta next = OutOfFuel \/
  exists l next',
    BarnesHut fuel u numGens time theta next = Done (l, next') /\
    length l = S numGens.
Proof.
  intros Hm.
  pose proof (CopyUniverse_spec u next) as (_ & _ & Hd & _).
  unfold BarnesHut. destruct (CopyUniverse u next) as [first n0]. cbn [fst] in Hd.
  assert (Hm1 : forall s, In s (stars first) -> mass (deref s) <> 0)
    by (eapply same_values_masses; eauto).
  destruct (@BarnesHut_loop_outcome fuel numGens time theta first n0 Hm1)
    as [-> | (l & n1 & E)]; [now left |].
  right. rewrite E. cbn [bind]. exists (first :: l), n1. split; [reflexivity |].
  simpl. f_equal. exact (BarnesHut_loop_length _ _ _ _ _ _ E).
Qed.

(** X20. BarnesHut panics on the generation counts for which
    [numGens + 1] is not positive as an [int]: the negative ones, for
    which [make] or the assignment to [timePoints[0]] panics, and the
    largest one, for which the sum wraps around.  On every other count,
    once the slice of [numGens + 1] entries is allocated, it does not
    panic, and for a universe of stars of non-zero mass it either returns
    [numGens + 1] snapshots or runs out of recursion depth in a tree
    construction. *)
Theorem BarnesHut_errors fuel u numGens time theta next :
  (- 2 ^ 63 <= numGens < 2 ^ 63)%Z ->
  ((numGens < 0 \/ numGens = 2 ^ 63 - 1)%Z ->
   BarnesHut_int fuel u numGens time theta next = Panic) /\
  ((0 <= numGens < 2 ^ 63 - 1)%Z ->
   BarnesHut_int fuel u numGens time theta next <> Panic /\
   ((forall s, In s (stars u) -> mass (deref s) <> 0) ->
    BarnesHut_int fuel u numGens time theta next = OutOfFuel \/
    exists l next',
      BarnesHut_int fuel u numGens time theta next = Done (l, next') /\
      Z.of_nat (length l) = (numGens + 1)%Z)).
Proof.
  intros Hr.
  assert (Hnp : forall n, BarnesHut fuel u n time theta next <> Panic).
  { intros n. unfold BarnesHut. destruct (CopyUniverse u next) as [first n0].
    pose proof (BarnesHut_loop_cases fuel time theta n first n0) as H.
    destruct (BarnesHut_loop fuel n first time theta n0) as [[rest n1] | | |];
      cbn [bind]; try contradiction; discriminate. }
  unfold BarnesHut_int, int.
  destruct (Z.eq_dec numGens (2 ^ 63 - 1)) as [-> | Hmax].
  - split; [reflexivity | lia].
  - replace ((numGens + 1 + 2 ^ 63) mod 2 ^ 64 - 2 ^ 63)%Z with (numGens + 1)%Z
      by (rewrite Z.mod_small; lia).
    destruct (Z.leb_spec (numGens + 1) 0) as [Hneg | Hpos].
    + split; [reflexivity | lia].
    + split; [lia |].
      intros _. split; [apply Hnp |]. intros Hm.
        destruct (@BarnesHut_outcome fuel u (Z.to_nat numGens) time theta next Hm)
          as [E | (l & next' & E & Hlen)]; [now left |].
        right. exists l, next'. split; [exact E |]. rewrite Hlen. lia.
Qed.

Lemma BarnesHut_errors_witness :
  BarnesHut_int 1 outsideUniverse (-1) 1 0.5 0 = Panic.
Proof.
  apply (@BarnesHut_errors 1 outsideUniverse (-1) 1 0.5 0); lia.
Defined.

(** ** When GenerateQuadTree returns *)

Lemma InsertStar_repeated s f :
  forall q l n n', treeOf q l n -> In (pos s) (map pos l) ->
                   InsertStar f n s = Done n' -> False.
Proof.
  induction f as [| f IH]; intros q l n n' Ht Hin H; [discriminate |].
  inversion Ht as [q0 | q0 o | q0 l0 cs Hlen Hcs Hall]; subst.
  - contradiction.
  - simpl in Hin. destruct Hin as [E | []].
    rewrite InsertStar_coincident in H by trivial. discriminate.
  - assert (Hne : exists c cs0, map Some cs = c :: cs0).
    { destruct cs as [| c cs]; [discriminate | simpl; eauto]. }
    destruct Hne as (c0 & cs0 & E). rewrite E in H.
    rewrite InsertStar_internal in H. rewrite <- E in H.
    pose proof (FindQuadrant_lt q s) as Hlt.
    destruct (nth_error cs (FindQuadrant q s)) as [c |] eqn:Hc;
      [| apply nth_error_None in Hc; lia].
    rewrite (@onChild_map _ q None cs _ c Hc) in H.
    apply bind_Done in H. destruct H as (c' & Ec & _).
    apply (IH _ _ _ _ (Hall _ _ Hc)) in Ec; trivial.
    apply in_map_iff in Hin. destruct Hin as (b & Eb & Hb).
    apply in_map_iff. exists b. split; [trivial |].
    unfold quadrantStars. apply filter_In. split; [trivial |].
    apply Nat.eqb_eq. now apply FindQuadrant_pos.
Qed.

Lemma insertAll_distinct fuel w q ss :
  forall l root r,
    treeOf q l root -> NoDup (map pos l) ->
    insertAll fuel w ss root = Done r ->
    NoDup (map pos (l ++ filter (fun s => IsInsideUniverse s w) ss)).
Proof.
  induction ss as [| a ss IH]; cbn [insertAll filter]; intros l root r Ht Hnd H.
  - now rewrite app_nil_r.
  - destruct (IsInsideUniverse a w); [| eauto].
    apply bind_Done in H. destruct H as (root' & E & H).
    assert (Hnew : ~ In (pos a) (map pos l)).
    { intros Hin. exact (InsertStar_repeated _ _ Ht Hin E). }
    pose proof (InsertStar_treeOf _ _ Ht E) as Ht'.
    assert (Hnd' : NoDup (map pos (l ++ [a]))).
    { rewrite map_app. simpl.
      apply (Permutation_NoDup (l := pos a :: map pos l)).
      - apply Permutation_cons_append.
      - now constructor. }
    specialize (IH _ _ _ Ht' Hnd' H). now rewrite <- app_assoc in IH.
Qed.

Lemma F64_ComputeCenterAndMass_children_returns rec cs :
  (forall c, In c cs -> forall next, exists c' next', rec c next = Done (c', next')) ->
  forall t x y next,
    exists r, F64.ComputeCenterAndMass_children rec (map Some cs) t x y next = Done r.
Proof.
  induction cs as [| c cs IH]; intros H t x y next;
    cbn [map F64.ComputeCenterAndMass_children]; [eauto |].
  destruct (H c (or_introl eq_refl) next) as (c' & next' & ->). cbn [bind].
  assert (IH' := IH (fun d Hd => H d (or_intror Hd))).
  destruct (F64.star c') as [st |].
  - destruct (IH' (t + F64.mass (deref st))%float
                (x + F64.mass (deref st) * F64.px (F64.pos st))%float
                (y + F64.mass (deref st) * F64.py (F64.pos st))%float next')
      as [[[[[cs2 t2] x2] y2] n2] ->].
    cbn [bind]. eauto.
  - destruct (IH' t x y next') as [[[[[cs2 t2] x2] y2] n2] ->]. cbn [bind]. eauto.
Qed.

Lemma F64_ComputeCenterAndMass_returns q l n :
  F64.treeOf q l n ->
  forall next, exists n' next', F64.ComputeCenterAndMass n next = Done (n', next').
Proof.
  induction 1 as [q | q s | q l cs Hlen Hcs Hall IH]; intros next;
    [simpl; eauto | simpl; eauto |].
  destruct cs as [| c0 cs0] eqn:Ecs; [discriminate |]. rewrite <- Ecs in *.
  assert (E : map Some cs = Some c0 :: map Some cs0) by now rewrite Ecs.
  rewrite E, F64_ComputeCenterAndMass_internal, <- E.
  destruct (@F64_ComputeCenterAndMass_children_returns F64.ComputeCenterAndMass cs)
    with (t := 0%float) (x := 0%float) (y := 0%float) (next := next)
    as [[[[[cs2 t2] x2] y2] n2] ->].
  - intros c Hc. apply In_nth_error in Hc. destruct Hc as [i Hi]. eauto.
  - cbn [bind]. destruct (0 <? t2)%float; eauto.
Qed.

(** X21. GenerateQuadTree returns, for some recursion depth, exactly when
    the subdivision separates every star inside the domain from every
    star inside the domain that precedes it in the universe: at some
    depth FindQuadrant sends the two to different children.  This is the
    binary64 code; stars outside the domain do not matter.  In real
    arithmetic the condition is that no two stars inside the domain are
    at the same position. *)
Theorem GenerateQuadTree_returns_iff u next :
  (forall fu,
     (exists fuel tree next', F64.GenerateQuadTree fuel fu next = Done (tree, next')) <->
     ForallOrdPairs (F64.separated (F64.mkQuadrant 0 0 (F64.width fu)))
       (filter (fun s => F64.IsInsideUniverse s (F64.width fu)) (F64.stars fu))) /\
  ((exists fuel tree next', GenerateQuadTree fuel u next = Done (tree, next')) <->
   NoDup (map pos (inDomain u))).
Proof.
  split.
  - intros fu. split.
    + intros (fuel & tree & next' & H). unfold F64.GenerateQuadTree in H.
      apply bind_Done in H. destruct H as (root1 & E & _).
      apply (@F64_insertAll_separates (F64.width fu)
               (F64.mkQuadrant 0 0 (F64.width fu)) fuel (F64.stars fu) []
               (F64.mkNode (F64.mkQuadrant 0 0 (F64.width fu)) None []) root1);
        [constructor | constructor | exact E].
    + intros H.
      destruct (@F64_insertAll_returns (F64.width fu)
                  (F64.mkQuadrant 0 0 (F64.width fu)) (F64.stars fu) []
                  (F64.mkNode (F64.mkQuadrant 0 0 (F64.width fu)) None []))
        as [F HF]; [constructor | exact H |].
      destruct (HF F (le_n _)) as [root1 E].
      pose proof (@F64_insertAll_treeOf F (F64.width fu)
                    (F64.mkQuadrant 0 0 (F64.width fu)) (F64.stars fu) [] _ root1
                    (F64.treeOf_empty _) E) as Ht.
      destruct (F64_ComputeCenterAndMass_returns Ht next) as (n' & next' & EC).
      exists F, (F64.mkQuadTree (Some n')), next'.
      unfold F64.GenerateQuadTree. rewrite E. cbn [bind]. now rewrite EC.
  - split.
    + intros (fuel & tree & next' & H).
      apply GenerateQuadTree_inv in H. destruct H as (root1 & n & E & _).
      apply (insertAll_distinct _ _ _ (treeOf_empty _)) in E; [| constructor].
      exact E.
    + intros Hnd. destruct (GenerateQuadTree_total u next Hnd) as [F HF].
      destruct (HF F (le_n F)) as (n & next' & E & _). eauto.
Qed.

(** ** LoadJupiterMoons *)

Lemma Split_length line : length (Split line) = S (Count line).
Proof.
  induction line as [| c rest IH]; [reflexivity |].
  cbn [Split Count]. destruct (Ascii.eqb c ","%char).
  - simpl. now rewrite IH.
  - destruct (Split rest) as [| f fs]; [discriminate |]. simpl in *. lia.
Qed.

Section LoadJupiterMoons_properties.
Variable TrimSpace : string -> string.
Variable ParseFloat : string -> R * bool.
Variable Atoi : string -> Z * bool.

Lemma loadLine_Done line currStar stars0 next :
  exists currStar' stars1 next',
    loadLine TrimSpace ParseFloat Atoi line currStar stars0 next
    = Done (currStar', stars1, next') /\
    (HasPrefix line = true ->
     currStar' = Some (mkPtr next (mkStar zeroPair zeroPair zeroPair 0 0 0%N 0%N 0%N)) /\
     stars1 = appendCurrent stars0 currStar /\ next' = S next) /\
    (HasPrefix line = false ->
     stars1 = stars0 /\ next' = next /\
     option_map (@addr Star) currStar' = option_map (@addr Star) currStar).
Proof.
  unfold loadLine. destruct (HasPrefix line).
  - do 3 eexists. split; [reflexivity |]. split; [auto | discriminate].
  - destruct currStar as [s |].
    + pose proof (Split_length line) as Hl.
      destruct (Nat.eqb_spec (Count line) 2) as [E2 | N2].
      * rewrite E2 in Hl.
        destruct (Split line) as [| f0 [| f1 [| f2 fs]]]; try discriminate.
        cbn [field nth_error bind].
        do 3 eexists. split; [reflexivity |]. split; [discriminate | auto].
      * destruct (Contains line && Nat.eqb (Count line) 1) eqn:E1.
        -- apply andb_true_iff in E1. destruct E1 as [_ E1].
           apply Nat.eqb_eq in E1. rewrite E1 in Hl.
           destruct (Split line) as [| f0 [| f1 fs]]; try discriminate.
           cbn [field nth_error bind].
           destruct (Reqb (px (pos s)) 0 && Reqb (py (pos s)) 0);
             do 3 eexists; (split; [reflexivity |]); split; try discriminate; auto.
        -- destruct (Reqb (mass (deref s)) 0);
             do 3 eexists; (split; [reflexivity |]); split; try discriminate; auto.
    + do 3 eexists. split; [reflexivity |]. split; [discriminate | auto].
Qed.

Lemma appendCurrent_addr stars0 (c c' : option (ptr Star)) :
  option_map (@addr Star) c' = option_map (@addr Star) c ->
  map (@addr Star) (appendCurrent stars0 c') = map (@addr Star) (appendCurrent stars0 c).
Proof.
  destruct c as [s |], c' as [s' |]; simpl; intros E; try discriminate; trivial.
  rewrite !map_app. simpl. congruence.
Qed.

Lemma loadLines_Done lines :
  forall currStar stars0 next,
  exists currStar' stars1,
    loadLines TrimSpace ParseFloat Atoi lines currStar stars0 next
    = Done (currStar', stars1, (next + length (filter HasPrefix lines))%nat) /\
    map (@addr Star) (appendCurrent stars1 currStar')
    = map (@addr Star) (appendCurrent stars0 currStar)
      ++ seq next (length (filter HasPrefix lines)).
Proof.
  induction lines as [| line rest IH]; intros currStar stars0 next.
  - exists currStar, stars0. cbn [loadLines filter length].
    rewrite Nat.add_0_r, app_nil_r. auto.
  - cbn [loadLines filter].
    destruct (loadLine_Done line currStar stars0 next)
      as (c1 & s1 & n1 & -> & Hh & Hn). cbn [bind].
    destruct (HasPrefix line).
    + destruct (Hh eq_refl) as (-> & -> & ->).
      destruct (IH (Some (mkPtr next (mkStar zeroPair zeroPair zeroPair 0 0 0%N 0%N 0%N)))
                  (appendCurrent stars0 currStar) (S next)) as (c' & s' & E & Ha).
      exists c', s'. cbn [length]. rewrite Nat.add_succ_r. split; [exact E |].
      rewrite Ha. cbn [appendCurrent]. rewrite map_app. cbn [map addr seq].
      now rewrite <- app_assoc.
    + destruct (Hn eq_refl) as (-> & -> & Hc).
      destruct (IH c1 stars0 next) as (c' & s' & E & Ha).
      exists c', s'. split; [exact E |].
      rewrite Ha. now rewrite (appendCurrent_addr _ _ _ Hc).
Qed.

(** X22. LoadJupiterMoons panics exactly when the file cannot be opened,
    holds no line that is not blank, or its first such line does not parse
    as a number; no later line makes it fail.  Otherwise it returns a
    universe whose width is the number on the first line and which holds
    one freshly allocated star for each line that starts with [>] from
    the third line on, the second line being skipped. *)
Theorem LoadJupiterMoons_outcome file next :
  LoadJupiterMoons TrimSpace ParseFloat Atoi file next <> DivByZero /\
  LoadJupiterMoons TrimSpace ParseFloat Atoi file next <> OutOfFuel /\
  (LoadJupiterMoons TrimSpace ParseFloat Atoi file next = Panic <->
   file = None \/
   exists text, file = Some text /\
     (scanned TrimSpace text = [] \/
      exists first rest, scanned TrimSpace text = first :: rest /\
                         snd (ParseFloat first) = true)) /\
  (forall u next',
      LoadJupiterMoons TrimSpace ParseFloat Atoi file next = Done (u, next') ->
      exists text first rest,
        file = Some text /\ scanned TrimSpace text = first :: rest /\
        width u = fst (ParseFloat first) /\
        length (stars u) = length (filter HasPrefix (skipn 1 rest)) /\
        map (@addr Star) (stars u) = seq next (length (stars u)) /\
        next' = (next + length (stars u))%nat).
Proof.
  unfold LoadJupiterMoons. destruct file as [text |].
  2: { repeat split; try discriminate; auto. }
  destruct (scanned TrimSpace text) as [| first rest] eqn:Es.
  { repeat split; try discriminate; eauto. }
  destruct (ParseFloat first) as [width0 err] eqn:Ep.
  destruct err.
  { repeat split; try discriminate.
    intros _. right. exists text. split; [trivial |]. right.
    exists first, rest. rewrite Ep. auto. }
  change (skipn 2 (first :: rest)) with (skipn 1 rest).
  destruct (loadLines_Done (skipn 1 rest) None [] next) as (c & ss & -> & Ha).
  cbn [bind]. simpl in Ha.
  assert (Hlen : length (appendCurrent ss c)
                 = length (filter HasPrefix (skipn 1 rest))).
  { rewrite <- (length_map (@addr Star)), Ha. apply length_seq. }
  repeat split; try discriminate.
  - intros [E | (t & Et & [E | (f & r & E & Hp)])]; try discriminate;
      injection Et as <-; rewrite Es in E; [discriminate |].
    injection E as <- <-. rewrite Ep in Hp. discriminate.
  - intros u next' E. injection E as <- <-. cbn [width stars].
    exists text, first, rest. rewrite Ep, Hlen. auto 10.
Qed.

Lemma loadLine_header line currStar stars0 next :
  HasPrefix line = true ->
  loadLine TrimSpace ParseFloat Atoi line currStar stars0 next
  = Done (Some (mkPtr next (mkStar zeroPair zeroPair zeroPair 0 0 0%N 0%N 0%N)),
          appendCurrent stars0 currStar, S next).
Proof. intros H. unfold loadLine. now rewrite H. Qed.

Lemma loadLine_colour line s stars0 next c0 c1 c2 :
  HasPrefix line = false -> Split line = [c0; c1; c2] ->
  loadLine TrimSpace ParseFloat Atoi line (Some s) stars0 next
  = Done (Some (set_colour s (uint8 (fst (Atoi (TrimSpace c0))))
                  (uint8 (fst (Atoi (TrimSpace c1))))
                  (uint8 (fst (Atoi (TrimSpace c2))))), stars0, next).
Proof.
  intros H Hs. pose proof (Split_length line) as Hl. rewrite Hs in Hl.
  assert (Hc : Count line = 2%nat) by (simpl in Hl; lia).
  unfold loadLine. rewrite H, Hc, Hs. reflexivity.
Qed.

Lemma loadLine_pair line s stars0 next p0 p1 :
  HasPrefix line = false -> Split line = [p0; p1] ->
  loadLine TrimSpace ParseFloat Atoi line (Some s) stars0 next
  = Done (Some (if Reqb (px (pos s)) 0 && Reqb (py (pos s)) 0
                then set_position s (mkPair (fst (ParseFloat (TrimSpace p0)))
                                            (fst (ParseFloat (TrimSpace p1))))
                else set_velocity s (mkPair (fst (ParseFloat (TrimSpace p0)))
                                            (fst (ParseFloat (TrimSpace p1))))),
          stars0, next).
Proof.
  intros H Hs. pose proof (Split_length line) as Hl. rewrite Hs in Hl.
  assert (Hc : Count line = 1%nat) by (simpl in Hl; lia).
  unfold loadLine, Contains. rewrite H, Hc, Hs. cbn [Nat.eqb Nat.ltb Nat.leb andb].
  cbn [field nth_error bind].
  destruct (Reqb (px (pos s)) 0 && Reqb (py (pos s)) 0); reflexivity.
Qed.

Lemma loadLine_scalar line s stars0 next :
  HasPrefix line = false -> Count line = 0%nat ->
  loadLine TrimSpace ParseFloat Atoi line (Some s) stars0 next
  = Done (Some (if Reqb (mass (deref s)) 0 then set_mass s (fst (ParseFloat line))
                else set_radius s (fst (ParseFloat line))), stars0, next).
Proof.
  intros H Hc. unfold loadLine, Contains. rewrite H, Hc.
  cbn [Nat.eqb Nat.ltb Nat.leb andb].
  destruct (Reqb (mass (deref s)) 0); reflexivity.
Qed.

Lemma reads_block ls m rest currStar stars0 next :
  reads TrimSpace ParseFloat Atoi ls m ->
  loadLines TrimSpace ParseFloat Atoi (ls ++ rest) currStar stars0 next
  = loadLines TrimSpace ParseFloat Atoi rest (Some (mkPtr next (starOf m)))
      (appendCurrent stars0 currStar) (S next).
Proof.
  intros (hl & cl & pl & vl & ml & rl & c0 & c1 & c2 & p0 & p1 & v0 & v1 &
          -> & Hh & Hc & Hp & Hv & Hm & Hr & Sc & Sp & Sv & Cm & Cr & ->).
  cbn [app loadLines].
  rewrite (@loadLine_header hl _ _ _ Hh). cbn [bind].
  rewrite (@loadLine_colour cl _ _ _ c0 c1 c2 Hc Sc). cbn [bind].
  rewrite (@loadLine_pair pl _ _ _ p0 p1 Hp Sp). cbn [bind].
  rewrite (@loadLine_pair vl _ _ _ v0 v1 Hv Sv). cbn [bind].
  rewrite (@loadLine_scalar ml _ _ _ Hm Cm). cbn [bind].
  rewrite (@loadLine_scalar rl _ _ _ Hr Cr). cbn [bind].
  f_equal. f_equal.
  set (x := fst (ParseFloat (TrimSpace p0))). set (y := fst (ParseFloat (TrimSpace p1))).
  set (vx := fst (ParseFloat (TrimSpace v0))). set (vy := fst (ParseFloat (TrimSpace v1))).
  set (m1 := fst (ParseFloat ml)). set (m2 := fst (ParseFloat rl)).
  unfold starOf. cbn [firstPair secondPair firstScalar secondScalar colour fst snd px py].
  set (s1 := set_colour _ _ _ _).
  assert (E1 : Reqb (px (pos s1)) 0 && Reqb (py (pos s1)) 0 = true).
  { unfold s1, set_colour, pos. cbn [deref position]. unfold zeroPair. cbn [px py].
    now rewrite (@Reqb_true 0 0 eq_refl). }
  rewrite E1.
  set (s2 := set_position s1 _).
  assert (E2 : pos s2 = mkPair x y) by reflexivity.
  rewrite E2. cbn [px py].
  assert (Em : forall s3 : ptr Star,
             mass (deref s3) = 0 ->
             Reqb (mass (deref s3)) 0 = true) by (intros; now apply Reqb_true).
  destruct (Reqb x 0 && Reqb y 0).
  - rewrite (Em (set_position s2 (mkPair vx vy))) by reflexivity.
    set (s4 := set_mass _ _).
    assert (E4 : mass (deref s4) = m1) by reflexivity. rewrite E4.
    destruct (Reqb m1 0); reflexivity.
  - rewrite (Em (set_velocity s2 (mkPair vx vy))) by reflexivity.
    set (s4 := set_mass _ _).
    assert (E4 : mass (deref s4) = m1) by reflexivity. rewrite E4.
    destruct (Reqb m1 0); reflexivity.
Qed.

Lemma loadLines_blocks blocks moons :
  Forall2 (reads TrimSpace ParseFloat Atoi) blocks moons ->
  forall currStar stars0 next,
  exists currStar' stars1,
    loadLines TrimSpace ParseFloat Atoi (concat blocks) currStar stars0 next
    = Done (currStar', stars1, (next + length moons)%nat) /\
    appendCurrent stars1 currStar' = appendCurrent stars0 currStar ++ allocate next moons.
Proof.
  induction 1 as [| ls m blocks moons Hr HF IH]; intros currStar stars0 next.
  - exists currStar, stars0. simpl. rewrite Nat.add_0_r, app_nil_r. auto.
  - cbn [concat]. rewrite (@reads_block ls m _ _ _ _ Hr).
    destruct (IH (Some (mkPtr next (starOf m))) (appendCurrent stars0 currStar) (S next))
      as (c' & s' & E & Ha).
    exists c', s'. cbn [length]. rewrite Nat.add_succ_r. split; [exact E |].
    rewrite Ha. cbn [appendCurrent allocate]. now rewrite <- app_assoc.
Qed.

(** X23. On a file in the format it is written for, a line with the
    width, a line that is skipped and then blocks of six lines, that is a
    header starting with [>], the colour, two pairs and two scalars,
    LoadJupiterMoons returns the universe of that width with one star per
    block, in the order of the file and at consecutive addresses.  Each
    star has the colour of its block and no acceleration; its position is
    the first pair and its velocity the second, unless the first pair is
    the origin, in which case the second pair becomes the position and the
    velocity stays zero; its mass is the first scalar and its radius the
    second, unless the first scalar is zero, in which case the second
    becomes the mass and the radius stays zero. *)
Theorem LoadJupiterMoons_blocks text first second blocks moons width0 next :
  scanned TrimSpace text = first :: second :: concat blocks ->
  ParseFloat first = (width0, false) ->
  Forall2 (reads TrimSpace ParseFloat Atoi) blocks moons ->
  LoadJupiterMoons TrimSpace ParseFloat Atoi (Some text) next
  = Done (mkUniverse width0 (allocate next moons), (next + length moons)%nat) /\
  (forall i m, nth_error moons i = Some m ->
     exists s, nth_error (allocate next moons) i = Some s /\
       addr s = (next + i)%nat /\
       acceleration (deref s) = zeroPair /\
       (red (deref s), green (deref s), blue (deref s)) = colour m /\
       (firstPair m <> zeroPair ->
        pos s = firstPair m /\ velocity (deref s) = secondPair m) /\
       (firstPair m = zeroPair ->
        pos s = secondPair m /\ velocity (deref s) = zeroPair) /\
       (firstScalar m <> 0 ->
        mass (deref s) = firstScalar m /\ radius (deref s) = secondScalar m) /\
       (firstScalar m = 0 ->
        mass (deref s) = secondScalar m /\ radius (deref s) = 0)).
Proof.
  intros Es Ep HF. split.
  - unfold LoadJupiterMoons. rewrite Es, Ep.
    change (skipn 2 (first :: second :: concat blocks)) with (concat blocks).
    destruct (loadLines_blocks HF None [] next) as (c & ss & -> & Ha).
    cbn [bind]. now rewrite Ha.
  - clear Es Ep HF blocks. revert next.
    induction moons as [| m0 moons IH]; intros next i m Hi.
    + destruct i; discriminate.
    + destruct i as [| i]; cbn [nth_error allocate] in *.
      * injection Hi as ->. eexists. split; [reflexivity |].
        cbn [addr deref]. split; [lia |].
        unfold starOf, pos. cbn [deref acceleration red green blue position velocity
                                 mass radius].
        split; [reflexivity |].
        split; [now destruct (colour m) as [[r g] b] |].
        assert (Hz : Reqb (px (firstPair m)) 0 && Reqb (py (firstPair m)) 0 = true
                     <-> firstPair m = zeroPair).
        { rewrite andb_true_iff, !Reqb_eq. split.
          - intros [Hx Hy]. now apply pair_eq.
          - intros ->. auto. }
        split; [| split; [| split]].
        -- intros Hne.
           destruct (Reqb (px (firstPair m)) 0 && Reqb (py (firstPair m)) 0) eqn:E0.
           ++ exfalso. apply Hne. now apply Hz.
           ++ split; reflexivity.
        -- intros He. apply Hz in He. rewrite He. split; reflexivity.
        -- intros Hne. destruct (Reqb (firstScalar m) 0) eqn:E1.
           ++ exfalso. apply Hne. now apply Reqb_eq.
           ++ split; reflexivity.
        -- intros He. apply Reqb_eq in He. rewrite He. split; reflexivity.
      * destruct (IH (S next) i m Hi) as (s & Hs & Ha & Hrest).
        exists s. split; [exact Hs |]. split; [lia | exact Hrest].
Qed.
End LoadJupiterMoons_properties.

Lemma LoadJupiterMoons_blocks_witness :
  LoadJupiterMoons (fun line => line) sampleParseFloat sampleAtoi (Some sampleFile) 0
  = Done (mkUniverse 1 (allocate 0 [sampleMoon]), (0 + 1)%nat) /\
  (forall i m, nth_error [sampleMoon] i = Some m ->
     exists s, nth_error (allocate 0 [sampleMoon]) i = Some s /\
       addr s = (0 + i)%nat /\
       acceleration (deref s) = zeroPair /\
       (red (deref s), green (deref s), blue (deref s)) = colour m /\
       (firstPair m <> zeroPair ->
        pos s = firstPair m /\ velocity (deref s) = secondPair m) /\
       (firstPair m = zeroPair ->
        pos s = secondPair m /\ velocity (deref s) = zeroPair) /\
       (firstScalar m <> 0 ->
        mass (deref s) = firstScalar m /\ radius (deref s) = secondScalar m) /\
       (firstScalar m = 0 ->
        mass (deref s) = secondScalar m /\ radius (deref s) = 0)).
Proof.
  apply (@LoadJupiterMoons_blocks (fun line => line) sampleParseFloat sampleAtoi
           sampleFile "w"%string "title"%string
           [[">Io"; "a,bb,ccc"; "xx,y"; "v,vv"; "mmm"; "rr"]%string] [sampleMoon] 1 0).
  - reflexivity.
  - reflexivity.
  - constructor; [| constructor].
    exists ">Io"%string, "a,bb,ccc"%string, "xx,y"%string, "v,vv"%string,
      "mmm"%string, "rr"%string, "a"%string, "bb"%string, "ccc"%string,
      "xx"%string, "y"%string, "v"%string, "vv"%string.
    repeat split; reflexivity.
Defined.
